(** * GoatCounter: statistics aggregation and query post-processing

    A shallow embedding of the parts of GoatCounter that turn stored hits
    into the dashboard's per-day hour arrays ([applyOffset],
    [fillBlankDays], [addTotals], [HitStats.List], [HitStat.Totals]), of the
    location rollup of package cron ([updateLocationStats],
    [existingLocationStats]), of the reindex driver ([UpdateStats],
    [ReindexStats]) and of the path normalisation applied to every ingested
    hit ([cleanPath]).

    Conventions.
    - Go's [int] is a 64-bit two's complement integer: values are [Z] and
      every addition goes through [int.wrap].
    - Go slices of ints are [list Z].  The arrays handled here never share a
      backing array with spare capacity (they come from [make], from JSON
      decoding or from the 24-element literal [allDays]), so [append] and
      re-slicing are the pure list operations.
    - A run-time panic (slice bounds or index out of range) is [None].
    - [time.Time] values are instants in UTC, counted in nanoseconds since
      the Unix epoch.
    - The database is a store of rows; statements on it do not fail.
    - The standard library (time, strings, strconv, net/url) is modelled
      next to the code that calls it: dates and byte strings concretely,
      net/url as an interface. *)

From stdpp Require Import gmap strings list fin_maps pretty sorting.
From Stdlib Require Import ZArith Lia Ascii.

Local Open Scope Z_scope.

(** ** Go's [int] *)

Module int.
Definition min : Z := - 2 ^ 63.
Definition max : Z := 2 ^ 63 - 1.

(** Two's complement wrap-around of a mathematical integer. *)
Definition wrap (z : Z) : Z := (z + 2 ^ 63) mod 2 ^ 64 - 2 ^ 63.

Definition add (a b : Z) : Z := wrap (a + b).
Definition sub (a b : Z) : Z := wrap (a - b).
Definition neg (a : Z) : Z := wrap (- a).

(** [a / b] and [a % b] of Go truncate toward zero. *)
Definition div (a b : Z) : Z := wrap (Z.quot a b).
Definition rem (a b : Z) : Z := Z.rem a b.

Definition InRange (z : Z) : Prop := min <= z <= max.
End int.

(** ** Package time, in UTC *)

Module time.
(** Nanoseconds since 1970-01-01T00:00:00Z. *)
Definition Time : Type := Z.
Definition Duration : Type := Z.

Definition Hour : Duration := 3600 * 1000000000.

Definition After (t u : Time) : bool := u <? t.
Definition Add (t : Time) (d : Duration) : Time := t + d.

(** Days since the epoch of the calendar day an instant falls on. *)
Definition dayOf (t : Time) : Z := t `div` (24 * Hour).
(** Hour of the day, 0..23; what [t.Format("15")] parses back to. *)
Definition hourOf (t : Time) : Z := (t `div` Hour) `mod` 24.

(** Proleptic Gregorian date of a day number: (year, month, day). *)
Definition yearOfEra (doe : Z) : Z :=
  (doe - doe `div` 1460 + doe `div` 36524 - doe `div` 146096) `div` 365.
Definition dayOfYear (doe : Z) : Z :=
  let yoe := yearOfEra doe in
  doe - (365 * yoe + yoe `div` 4 - yoe `div` 100).
Definition civil (d : Z) : Z * Z * Z :=
  let z := d + 719468 in
  let era := z `div` 146097 in
  let doe := z `mod` 146097 in
  let yoe := yearOfEra doe in
  let doy := dayOfYear doe in
  let mp := (5 * doy + 2) `div` 153 in
  let dd := doy - (153 * mp + 2) `div` 5 + 1 in
  let m := if mp <? 10 then mp + 3 else mp - 9 in
  let y := yoe + era * 400 in
  (if m <=? 2 then y + 1 else y, m, dd).

(** The day number of a date: the inverse of [civil]. *)
Definition daysFromCivil (ymd : Z * Z * Z) : Z :=
  let '(y, m, dd) := ymd in
  let y := if m <=? 2 then y - 1 else y in
  let era := y `div` 400 in
  let yoe := y - era * 400 in
  let mp := if 2 <? m then m - 3 else m + 9 in
  let doy := (153 * mp + 2) `div` 5 + dd - 1 in
  let doe := yoe * 365 + yoe `div` 4 - yoe `div` 100 + doy in
  era * 146097 + doe - 719468.

(** [appendInt(b, x, width)] of package time: decimal, zero-padded to
    [width] digits, with a leading minus sign for negative numbers. *)
Definition zeroPad (width : nat) (s : string) : string :=
  Nat.iter (width - String.length s) (String "0"%char) s.
Definition appendInt (x : Z) (width : nat) : string :=
  if x <? 0 then "-" +:+ zeroPad width (pretty (Z.to_N (- x)))
  else zeroPad width (pretty (Z.to_N x)).

Definition formatDate (d : Z) : string :=
  let '(y, m, dd) := civil d in
  appendInt y 4 +:+ "-" +:+ appendInt m 2 +:+ "-" +:+ appendInt dd 2.

(** [t.Format("2006-01-02")]. *)
Definition Format (t : Time) : string := formatDate (dayOf t).
End time.

(** ** Data model: [Stat], [HitStat], [Site] *)

Module Stat.
Record t : Type := mk {
  Day : string;
  Hourly : list Z;
  HourlyUnique : list Z;
  Daily : Z;
  DailyUnique : Z
}.
Definition setHourly (s : t) (h u : list Z) : t :=
  mk (Day s) h u (Daily s) (DailyUnique s).
Definition setDaily (s : t) (d du : Z) : t :=
  mk (Day s) (Hourly s) (HourlyUnique s) d du.
End Stat.
Abbreviation Stat := Stat.t.

Module HitStat.
Record t : Type := mk {
  Count : Z;
  CountUnique : Z;
  PathID : Z;
  Path : string;
  Event : bool;
  Title : string;
  RefScheme : option string;
  Max : Z;
  Stats : list Stat
}.
Definition setStats (h : t) (st : list Stat) : t :=
  mk (Count h) (CountUnique h) (PathID h) (Path h) (Event h) (Title h)
     (RefScheme h) (Max h) st.
Definition setTotals (h : t) (c cu mx : Z) (st : list Stat) : t :=
  mk c cu (PathID h) (Path h) (Event h) (Title h) (RefScheme h) mx st.
End HitStat.
Abbreviation HitStat := HitStat.t.
Abbreviation HitStats := (list HitStat.t).

(** The fields of [Site] that the code below reads.  [TimezoneOffset] is
    [site.Settings.Timezone.Offset()], the UTC offset in minutes. *)
Module Site.
Record t : Type := mk {
  ID : Z;
  State : string;
  ReceivedData : bool;
  TimezoneOffset : Z
}.
End Site.
Abbreviation Site := Site.t.

(** ** Query post-processing *)

Definition allDays : list Z := replicate 24 0.

(** The whole-hour shift [applyOffset] derives from the site's offset. *)
Definition offsetHours (site : Site) : Z :=
  let offset := Site.TimezoneOffset site in
  let offset := if int.rem offset 60 =? 0 then offset else int.add offset 30 in
  int.div offset 60.

(** Body of the loop [for i := range stats] of the [offset > 0] case; the
    loop variables [popped] and [poppedUnique] are threaded through. *)
Fixpoint applyOffsetPos (offset : Z) (popped poppedUnique : list Z)
    (stats : list Stat) : option (list Stat) :=
  match stats with
  | [] => Some []
  | s :: rest =>
    let hourly := popped ++ Stat.Hourly s in
    let o := Z.of_nat (length hourly) - offset in
    if (o <? 0) || (Z.of_nat (length hourly) <? o) then None else
    let unique := poppedUnique ++ Stat.HourlyUnique s in
    if Z.of_nat (length unique) <? o then None else
    let o := Z.to_nat o in
    rest' ← applyOffsetPos offset (drop o hourly) (drop o unique) rest;
    Some (Stat.setHourly s (take o hourly) (take o unique) :: rest')
  end.

(** Body of the loop [for i := len(stats) - 1; i >= 0; i--] of the
    [offset < 0] case: the shifted days and the final [popped],
    [poppedUnique]. *)
Fixpoint applyOffsetNeg (offset : nat) (stats : list Stat)
    : list Stat * (list Z * list Z) :=
  match stats with
  | [] => ([], (replicate offset 0, replicate offset 0))
  | s :: rest =>
    let '(rest', (popped, poppedUnique)) := applyOffsetNeg offset rest in
    let hourly := Stat.Hourly s ++ popped in
    let unique := Stat.HourlyUnique s ++ poppedUnique in
    (Stat.setHourly s (drop offset hourly) (drop offset unique) :: rest',
     (take offset hourly, take offset unique))
  end.

(** [stats[1:]] and [stats[:len(stats)-1]] panic on an empty slice. *)
Definition sliceFrom1 {A} (l : list A) : option (list A) :=
  match l with [] => None | _ :: l' => Some l' end.
Definition sliceToLast {A} (l : list A) : option (list A) :=
  match l with [] => None | _ => Some (removelast l) end.

Definition applyOffset (hh : HitStats) (site : Site) : option HitStats :=
  if decide (length hh = 0%nat) then Some hh else
  let offset := offsetHours site in
  if 0 <? offset then
    mapM (λ h,
      stats ← applyOffsetPos offset
                (replicate (Z.to_nat offset) 0) (replicate (Z.to_nat offset) 0)
                (HitStat.Stats h);
      stats ← sliceFrom1 stats;
      Some (HitStat.setStats h stats)) hh
  else if offset <? 0 then
    let offset := int.neg offset in
    mapM (λ h,
      stats ← sliceToLast (applyOffsetNeg (Z.to_nat offset) (HitStat.Stats h)).1;
      Some (HitStat.setStats h stats)) hh
  else Some hh.

Definition blankStat (dayFmt : string) : Stat :=
  Stat.mk dayFmt allDays allDays 0 0.

(** The inner [for { ... }] of [fillBlankDays]; [fuel] bounds the number of
    iterations and [None] means it ran out before the loop broke. *)
Fixpoint fillLoop (fuel : nat) (day : time.Time) (endFmt : string)
    (stats : list Stat) (j : nat) (newStat : list Stat) : option (list Stat) :=
  match fuel with
  | O => None
  | S fuel =>
    let day := time.Add day (24 * time.Hour) in
    let dayFmt := time.Format day in
    let '(newStat, j) :=
      match stats !! j with
      | Some s =>
        if String.eqb dayFmt (Stat.Day s) then (newStat ++ [s], S j)
        else (newStat ++ [blankStat dayFmt], j)
      | None => (newStat ++ [blankStat dayFmt], j)
      end in
    if String.eqb dayFmt endFmt then Some newStat
    else fillLoop fuel day endFmt stats j newStat
  end.

Definition fillBlankDays (fuel : nat) (hh : HitStats) (start end_ : time.Time)
    : option HitStats :=
  if time.After start end_ then Some hh else
  let endFmt := time.Format end_ in
  mapM (λ h,
    newStat ← fillLoop fuel (time.Add start (- 24 * time.Hour)) endFmt
                 (HitStat.Stats h) 0 [];
    Some (HitStat.setStats h newStat)) hh.

(** The loop over [k] in [addTotals]: [acc] is (Daily, DailyUnique, Max).
    [HourlyUnique[k]] panics when that array is the shorter one. *)
Fixpoint addHours (daily : bool) (hourly unique : list Z) (acc : Z * Z * Z)
    : option (Z * Z * Z) :=
  match hourly with
  | [] => Some acc
  | x :: hourly =>
    match unique with
    | [] => None
    | u :: unique =>
      let '(d, du, mx) := acc in
      addHours daily hourly unique
        (int.add d x, int.add du u, if negb daily && (mx <? x) then x else mx)
    end
  end.

(** The loop over [j] in [addTotals]: [acc] is (Count, CountUnique, Max). *)
Fixpoint addDays (daily : bool) (stats : list Stat) (acc : Z * Z * Z)
    : option (list Stat * (Z * Z * Z)) :=
  match stats with
  | [] => Some ([], acc)
  | s :: rest =>
    let '(c, cu, mx) := acc in
    '(d, du, mx) ← addHours daily (Stat.Hourly s) (Stat.HourlyUnique s)
                      (Stat.Daily s, Stat.DailyUnique s, mx);
    let mx := if daily && (mx <? d) then d else mx in
    '(rest', acc) ← addDays daily rest (int.add c d, int.add cu du, mx);
    Some (Stat.setDaily s d du :: rest', acc)
  end.

Definition addPath (daily : bool) (h : HitStat) : option HitStat :=
  '(stats, (c, cu, mx)) ← addDays daily (HitStat.Stats h)
      (HitStat.Count h, HitStat.CountUnique h, HitStat.Max h);
  Some (HitStat.setTotals h c cu mx stats).

(** [sort.Slice(hh, func(i, j) bool { return hh[i].CountUnique >
    hh[j].CountUnique })].  Go leaves the order of entries with equal keys
    open; this sort keeps them in their order. *)
Definition byCountUnique (a b : HitStat) : Prop :=
  HitStat.CountUnique b <= HitStat.CountUnique a.
#[global] Instance byCountUnique_dec : RelDecision byCountUnique.
Proof. intros a b. unfold byCountUnique. apply _. Defined.
Definition sortByCountUnique (hh : HitStats) : HitStats :=
  merge_sort byCountUnique hh.

(** [addTotals]; the two [*int] arguments are passed in and returned. *)
Definition addTotals (hh : HitStats) (daily : bool)
    (totalDisplay totalUniqueDisplay : Z) : option (HitStats * Z * Z) :=
  hh' ← mapM (addPath daily) hh;
  Some (sortByCountUnique hh',
        foldl (λ t h, int.add t (HitStat.Count h)) totalDisplay hh',
        foldl (λ t h, int.add t (HitStat.CountUnique h)) totalUniqueDisplay hh').

(** A row of [select path_id, day, stats, stats_unique from hit_stats], with
    the two JSON arrays decoded. *)
Record HitStatsRow : Type := {
  row_PathID : Z;
  row_Day : time.Time;
  row_Stats : list Z;
  row_StatsUnique : list Z
}.

(** [zint.NonZero(a, b)]: the first argument that is not zero. *)
Definition NonZero (a b : Z) : Z := if a =? 0 then b else a.

(** [HitStats.List] after its two queries: [paths] is the result of the
    first one (at most [limit] rows, ranked by the database) and [st] of the
    second; [page] is [site.Settings.Limits.Page].  Returns the entries left
    in [*h] with (totalDisplay, totalUniqueDisplay, more). *)
Definition HitStats_List (fuel : nat) (page : Z) (paths : HitStats)
    (st : list HitStatsRow) (start end_ : time.Time) (site : Site)
    (daily : bool) : option (HitStats * (Z * Z * bool)) :=
  let limit := int.add (NonZero page 10) 1 in
  let '(hh, more) :=
    if Z.of_nat (length paths) =? limit then (removelast paths, true)
    else (paths, false) in
  let hh :=
    (λ h, HitStat.setStats h (HitStat.Stats h ++
       omap (λ s, if row_PathID s =? HitStat.PathID h
                  then Some (Stat.mk (time.Format (row_Day s)) (row_Stats s)
                                     (row_StatsUnique s) 0 0)
                  else None) st)) <$> hh in
  hh ← fillBlankDays fuel hh start end_;
  hh ← applyOffset hh site;
  '(hh, totalDisplay, totalUniqueDisplay) ← addTotals hh daily 0 0;
  Some (hh, (totalDisplay, totalUniqueDisplay, more)).

Definition PathTotals : string := "TOTAL ".

(** A row of [select hour, total, total_unique from hit_counts]. *)
Record HitCountsRow : Type := {
  row_Hour : time.Time;
  row_Total : Z;
  row_TotalUnique : Z
}.

(** The loop over the rows in [HitStat.Totals]: the per-day map and the
    running (Count, CountUnique). *)
Definition totalsStep (acc : gmap string Stat * (Z * Z)) (t : HitCountsRow)
    : gmap string Stat * (Z * Z) :=
  let '(stats, (count, countUnique)) := acc in
  let d := time.Format (row_Hour t) in
  let hour := Z.to_nat (time.hourOf (row_Hour t)) in
  let s := default (Stat.mk d (replicate 24 0) (replicate 24 0) 0 0) (stats !! d) in
  let s := Stat.setHourly s
             (alter (λ x, int.add x (row_Total t)) hour (Stat.Hourly s))
             (alter (λ x, int.add x (row_TotalUnique t)) hour (Stat.HourlyUnique s)) in
  (<[d := s]> stats,
   (int.add count (row_Total t), int.add countUnique (row_TotalUnique t))).

Definition maxOf (l : list Z) (mx : Z) : Z :=
  foldl (λ mx x, if mx <? x then x else mx) mx l.

(** The [if daily] loop at the end of [HitStat.Totals]. *)
Definition totalsDaily (stats : list Stat) (mx : Z) : list Stat * Z :=
  foldl (λ '(out, mx) s,
           let d := foldl int.add (Stat.Daily s) (Stat.Hourly s) in
           let du := foldl int.add (Stat.DailyUnique s) (Stat.HourlyUnique s) in
           (out ++ [Stat.setDaily s d du], if mx <? d then d else mx))
        ([], mx) stats.

(** [sort.Slice(totalst.Stats, func(i, j int) bool { return
    totalst.Stats[i].Day < totalst.Stats[j].Day })]; the days are distinct. *)
Definition byDay (a b : Stat) : Prop := String.le (Stat.Day a) (Stat.Day b).
#[global] Instance byDay_dec : RelDecision byDay.
Proof. intros a b. unfold byDay. apply _. Defined.

(** [HitStat.Totals] after its query; returns [*h] and the maximum.  The
    days of the map are visited in no fixed order by Go; the maximum and the
    sorted list do not depend on it. *)
Definition HitStat_Totals (fuel : nat) (tc : list HitCountsRow)
    (start end_ : time.Time) (site : Site) (daily : bool)
    : option (HitStat * Z) :=
  let '(stats, (count, countUnique)) := foldl totalsStep (∅, (0, 0)) tc in
  let days := (map_to_list stats).*2 in
  let mx := if daily then 0
            else foldl (λ mx v, maxOf (Stat.Hourly v) mx) 0 days in
  let totalst := HitStat.mk count countUnique 0 PathTotals false "" None 0
                   (merge_sort byDay days) in
  hh ← fillBlankDays fuel [totalst] start end_;
  hh ← applyOffset hh site;
  match hh with
  | [] => None
  | h0 :: _ =>
    let '(h0, mx) :=
      if daily then
        let '(st, mx) := totalsDaily (HitStat.Stats h0) mx in
        (HitStat.setStats h0 st, mx)
      else (h0, mx) in
    Some (h0, if mx <? 10 then 10 else mx)
  end.


(** ** Hits *)

Module Hit.
(** The fields of [Hit] read or written by the code below. *)
Record t : Type := mk {
  ID : Z;
  Site : Z;
  PathID : Z;
  UserAgentID : Z;
  Path : string;
  Title : string;
  Ref : string;
  Event : bool;
  Query : string;
  Bot : Z;
  Location : string;
  FirstVisit : bool;
  CreatedAt : time.Time
}.
Definition setPath (h : t) (p : string) : t :=
  mk (ID h) (Site h) (PathID h) (UserAgentID h) p (Title h) (Ref h) (Event h)
     (Query h) (Bot h) (Location h) (FirstVisit h) (CreatedAt h).
End Hit.
Abbreviation Hit := Hit.t.

(** ** The location rollup (package cron, location_stat.go) *)

(** A row of the table [location_stats]. *)
Record LocationStat : Type := {
  ls_site_id : Z;
  ls_day : string;
  ls_path_id : Z;
  ls_location : string;
  ls_count : Z;
  ls_count_unique : Z
}.

(** [where site_id=$1 and day=$2 and location=$3 and path_id=$4]. *)
Definition lsMatch (siteID : Z) (day location : string) (pathID : Z)
    (r : LocationStat) : bool :=
  (ls_site_id r =? siteID) && String.eqb (ls_day r) day
  && String.eqb (ls_location r) location && (ls_path_id r =? pathID).

(** [existingLocationStats]: the counts of one matching row, all matching
    rows deleted; (0, 0) and no statement run when there is none.  The first
    matching row of the table stands for the one [limit 1] returns. *)
Definition existingLocationStats (tbl : list LocationStat) (siteID : Z)
    (day location : string) (pathID : Z) : Z * Z * list LocationStat :=
  match filter (λ r, lsMatch siteID day location pathID r = true) tbl with
  | [] => (0, 0, tbl)
  | c0 :: _ =>
    (ls_count c0, ls_count_unique c0,
     filter (λ r, lsMatch siteID day location pathID r ≠ true) tbl)
  end.

(** The local struct type [gt] of [updateLocationStats]. *)
Module gt.
Record t : Type := mk {
  count : Z;
  countUnique : Z;
  day : string;
  location : string;
  pathID : Z
}.
Definition zero : t := mk 0 0 "" "" 0.
End gt.

(** The key a hit is grouped under. *)
Definition locationKey (h : Hit) : string :=
  time.Format (Hit.CreatedAt h) +:+ Hit.Location h +:+ pretty (Hit.PathID h).

(** Body of [for _, h := range hits]; the state is the map [grouped] and
    the table as the transaction sees it. *)
Definition locationStep (isReindex : bool)
    (st : gmap string gt.t * list LocationStat) (h : Hit)
    : gmap string gt.t * list LocationStat :=
  let '(grouped, tbl) := st in
  if 0 <? Hit.Bot h then st else
  let day := time.Format (Hit.CreatedAt h) in
  let k := locationKey h in
  let v := default gt.zero (grouped !! k) in
  let '(v, tbl) :=
    if gt.count v =? 0 then
      let v := gt.mk (gt.count v) (gt.countUnique v) day (Hit.Location h)
                     (Hit.PathID h) in
      if isReindex then (v, tbl) else
      let '(c, cu, tbl) :=
        existingLocationStats tbl (Hit.Site h) day (gt.location v) (gt.pathID v) in
      (gt.mk c cu (gt.day v) (gt.location v) (gt.pathID v), tbl)
    else (v, tbl) in
  let v := gt.mk (int.add (gt.count v) 1)
             (if Hit.FirstVisit h then int.add (gt.countUnique v) 1
              else gt.countUnique v)
             (gt.day v) (gt.location v) (gt.pathID v) in
  (<[k := v]> grouped, tbl).

Definition locationRow (siteID : Z) (v : gt.t) : LocationStat :=
  {| ls_site_id := siteID; ls_day := gt.day v; ls_path_id := gt.pathID v;
     ls_location := gt.location v; ls_count := gt.count v;
     ls_count_unique := gt.countUnique v |}.

(** The rows handed to the bulk insert, one per entry of [grouped]; Go
    visits the map in no fixed order. *)
Definition locationRows (siteID : Z) (grouped : gmap string gt.t)
    : list LocationStat :=
  locationRow siteID <$> (map_to_list grouped).*2.

(** [updateLocationStats] as a transformer of the table [location_stats];
    [site] is [goatcounter.MustGetSite(ctx)]. *)
Definition updateLocationStats (site : Site) (hits : list Hit)
    (isReindex : bool) (tbl : list LocationStat) : list LocationStat :=
  let '(grouped, tbl) := foldl (locationStep isReindex) (∅, tbl) hits in
  tbl ++ locationRows (Site.ID site) grouped.

(** ** The reindex driver (package cron) *)

Definition error : Type := string.

Section Cron.
(** The tables other than [location_stats], with the six aggregators and the
    two [Site] methods whose source lies outside this development. *)
Context {Rest : Type}.

Record DB : Type := mkDB {
  location_stats : list LocationStat;
  rest : Rest
}.

(** The database and the aggregators invoked so far, latest last. *)
Record World : Type := mkWorld {
  db : DB;
  invoked : list string
}.

Definition aggregator : Type := Site → list Hit → bool → DB → option error * DB.

Variables updateHitCounts updateRefCounts updateHitStats updateBrowserStats
  updateSystemStats updateSizeStats : aggregator.
Variable Site_ByID : Z → DB → error + Site.
Variable Site_UpdateReceivedData : Site → DB → option error * DB.
Variable StateActive : string.

Definition updateLocationStatsDB : aggregator := λ site hits isReindex d,
  (None, mkDB (updateLocationStats site hits isReindex (location_stats d)) (rest d)).

Definition invoke (name : string) (f : aggregator) (site : Site)
    (hits : list Hit) (isReindex : bool) (w : World) : option error * World :=
  let '(err, d) := f site hits isReindex (db w) in
  (err, mkWorld d (invoked w ++ [name])).

(** The slice [funs] of [UpdateStats], with the names of its functions. *)
Definition funs : list (string * aggregator) :=
  [("updateHitCounts", updateHitCounts);
   ("updateRefCounts", updateRefCounts);
   ("updateHitStats", updateHitStats);
   ("updateBrowserStats", updateBrowserStats);
   ("updateSystemStats", updateSystemStats);
   ("updateLocationStats", updateLocationStatsDB);
   ("updateSizeStats", updateSizeStats)].

(** [errors.Wrapf(err, "site %d", siteID)]. *)
Definition wrapSite (prefix : string) (siteID : Z) (err : error) : error :=
  prefix +:+ pretty siteID +:+ ": " +:+ err.

Fixpoint runFuns (fs : list (string * aggregator)) (site : Site)
    (siteID : Z) (hits : list Hit) (isReindex : bool) (w : World)
    : option error * World :=
  match fs with
  | [] => (None, w)
  | (name, f) :: fs =>
    match invoke name f site hits isReindex w with
    | (Some err, w) => (Some (wrapSite "site " siteID err), w)
    | (None, w) => runFuns fs site siteID hits isReindex w
    end
  end.

Definition UpdateStats (site : option Site) (siteID : Z) (hits : list Hit)
    (isReindex : bool) (w : World) : option error * World :=
  match
    match site with
    | Some site => inr site
    | None => Site_ByID siteID (db w)
    end
  with
  | inl err => (Some err, w)
  | inr site =>
    match runFuns funs site siteID hits isReindex w with
    | (Some err, w) => (Some err, w)
    | (None, w) =>
      if negb (Site.ReceivedData site) then
        match Site_UpdateReceivedData site (db w) with
        | (Some err, d) =>
          (Some (wrapSite "update received_data: site " siteID err),
           mkWorld d (invoked w))
        | (None, d) => (None, mkWorld d (invoked w))
        end
      else (None, w)
    end
  end.

(** The [switch t] of [ReindexStats]; a name that matches no case runs
    nothing. *)
Definition reindexTable (site : Site) (hits : list Hit) (t : string)
    (w : World) : option error * World :=
  if String.eqb t "all" then UpdateStats (Some site) (Site.ID site) hits true w
  else if String.eqb t "hit_counts" then
    invoke "updateHitCounts" updateHitCounts site hits true w
  else if String.eqb t "ref_counts" then
    invoke "updateRefCounts" updateRefCounts site hits true w
  else if String.eqb t "hit_stats" then
    invoke "updateHitStats" updateHitStats site hits true w
  else if String.eqb t "browser_stats" then
    invoke "updateBrowserStats" updateBrowserStats site hits true w
  else if String.eqb t "system_stats" then
    invoke "updateSystemStats" updateSystemStats site hits true w
  else if String.eqb t "location_stats" then
    invoke "updateLocationStats" updateLocationStatsDB site hits true w
  else if String.eqb t "size_stats" then
    invoke "updateSizeStats" updateSizeStats site hits true w
  else (None, w).

Fixpoint reindexTables (site : Site) (hits : list Hit) (tables : list string)
    (w : World) : option error * World :=
  match tables with
  | [] => (None, w)
  | t :: tables =>
    match reindexTable site hits t w with
    | (Some err, w) => (Some err, w)
    | (None, w) => reindexTables site hits tables w
    end
  end.

Definition ReindexStats (site : Site) (hits : list Hit) (tables : list string)
    (w : World) : option error * World :=
  if negb (String.eqb (Site.State site) StateActive) then (None, w) else
  if decide (length hits = 0%nat) then (None, w) else
  reindexTables site hits tables w.
End Cron.

(** ** Package strings, on the bytes of a string *)

Module Strings.
Definition HasPrefix (s prefix : string) : bool := String.prefix prefix s.

(** [s[n:]]; panics when [n] exceeds the length. *)
Fixpoint sliceFrom (s : string) (n : nat) : option string :=
  match n, s with
  | O, _ => Some s
  | S n, String _ s => sliceFrom s n
  | S _, EmptyString => None
  end.












End Strings.

(** ** Package net/url, as far as [cleanPath] calls it *)

(** [url.Values] is a map from keys to lists of values; [Del] and [Get] are
    operations of that map.  Parsing and printing are the library's. *)
Abbreviation Values := (gmap string (list string)).

Class NetURL : Type := {
  URL : Type;
  (** [url.Parse]; [None] when it returns an error. *)
  url_Parse : string → option URL;
  URL_Path : URL → string;
  URL_Query : URL → Values;
  Values_Encode : Values → string;
  (** [u.RawQuery = q]. *)
  URL_setRawQuery : URL → string → URL;
  URL_String : URL → string
}.

Definition Values_Del (q : Values) (key : string) : Values := delete key q.
Definition Values_Get (q : Values) (key : string) : string :=
  match q !! key with
  | Some (v :: _) => v
  | _ => ""
  end.

(** ** Path normalisation *)





(** The block "Remove various tracking query parameters", after the early
    return for a path without query parameters. *)
Definition cleanTracking `{NetURL} (path : string) : string :=
  match url_Parse path with
  | None => path
  | Some u =>
    let q := URL_Query u in
    let q := Values_Del q "fbclid" in
    let q := Values_Del q "ref" in
    let q := Values_Del q "mc_cid" in
    let q := Values_Del q "mc_eid" in
    let q := filter (λ kv, Strings.HasPrefix kv.1 "utm_" ≠ true) q in
    let q := Values_Del q "nsukey" in
    let q := Values_Del q "isappinstalled" in
    let q := if String.eqb (Values_Get q "from") "singlemessage"
                || String.eqb (Values_Get q "from") "groupmessage"
             then Values_Del q "from" else q in
    URL_String (URL_setRawQuery u (Values_Encode q))
  end.


(** * Specification-side definitions *)

(** ** Dates *)

(** Reading a decimal numeral back, most significant digit first; used to
    show that dates print injectively. *)
Definition digitValue (c : ascii) : N := (N_of_ascii c - 48)%N.
Fixpoint parseDecimal (acc : N) (s : string) : N :=
  match s with
  | EmptyString => acc
  | String c s => parseDecimal (acc * 10 + digitValue c)%N s
  end.

(** Everything [time.civil] computes within one 400-year era, checked
    against the inverse computation of [time.daysFromCivil]. *)
Definition eraCheck (doe : Z) : bool :=
  let yoe := time.yearOfEra doe in
  let doy := time.dayOfYear doe in
  let mp := (5 * doy + 2) `div` 153 in
  let dd := doy - (153 * mp + 2) `div` 5 + 1 in
  let m := if mp <? 10 then mp + 3 else mp - 9 in
  let mp' := if 2 <? m then m - 3 else m + 9 in
  let doy' := (153 * mp' + 2) `div` 5 + dd - 1 in
  (0 <=? yoe) && (yoe <? 400) && (1 <=? m) && (m <=? 12)
  && (1 <=? dd) && (dd <=? 31)
  && (yoe * 365 + yoe `div` 4 - yoe `div` 100 + doy' =? doe).

(** [f] holds on the [n] integers from [z] on. *)
Fixpoint allFrom (f : Z → bool) (n : nat) (z : Z) : bool :=
  match n with
  | O => true
  | S n => f z && allFrom f n (z + 1)
  end.

(** ** The timezone shift *)

(** The offset in minutes rounded to the nearest hour, halves rounding up,
    as the specification words it. *)
Definition roundHalfUp (minutes : Z) : Z := (minutes + 30) `div` 60.

(** A day whose two arrays have 24 entries, and one whose two arrays have
    the same number of entries. *)
Definition day24 (s : Stat) : Prop :=
  length (Stat.Hourly s) = 24%nat ∧ length (Stat.HourlyUnique s) = 24%nat.
Definition balanced (s : Stat) : Prop :=
  length (Stat.Hourly s) = length (Stat.HourlyUnique s).

(** A day shifted right by [n] hours: its first [n] hours are the last [n]
    hours of the previous day, followed by its own first [24 - n] hours. *)
Definition shiftRight (n : nat) (prev cur : list Z) : list Z :=
  drop (24 - n) prev ++ take (24 - n) cur.
Definition dayShiftedRight (n : nat) (prev cur : Stat) : Stat :=
  Stat.setHourly cur (shiftRight n (Stat.Hourly prev) (Stat.Hourly cur))
    (shiftRight n (Stat.HourlyUnique prev) (Stat.HourlyUnique cur)).

(** The mirror image: the day's hours from [n] on, followed by the first
    [n] hours of the next day. *)
Definition shiftLeft (n : nat) (cur next : list Z) : list Z :=
  drop n cur ++ take n next.
Definition dayShiftedLeft (n : nat) (cur next : Stat) : Stat :=
  Stat.setHourly cur (shiftLeft n (Stat.Hourly cur) (Stat.Hourly next))
    (shiftLeft n (Stat.HourlyUnique cur) (Stat.HourlyUnique next)).

(** [f] applied to every day and its successor: one entry fewer. *)
Definition neighbours {A B} (f : A → A → B) (l : list A) : list B :=
  zip_with f l (tail l).

(** A path whose list of days is not empty and holds 24-hour days only. *)
Definition wellFormedDays (h : HitStat) : Prop :=
  HitStat.Stats h ≠ [] ∧ Forall day24 (HitStat.Stats h).


(** A path with its first and its last day removed. *)
Definition middleDays (h : HitStat) : HitStat :=
  HitStat.setStats h (removelast (tail (HitStat.Stats h))).

(** A path with at least two days, all of them 24-hour days. *)
Definition twoDays24 (h : HitStat) : Prop :=
  (2 ≤ length (HitStat.Stats h))%nat ∧ Forall day24 (HitStat.Stats h).

(** A path that [applyOffset] can shift: at least one day, and on every day
    two arrays of the same length. *)
Definition daysToShift (h : HitStat) : Prop :=
  HitStat.Stats h ≠ [] ∧ Forall balanced (HitStat.Stats h).

(** ** Blank days *)

(** The entry of day number [d] among the fetched [stats], or the all-zero
    day when there is none. *)
Definition dayEntry (stats : list Stat) (d : Z) : Stat :=
  default (blankStat (time.formatDate d))
    (head (filter (λ s, Stat.Day s = time.formatDate d) stats)).




(** ** The maximum *)

(** The largest bucket the chart of a path shows: its largest daily total
    when [daily], its largest hourly count otherwise; 0 when none is
    positive. *)
Definition largestBucket (daily : bool) (h : HitStat) : Z :=
  if daily then maxOf (Stat.Daily <$> HitStat.Stats h) 0
  else maxOf (concat (Stat.Hourly <$> HitStat.Stats h)) 0.

(** ** Paths *)



(** ** The location rollup *)

(** The hits an aggregator counts: those not flagged by [h.Bot > 0]. *)
Definition counted (hits : list Hit) : list Hit :=
  filter (λ h, Hit.Bot h <= 0) hits.

(** The (day, location, path ID) a hit is rolled up under, and of a row. *)
Definition hitTriple (h : Hit) : string * string * Z :=
  (time.Format (Hit.CreatedAt h), Hit.Location h, Hit.PathID h).
Definition rowTriple (r : LocationStat) : string * string * Z :=
  (ls_day r, ls_location r, ls_path_id r).

(** The map key of a triple, as [updateLocationStats] concatenates it. *)
Definition keyOf (tr : string * string * Z) : string :=
  tr.1.1 +:+ tr.1.2 +:+ pretty tr.2.

(** The distinct triples of the counted hits: the groups. *)
Definition groups (hits : list Hit) : list (string * string * Z) :=
  remove_dups (hitTriple <$> counted hits).

(** Count and count_unique of the stored row of a group, (0, 0) when there
    is none. *)
Definition existingCounts (siteID : Z) (tbl : list LocationStat)
    (tr : string * string * Z) : Z * Z :=
  match filter (λ r, lsMatch siteID tr.1.1 tr.1.2 tr.2 r = true) tbl with
  | [] => (0, 0)
  | r :: _ => (ls_count r, ls_count_unique r)
  end.

(** The counted hits of a group, and the first visits among them. *)
Definition hitsOf (tr : string * string * Z) (hits : list Hit) : list Hit :=
  filter (λ h, hitTriple h = tr) (counted hits).
Definition firstVisitsOf (tr : string * string * Z) (hits : list Hit)
    : list Hit :=
  filter (λ h, Hit.FirstVisit h = true) (hitsOf tr hits).

(** The entry of [grouped] for a group: the stored counts plus one per hit
    and one per first visit. *)
Definition groupEntry (siteID : Z) (tbl : list LocationStat) (hits : list Hit)
    (tr : string * string * Z) : gt.t :=
  gt.mk ((existingCounts siteID tbl tr).1 + Z.of_nat (length (hitsOf tr hits)))
        ((existingCounts siteID tbl tr).2
         + Z.of_nat (length (firstVisitsOf tr hits)))
        tr.1.1 tr.1.2 tr.2.

(** The row inserted for a group. *)
Definition groupRow (site : Site) (tbl : list LocationStat) (hits : list Hit)
    (tr : string * string * Z) : LocationStat :=
  locationRow (Site.ID site) (groupEntry (Site.ID site) tbl hits tr).

(** The stored rows no group of the batch replaces. *)
Definition untouched (siteID : Z) (hits : list Hit) (tbl : list LocationStat)
    : list LocationStat :=
  filter (λ r, ¬ (ls_site_id r = siteID ∧ rowTriple r ∈ groups hits)) tbl.

(** No two groups of the batch share a map key. *)
Definition keysDistinct (hits : list Hit) : Prop :=
  ∀ h1 h2, h1 ∈ counted hits → h2 ∈ counted hits →
    locationKey h1 = locationKey h2 → hitTriple h1 = hitTriple h2.

(** A check of [keysDistinct] by enumeration. *)
Definition keysDistinctb (hits : list Hit) : bool :=
  forallb (λ h1,
    forallb (λ h2,
      implb (String.eqb (locationKey h1) (locationKey h2))
            (bool_decide (hitTriple h1 = hitTriple h2)))
      (counted hits))
    (counted hits).

(** No stored row for the key of any hit of the batch. *)
Definition noStoredRows (hits : list Hit) (tbl : list LocationStat) : Prop :=
  ∀ h r, h ∈ hits → r ∈ tbl →
    lsMatch (Hit.Site h) (time.Format (Hit.CreatedAt h)) (Hit.Location h)
      (Hit.PathID h) r = false.

(** Every entry of [grouped] counts at least one hit and at most [n]. *)
Definition countsWithin (n : Z) (grouped : gmap string gt.t) : Prop :=
  ∀ k v, grouped !! k = Some v → 1 <= gt.count v <= n.

(** A batch of one site whose groups have distinct keys, against a table of
    non-negative counts; the counts leave room for the batch, whose length
    is an [int]. *)
Definition batchFor (siteID : Z) (tbl : list LocationStat) (hits : list Hit)
    : Prop :=
  (∀ h, h ∈ counted hits → Hit.Site h = siteID)
  ∧ keysDistinct hits
  ∧ Z.of_nat (length hits) <= int.max
  ∧ ∀ r, r ∈ tbl →
      0 <= ls_count r <= int.max - Z.of_nat (length hits)
      ∧ int.min <= ls_count_unique r <= int.max - Z.of_nat (length hits).

(** ** Sample data *)

Definition siteWithOffset (minutes : Z) : Site := Site.mk 1 "a" true minutes.

Definition sampleDay (day : string) (hourly unique : list Z) : Stat :=
  Stat.mk day hourly unique 0 0.
Definition samplePath (stats : list Stat) : HitStat :=
  HitStat.mk 0 0 1 "/a" false "" None 0 stats.
(** The hours of the example in the comment above [applyOffset]. *)
Definition sampleHours : list Z :=
  [0; 0; 0; 0; 0; 0; 0; 0; 0; 0; 0; 4; 7; 0; 0; 0; 0; 0; 0; 0; 0; 0; 1; 0].
Definition sampleDays : list Stat :=
  [sampleDay "2019-12-05" sampleHours sampleHours;
   sampleDay "2019-12-06" sampleHours sampleHours;
   sampleDay "2019-12-07" allDays allDays].

(** 2019-08-31T14:42:00Z, the instant of [TestHitStats]. *)
Definition sampleNow : time.Time := 1567262520 * 1000000000.

(** The two paths and the [hit_stats] rows of [TestHitStats]. *)
Definition testPaths : HitStats :=
  [HitStat.mk 0 0 1 "/asd" false "aSd" None 0 [];
   HitStat.mk 0 0 2 "/zxc" false "" None 0 []].
Definition testRows : list HitStatsRow :=
  [{| row_PathID := 1; row_Day := sampleNow;
      row_Stats := <[14%nat := 2]> allDays;
      row_StatsUnique := <[14%nat := 1]> allDays |};
   {| row_PathID := 2; row_Day := sampleNow;
      row_Stats := <[14%nat := 1]> allDays;
      row_StatsUnique := allDays |}].



(** An aggregator that only fails, for runs that must not reach one. *)
Definition idleAggregator : @aggregator unit := λ _ _ _ d, (Some "unreachable", d).

(** Three hits of [TestHitStats] as the aggregators see them, the second
    one seen in another country, and a stored row for the first group. *)
Definition sampleHits : list Hit :=
  [Hit.mk 1 1 1 1 "/asd" "aSd" "" false "" 0 "NL" true sampleNow;
   Hit.mk 2 1 1 1 "/asd" "" "" false "" 0 "ID" false sampleNow;
   Hit.mk 3 1 1 1 "/asd" "" "" false "" 0 "NL" false sampleNow;
   Hit.mk 4 1 2 1 "/zxc" "" "" false "" 1 "NL" true sampleNow].
Definition sampleStored : list LocationStat :=
  [{| ls_site_id := 1; ls_day := "2019-08-31"; ls_path_id := 1;
      ls_location := "NL"; ls_count := 5; ls_count_unique := 2 |};
   {| ls_site_id := 1; ls_day := "2019-08-30"; ls_path_id := 1;
      ls_location := "NL"; ls_count := 7; ls_count_unique := 3 |}].

(** A hit with a negative bot code, and two hits on one day whose
    locations and path IDs concatenate to the same key. *)
Definition negativeBotHit : Hit :=
  Hit.mk 1 1 1 1 "/asd" "" "" false "" (-1) "NL" false sampleNow.
Definition collidingHits : list Hit :=
  [Hit.mk 1 1 2 1 "/a" "" "" false "" 0 "A1" false sampleNow;
   Hit.mk 2 1 12 1 "/b" "" "" false "" 0 "A" false sampleNow].

(** ** The drivers of package cron *)

(** The names of the aggregators in the order of [funs]. *)
Definition aggregatorNames : list string :=
  ["updateHitCounts"; "updateRefCounts"; "updateHitStats";
   "updateBrowserStats"; "updateSystemStats"; "updateLocationStats";
   "updateSizeStats"].

(** The table names the [switch] of [ReindexStats] knows. *)
Definition reindexTableNames : list string :=
  ["all"; "hit_counts"; "ref_counts"; "hit_stats"; "browser_stats";
   "system_stats"; "location_stats"; "size_stats"].

(** ** Totals *)

Definition sumZ (l : list Z) : Z := foldr Z.add 0 l.



(** Two paths as [HitStats.List] hands them to [addTotals]. *)
Definition untotalled : HitStats :=
  [HitStat.mk 0 0 2 "/zxc" false "" None 0
     [Stat.mk "2019-08-31" (<[14%nat := 1]> allDays) allDays 0 0];
   HitStat.mk 0 0 1 "/asd" false "aSd" None 0
     [Stat.mk "2019-08-31" (<[14%nat := 2]> allDays)
        (<[14%nat := 1]> allDays) 0 0]].

(** A day whose unique array is shorter than its hour array. *)
Definition shortUnique (s : Stat) : Prop :=
  (length (Stat.HourlyUnique s) < length (Stat.Hourly s))%nat.


(** * Further parts of the program

    The driver [PersistAndStat] of package cron and its [vacuumDeleted],
    the title cache of [Path.updateTitle], the CSV export and import
    ([Export.Run], [ExportRows.Export], [ExportRow.Read], the header check
    of [Import]) and the paging of [Hits.List], each followed by the
    notions its properties are stated with. *)

(** ** cron.go: PersistAndStat *)

(** Body of the first loop of [PersistAndStat]: a hit flagged as a bot is
    skipped, any other is appended to the slice of its site. *)
Definition groupStep (grouped : gmap Z (list Hit)) (h : Hit)
    : gmap Z (list Hit) :=
  if 0 <? Hit.Bot h then grouped
  else <[Hit.Site h := default [] (grouped !! Hit.Site h) ++ [h]]> grouped.

Definition groupBySite (hits : list Hit) : gmap Z (list Hit) :=
  foldl groupStep ∅ hits.

Section Persist.
Context {Rest : Type}.
Variables updateHitCounts updateRefCounts updateHitStats updateBrowserStats
  updateSystemStats updateSizeStats : @aggregator Rest.
Variable Site_ByID : Z → @DB Rest → error + Site.
Variable Site_UpdateReceivedData : Site → @DB Rest → option error * @DB Rest.
(** [goatcounter.Memstore.Persist]: the hits it has stored, or an error. *)
Variable Memstore_Persist : @DB Rest → (error + list Hit) * @DB Rest.

(** [PersistAndStat].  The [err] of the second loop is a variable of the
    loop body, so that the closing [return err] returns the one of
    [Persist], nil by then.  The map is ranged over in the order of
    [map_to_list]; Go leaves the order open.  Logging and [LastMemstore]
    are left out. *)
Definition PersistAndStat (w : @World Rest) : option error * @World Rest :=
  match Memstore_Persist (db w) with
  | (inl err, d) => (Some err, mkWorld d (invoked w))
  | (inr hits, d) =>
    (None,
     foldl (λ w '(siteID, hits),
              (UpdateStats updateHitCounts updateRefCounts updateHitStats
                 updateBrowserStats updateSystemStats updateSizeStats
                 Site_ByID Site_UpdateReceivedData None siteID hits false w).2)
           (mkWorld d (invoked w)) (map_to_list (groupBySite hits)))
  end.
End Persist.

(** ** Batches per site *)

(** The slice a site ends up with: its hits that are not bots, in their
    order, and no entry at all when there is none. *)
Definition siteBatch (siteID : Z) (hits : list Hit) : option (list Hit) :=
  match filter (λ h, Hit.Site h = siteID) (counted hits) with
  | [] => None
  | l => Some l
  end.

(** A memstore that hands over the sample hits, the last of them a bot. *)
Definition sampleMemstore : @DB unit → (error + list Hit) * @DB unit :=
  λ d, (inr sampleHits, d).

(** ** path.go: updateTitle *)

(** [changedTitles]: under the ID of a path, printed in decimal, the titles
    seen for it that differ from the stored one.  An entry that expires is
    an entry deleted between two calls. *)
Abbreviation TitleCache := (gmap string (list string)).

(** [for _, t := range titles { grouped[t]++ }]. *)
Definition countTitles (titles : list string) : gmap string Z :=
  foldl (λ grouped t, <[t := int.add (default 0 (grouped !! t)) 1]> grouped)
        ∅ titles.

(** [for t, n := range grouped { if n > 10 { ...; break } }]: the title the
    loop stops at.  The map is ranged over in the order of [map_to_list];
    Go leaves the order open. *)
Definition frequentTitle (grouped : gmap string Z) : option string :=
  fst <$> head (filter (λ tn, 10 < tn.2) (map_to_list grouped)).

(** [Path.updateTitle]: the cache afterwards, and the title written to the
    row of the path in [paths], if any; the statement that writes it is
    taken to succeed. *)
Definition updateTitle (pathID : Z) (currentTitle newTitle : string)
    (cache : TitleCache) : TitleCache * option string :=
  if String.eqb newTitle currentTitle then (cache, None) else
  let k := pretty pathID in
  match cache !! k with
  | None => (<[k := [newTitle]]> cache, None)
  | Some vv =>
    let titles := vv ++ [newTitle] in
    let cache := <[k := titles]> cache in
    match frequentTitle (countTitles titles) with
    | Some t => (delete k cache, Some t)
    | None => (cache, None)
    end
  end.

(** ** Titles *)

(** How often a title has been seen in a list of titles. *)
Definition seen (t : string) (titles : list string) : nat :=
  length (filter (λ x, x = t) titles).

(** No title has been seen more than ten times for any path. *)
Definition titlesBounded (cache : TitleCache) : Prop :=
  ∀ k titles t, cache !! k = Some titles → (seen t titles ≤ 10)%nat.

(** The tenth sighting of a title is in the cache. *)
Definition tenSightings : TitleCache :=
  {[ "7" := replicate 10 "New title" ]}.

(** ** export.go: the CSV rows *)

Definition ExportVersion : string := "2".

(** The struct [ExportRow], its fields in order; [Uint128] is the type of
    package zint. *)
Module ExportRow.
Section Fields.
Context {Uint128 : Type}.
Record t : Type := mk {
  ID : Z;
  SiteID : Z;
  Path : string;
  Title : string;
  Event : string;
  UserAgent : string;
  Browser : string;
  System : string;
  Session : Uint128;
  Bot : string;
  Ref : string;
  RefScheme : option string;
  Size : string;
  Location : string;
  FirstVisit : string;
  CreatedAt : string
}.
Definition setPath (r : t) (v : string) : t :=
  mk (ID r) (SiteID r) v (Title r) (Event r) (UserAgent r) (Browser r) (System r) (Session r) (Bot r) (Ref r) (RefScheme r) (Size r) (Location r) (FirstVisit r) (CreatedAt r).
Definition setTitle (r : t) (v : string) : t :=
  mk (ID r) (SiteID r) (Path r) v (Event r) (UserAgent r) (Browser r) (System r) (Session r) (Bot r) (Ref r) (RefScheme r) (Size r) (Location r) (FirstVisit r) (CreatedAt r).
Definition setEvent (r : t) (v : string) : t :=
  mk (ID r) (SiteID r) (Path r) (Title r) v (UserAgent r) (Browser r) (System r) (Session r) (Bot r) (Ref r) (RefScheme r) (Size r) (Location r) (FirstVisit r) (CreatedAt r).
Definition setUserAgent (r : t) (v : string) : t :=
  mk (ID r) (SiteID r) (Path r) (Title r) (Event r) v (Browser r) (System r) (Session r) (Bot r) (Ref r) (RefScheme r) (Size r) (Location r) (FirstVisit r) (CreatedAt r).
Definition setBrowser (r : t) (v : string) : t :=
  mk (ID r) (SiteID r) (Path r) (Title r) (Event r) (UserAgent r) v (System r) (Session r) (Bot r) (Ref r) (RefScheme r) (Size r) (Location r) (FirstVisit r) (CreatedAt r).
Definition setSystem (r : t) (v : string) : t :=
  mk (ID r) (SiteID r) (Path r) (Title r) (Event r) (UserAgent r) (Browser r) v (Session r) (Bot r) (Ref r) (RefScheme r) (Size r) (Location r) (FirstVisit r) (CreatedAt r).
Definition setSession (r : t) (v : Uint128) : t :=
  mk (ID r) (SiteID r) (Path r) (Title r) (Event r) (UserAgent r) (Browser r) (System r) v (Bot r) (Ref r) (RefScheme r) (Size r) (Location r) (FirstVisit r) (CreatedAt r).
Definition setBot (r : t) (v : string) : t :=
  mk (ID r) (SiteID r) (Path r) (Title r) (Event r) (UserAgent r) (Browser r) (System r) (Session r) v (Ref r) (RefScheme r) (Size r) (Location r) (FirstVisit r) (CreatedAt r).
Definition setRef (r : t) (v : string) : t :=
  mk (ID r) (SiteID r) (Path r) (Title r) (Event r) (UserAgent r) (Browser r) (System r) (Session r) (Bot r) v (RefScheme r) (Size r) (Location r) (FirstVisit r) (CreatedAt r).
Definition setRefScheme (r : t) (v : option string) : t :=
  mk (ID r) (SiteID r) (Path r) (Title r) (Event r) (UserAgent r) (Browser r) (System r) (Session r) (Bot r) (Ref r) v (Size r) (Location r) (FirstVisit r) (CreatedAt r).
Definition setSize (r : t) (v : string) : t :=
  mk (ID r) (SiteID r) (Path r) (Title r) (Event r) (UserAgent r) (Browser r) (System r) (Session r) (Bot r) (Ref r) (RefScheme r) v (Location r) (FirstVisit r) (CreatedAt r).
Definition setLocation (r : t) (v : string) : t :=
  mk (ID r) (SiteID r) (Path r) (Title r) (Event r) (UserAgent r) (Browser r) (System r) (Session r) (Bot r) (Ref r) (RefScheme r) (Size r) v (FirstVisit r) (CreatedAt r).
Definition setFirstVisit (r : t) (v : string) : t :=
  mk (ID r) (SiteID r) (Path r) (Title r) (Event r) (UserAgent r) (Browser r) (System r) (Session r) (Bot r) (Ref r) (RefScheme r) (Size r) (Location r) v (CreatedAt r).
Definition setCreatedAt (r : t) (v : string) : t :=
  mk (ID r) (SiteID r) (Path r) (Title r) (Event r) (UserAgent r) (Browser r) (System r) (Session r) (Bot r) (Ref r) (RefScheme r) (Size r) (Location r) (FirstVisit r) v.
End Fields.
End ExportRow.

Section ExportCSV.
Context {Uint128 : Type}.
(** [zint.ParseUint128(v, 16)], whose error [Read] drops, and the method
    [String] of [Uint128]. *)
Variable ParseUint128 : string → Z → Uint128.
Variable Uint128_String : Uint128 → string.
(** [unref], of another file of the package. *)
Variable unref : option string → string.

Abbreviation ExportRow := (@ExportRow.t Uint128).

(** What the [switch f.Kind()] of [Read] does to field [i] of the struct:
    nothing to the two [int64], [ParseUint128] for the array, a fresh
    pointer for the pointer, the string itself for a string. *)
Definition setField : list (ExportRow → string → ExportRow) :=
  [(λ row _, row);
   (λ row _, row);
   ExportRow.setPath;
   ExportRow.setTitle;
   ExportRow.setEvent;
   ExportRow.setUserAgent;
   ExportRow.setBrowser;
   ExportRow.setSystem;
   (λ row v, ExportRow.setSession row (ParseUint128 v 16));
   ExportRow.setBot;
   ExportRow.setRef;
   (λ row v, ExportRow.setRefScheme row (Some v));
   ExportRow.setSize;
   ExportRow.setLocation;
   ExportRow.setFirstVisit;
   ExportRow.setCreatedAt].

(** [values.NumField()]. *)
Definition NumField : nat := length setField.

(** [const offset = 2]. *)
Definition offset : nat := 2.

(** [ExportRow.Read]: [None] is a panic of [values.Field(i)] or of
    [line[i-offset]], [inl] the error returned. *)
Definition Read (row : ExportRow) (line : list string)
    : option (error + ExportRow) :=
  if decide (length line ≠ (NumField - offset)%nat) then
    Some (inl ("wrong number of fields: " +:+ pretty (length line)
               +:+ " (want: " +:+ pretty (NumField - offset)%nat +:+ ")"))
  else
    inr <$> foldl (λ acc i,
                     row ← acc;
                     set ← setField !! i;
                     v ← line !! (i - offset)%nat;
                     Some (set row v))
                  (Some row) (seq offset (length line)).

(** The record [Export.Run] writes for a row. *)
Definition exportLine (hit : ExportRow) : list string :=
  [ExportRow.Path hit; ExportRow.Title hit; ExportRow.Event hit;
   ExportRow.UserAgent hit; ExportRow.Browser hit; ExportRow.System hit;
   Uint128_String (ExportRow.Session hit); ExportRow.Bot hit;
   ExportRow.Ref hit; unref (ExportRow.RefScheme hit); ExportRow.Size hit;
   ExportRow.Location hit; ExportRow.FirstVisit hit;
   ExportRow.CreatedAt hit].
End ExportCSV.

(** The first record [Export.Run] writes. *)
Definition exportHeader : list string :=
  [ExportVersion +:+ "Path"; "Title"; "Event"; "UserAgent"; "Browser";
   "System"; "Session"; "Bot"; "Referrer"; "Referrer scheme"; "Screen size";
   "Location"; "FirstVisit"; "Date"].

(** [s[:n]]; panics when [n] exceeds the length. *)
Definition sliceTo (s : string) (n : nat) : option string :=
  if decide (n ≤ String.length s)%nat then Some (String.substring 0 n s)
  else None.

(** The check of the header in [Import]: [None] is a panic of [header[0]]
    or of [header[0][:1]], [Some (Some err)] the error mailed to the user,
    [Some None] a header that is accepted. *)
Definition importHeader (header : list string) : option (option error) :=
  if match header with
     | [] => true
     | h0 :: _ => negb (Strings.HasPrefix h0 ExportVersion)
     end
  then
    h0 ← header !! 0%nat;
    v ← sliceTo h0 1;
    Some (Some ("wrong version of CSV database: " +:+ v +:+ " (expected: "
                +:+ ExportVersion +:+ ")"))
  else Some None.

(** ** Export and import *)

(** What [Read] makes of the record written for [hit], read into [row]:
    the two IDs of [row], the session printed and parsed, a reference
    scheme that is never nil, and every other field of [hit]. *)
Definition readBack {Uint128 : Type} (ParseUint128 : string → Z → Uint128)
    (Uint128_String : Uint128 → string) (unref : option string → string)
    (row hit : @ExportRow.t Uint128) : @ExportRow.t Uint128 :=
  ExportRow.mk (ExportRow.ID row) (ExportRow.SiteID row)
    (ExportRow.Path hit) (ExportRow.Title hit) (ExportRow.Event hit)
    (ExportRow.UserAgent hit) (ExportRow.Browser hit) (ExportRow.System hit)
    (ParseUint128 (Uint128_String (ExportRow.Session hit)) 16)
    (ExportRow.Bot hit) (ExportRow.Ref hit)
    (Some (unref (ExportRow.RefScheme hit)))
    (ExportRow.Size hit) (ExportRow.Location hit) (ExportRow.FirstVisit hit)
    (ExportRow.CreatedAt hit).

(** ** Pages of hits *)

(** [select * from ... where site_id=$1 and hit_id>$2 order by hit_id asc
    limit $3], over the rows of a table or view with their [hit_id] and
    [site_id], for a limit that is not negative. *)
Section Select.
Context {Row : Type}.
Variables rowID rowSite : Row → Z.

Definition byID (a b : Row) : Prop := rowID a <= rowID b.
#[global] Instance byID_dec : RelDecision byID.
Proof. intros a b. unfold byID. apply _. Defined.

Definition afterID (site paginate : Z) (r : Row) : Prop :=
  rowSite r = site ∧ paginate < rowID r.
#[global] Instance afterID_dec site paginate r :
  Decision (afterID site paginate r).
Proof. unfold afterID. apply _. Defined.

Definition selectAfter (tbl : list Row) (site paginate : Z) : list Row :=
  merge_sort byID (filter (afterID site paginate) tbl).

Definition selectPage (tbl : list Row) (site paginate limit : Z) : list Row :=
  take (Z.to_nat limit) (selectAfter tbl site paginate).

(** [limit == 0 || limit > 5000] sets the limit to 5000; a negative limit
    is passed on, and is an error of the statement (it is in PostgreSQL). *)
Definition pageLimit (limit : Z) : Z :=
  if (limit =? 0) || (5000 <? limit) then 5000 else limit.

Definition selectHits (tbl : list Row) (site paginate limit : Z)
    : list Row * option error :=
  if limit <? 0 then ([], Some "LIMIT must not be negative")
  else (selectPage tbl site paginate limit, None).

(** [last := paginate; if len(hh) > 0 { last = hh[len(hh)-1].ID }]. *)
Definition lastID (hh : list Row) (paginate : Z) : Z :=
  match last hh with
  | Some r => rowID r
  | None => paginate
  end.
End Select.

(** [Hits.List], on the table [hits]: the hits, [last] and the error. *)
Definition Hits_List (tbl : list Hit) (site limit paginate : Z)
    : list Hit * Z * option error :=
  let '(hh, err) :=
    selectHits Hit.ID Hit.Site tbl site paginate (pageLimit limit) in
  (hh, lastID Hit.ID hh paginate, (λ e, "Hits.List: " +:+ e) <$> err).

Section ExportRun.
Context {Uint128 : Type}.
Variable Uint128_String : Uint128 → string.
Variable unref : option string → string.
(** [gadget.Unshorten]. *)
Variable Unshorten : string → string.

(** [ExportRows.Export], on the view [hits_export]. *)
Definition ExportRows_Export (tbl : list (@ExportRow.t Uint128))
    (site limit paginate : Z)
    : list (@ExportRow.t Uint128) * Z * option error :=
  let '(hh, err) :=
    selectHits ExportRow.ID ExportRow.SiteID tbl site paginate
      (pageLimit limit) in
  let hh :=
    (λ r, ExportRow.setUserAgent r (Unshorten (ExportRow.UserAgent r)))
      <$> hh in
  (hh, lastID ExportRow.ID hh paginate, (λ e, "Hits.List: " +:+ e) <$> err).

(** The [for] loop of [Export.Run]: [LastHitID], [NumRows] and the records
    written, with the error the loop is left with.  The CSV writer is taken
    not to fail; [None] is a loop that has not ended within [fuel]
    rounds. *)
Fixpoint exportLoop (fuel : nat) (tbl : list (@ExportRow.t Uint128))
    (site LastHitID NumRows : Z) (written : list (list string))
    : option (Z * Z * list (list string) * option error) :=
  match fuel with
  | O => None
  | S fuel =>
    let '(hits, last, exportErr) :=
      ExportRows_Export tbl site 5000 LastHitID in
    if decide (length hits = 0%nat) then
      Some (last, NumRows, written, exportErr)
    else if exportErr is Some _ then
      Some (last, NumRows, written, exportErr)
    else
      exportLoop fuel tbl site last
        (int.add NumRows (Z.of_nat (length hits)))
        (written ++ (exportLine Uint128_String unref <$> hits))
  end.

(** [Export.Run] up to the end of its loop, for an export that starts from
    [StartFromHitID]. *)
Definition Export_Run (fuel : nat) (tbl : list (@ExportRow.t Uint128))
    (site StartFromHitID : Z)
    : option (Z * Z * list (list string) * option error) :=
  exportLoop fuel tbl site StartFromHitID 0 [exportHeader].
End ExportRun.

(** ** Pages *)


(** Rows in strictly ascending order of their IDs. *)
Definition ascending {Row : Type} (rowID : Row → Z) (l : list Row) : Prop :=
  StronglySorted (λ a b, rowID a < rowID b) l.

(** A hit of [TestHitStats] with an ID and a site. *)
Definition hitOf (id site : Z) : Hit :=
  Hit.mk id site 1 1 "/asd" "" "" false "" 0 "NL" false sampleNow.

(** Hits of two sites, stored out of order. *)
Definition sampleTable : list Hit :=
  [hitOf 5 1; hitOf 2 1; hitOf 3 2; hitOf 9 1; hitOf 7 1].

(** A row of [hits_export] with an ID, a site and a path. *)
Definition exportRowOf (id site : Z) (path : string) : @ExportRow.t Z :=
  ExportRow.mk id site path "" "" "" "" "" 0 "0" "" None "" "" "1"
    "2019-08-31T14:42:00Z".

Definition sampleExportTable : list (@ExportRow.t Z) :=
  [exportRowOf 5 1 "/c"; exportRowOf 2 1 "/a"; exportRowOf 3 2 "/b"].

(** ** Tracking parameters *)

(** The query parameters [cleanPath] removes: the fixed ones, those of
    Google, and [from] when its first value is one of WeChat's. *)
Definition trackingKey (q : Values) (k : string) : Prop :=
  k ∈ ["fbclid"; "ref"; "mc_cid"; "mc_eid"; "nsukey"; "isappinstalled"]
  ∨ Strings.HasPrefix k "utm_" = true
  ∨ (k = "from"
     ∧ Values_Get q "from" ∈ ["singlemessage"; "groupmessage"]).
#[global] Instance trackingKey_dec q k : Decision (trackingKey q k).
Proof. unfold trackingKey. apply _. Defined.

(** A query without its tracking parameters. *)
Definition withoutTracking (q : Values) : Values :=
  filter (λ kv, ¬ trackingKey q kv.1) q.

(** A net/url whose every URL has the same query, and prints as the query
    it is given. *)
Definition fixedQuery (q : Values) : NetURL :=
  {| URL := string; url_Parse := λ s, Some s; URL_Path := id;
     URL_Query := λ _, q;
     Values_Encode := λ q, foldr (λ kv s, kv.1 +:+ ";" +:+ s) ""
                                 (map_to_list q);
     URL_setRawQuery := λ _ raw, raw;
     URL_String := id |}.

(** ** cron.go: vacuumDeleted *)

(** The tables as [vacuumDeleted] sees them: under every table name its
    rows, of which only the [site_id] matters.  The statements are taken to
    succeed. *)
Section Vacuum.
Context {Row : Type}.
Variable row_site_id : Row → Z.

(** [delete from t where site_id=siteID]. *)
Definition deleteSite (t : string) (siteID : Z) (tables : string → list Row)
    : string → list Row :=
  λ t', if decide (t' = t)
        then filter (λ r, row_site_id r ≠ siteID) (tables t')
        else tables t'.

(** The transaction [vacuumDeleted] runs for a site. *)
Definition vacuumSite (tables : string → list Row) (s : Site)
    : string → list Row :=
  deleteSite "sites" (Site.ID s)
    (foldl (λ tables t, deleteSite t (Site.ID s) tables) tables
       ["browser_stats"; "system_stats"; "hit_stats"; "hits";
        "location_stats"; "size_stats"; "users"]).

(** [vacuumDeleted], for the sites [Sites.OldSoftDeleted] lists. *)
Definition vacuumDeleted (sites : list Site) (tables : string → list Row)
    : string → list Row :=
  foldl vacuumSite tables sites.
End Vacuum.

(** ** Vacuuming *)

(** The tables [vacuumDeleted] deletes from. *)
Definition vacuumedTables : list string :=
  ["browser_stats"; "system_stats"; "hit_stats"; "hits"; "location_stats";
   "size_stats"; "users"; "sites"].

(** ** Days of a range *)

(** The calendar days from [start] to [end_], printed. *)
Definition rangeDays (start end_ : time.Time) : list string :=
  time.formatDate
    <$> seqZ (time.dayOf start) (time.dayOf end_ - time.dayOf start + 1).

(** An entry dated outside the days from [start] to [end_]. *)
Definition outOfRange (start end_ : time.Time) (s : Stat) : Prop :=
  Stat.Day s ∉ rangeDays start end_.

(** ** Batches of the location rollup *)

(** At most one stored row per group of a site. *)
Definition uniqueRows (siteID : Z) (tbl : list LocationStat) : Prop :=
  NoDup (rowTriple <$> filter (λ r, ls_site_id r = siteID) tbl).

(** A second batch of the sample site: one more hit from NL on the path of
    the first, and one on a new path. *)
Definition laterHits : list Hit :=
  [Hit.mk 5 1 1 1 "/asd" "" "" false "" 0 "NL" true sampleNow;
   Hit.mk 6 1 3 1 "/new" "" "" false "" 0 "DE" true sampleNow].

(** ** The totals of a site *)

(** Two rows of [hit_counts]: at 14:00 and at 23:00 of 2019-08-31. *)
Definition sampleCounts : list HitCountsRow :=
  [{| row_Hour := sampleNow; row_Total := 3; row_TotalUnique := 1 |};
   {| row_Hour := sampleNow + 9 * time.Hour; row_Total := 4;
      row_TotalUnique := 2 |}].
(** * Properties *)

(** ** Integer arithmetic *)

Lemma wrap_id (z : Z) : int.InRange z → int.wrap z = z.
Proof.
  unfold int.InRange, int.min, int.max, int.wrap. intros Hz.
  rewrite Z.mod_small; lia.
Qed.

Lemma wrap_range (z : Z) : int.InRange (int.wrap z).
Proof.
  unfold int.InRange, int.min, int.max, int.wrap.
  pose proof (Z.mod_pos_bound (z + 2 ^ 63) (2 ^ 64)). lia.
Qed.

Lemma int_add_id (a b : Z) : int.InRange (a + b) → int.add a b = a + b.
Proof. apply wrap_id. Qed.

(** ** Dates *)

Lemma string_length_app (a b : string) :
  String.length (a +:+ b) = (String.length a + String.length b)%nat.
Proof. induction a as [|c a IH]; simpl; [done|]. by rewrite IH. Qed.

Lemma string_app_inj_length (a a' b b' : string) :
  String.length a = String.length a' → a +:+ b = a' +:+ b' → a = a' ∧ b = b'.
Proof.
  revert a'. induction a as [|c a IH]; intros [|c' a']; simpl; try done.
  intros Hlen Heq. injection Heq as -> Heq. injection Hlen as Hlen.
  destruct (IH a' Hlen Heq) as [-> ->]. done.
Qed.

Lemma string_app_inj_length_r (a a' b b' : string) :
  String.length b = String.length b' → a +:+ b = a' +:+ b' → a = a' ∧ b = b'.
Proof.
  intros Hlen Heq. apply string_app_inj_length; [|done].
  apply (f_equal String.length) in Heq. rewrite !string_length_app in Heq. lia.
Qed.

Lemma digitValue_pretty (d : N) : (d < 10)%N → digitValue (pretty_N_char d) = d.
Proof.
  intros Hd.
  assert (d = 0 ∨ d = 1 ∨ d = 2 ∨ d = 3 ∨ d = 4 ∨ d = 5 ∨ d = 6 ∨ d = 7
          ∨ d = 8 ∨ d = 9)%N as Hcases by lia.
  repeat (destruct Hcases as [->|Hcases]; [reflexivity|]). by subst.
Qed.

Lemma parseDecimal_pretty_go (x : N) (s : string) :
  parseDecimal 0 (pretty_N_go x s) = parseDecimal x s.
Proof.
  revert s. induction (N.lt_wf_0 x) as [x _ IH]; intros s.
  destruct (decide (x = 0)%N) as [->|Hx].
  { by rewrite pretty_N_go_0. }
  rewrite pretty_N_go_step by lia.
  rewrite IH by (apply N.div_lt; lia). simpl.
  rewrite digitValue_pretty by (apply N.mod_lt; lia).
  f_equal. pose proof (N.div_mod x 10). lia.
Qed.

Lemma parseDecimal_pretty (x : N) : parseDecimal 0 (pretty x) = x.
Proof.
  unfold pretty, pretty_N. case_decide as Hx; [by subst|].
  apply parseDecimal_pretty_go.
Qed.

Lemma parseDecimal_zeroPad (width : nat) (s : string) :
  parseDecimal 0 (time.zeroPad width s) = parseDecimal 0 s.
Proof.
  unfold time.zeroPad. induction (width - String.length s)%nat as [|k IH]; done.
Qed.

Lemma zeroPad_no_dash (width : nat) (x : N) (s : string) :
  time.zeroPad width (pretty x) ≠ "-" +:+ s.
Proof.
  unfold time.zeroPad. destruct (width - _)%nat as [|k]; simpl; [|done].
  unfold pretty, pretty_N. case_decide; [done|].
  by apply pretty_N_go_ne_dash.
Qed.

Lemma appendInt_inj (width : nat) (x y : Z) :
  time.appendInt x width = time.appendInt y width → x = y.
Proof.
  unfold time.appendInt.
  destruct (x <? 0) eqn:Hx, (y <? 0) eqn:Hy; intros Heq.
  - apply (inj (String.app "-")) in Heq.
    apply (f_equal (parseDecimal 0)) in Heq.
    rewrite !parseDecimal_zeroPad, !parseDecimal_pretty in Heq. lia.
  - symmetry in Heq. by apply zeroPad_no_dash in Heq.
  - by apply zeroPad_no_dash in Heq.
  - apply (f_equal (parseDecimal 0)) in Heq.
    rewrite !parseDecimal_zeroPad, !parseDecimal_pretty in Heq. lia.
Qed.

Lemma allFrom_spec (f : Z → bool) (n : nat) (z x : Z) :
  allFrom f n z = true → z <= x < z + Z.of_nat n → f x = true.
Proof.
  revert z. induction n as [|n IH]; intros z Hall Hx; [lia|].
  simpl in Hall. apply andb_true_iff in Hall as [Hz Hall].
  destruct (decide (x = z)) as [->|Hne]; [done|].
  apply (IH (z + 1)); [done|lia].
Qed.

Lemma appendInt_length_2 (x : Z) :
  0 <= x < 100 → String.length (time.appendInt x 2) = 2%nat.
Proof.
  intros Hx.
  assert (allFrom (λ x, Nat.eqb (String.length (time.appendInt x 2)) 2) 100 0
          = true) as Hall by (vm_compute; reflexivity).
  apply Nat.eqb_eq. apply (allFrom_spec _ _ _ x Hall). lia.
Qed.

Lemma eraCheck_all (doe : Z) : 0 <= doe < 146097 → eraCheck doe = true.
Proof.
  intros Hdoe.
  assert (allFrom eraCheck (Z.to_nat 146097) 0 = true) as Hall
    by (vm_compute; reflexivity).
  apply (allFrom_spec _ _ _ doe Hall). lia.
Qed.

Lemma civil_inverse (d : Z) : time.daysFromCivil (time.civil d) = d.
Proof.
  unfold time.civil.
  set (z := d + 719468).
  pose proof (Z.mod_pos_bound z 146097 eq_refl) as Hdoe.
  pose proof (Z.div_mod z 146097 ltac:(done)) as Hz.
  set (era := z `div` 146097) in *. set (doe := z `mod` 146097) in *.
  pose proof (eraCheck_all doe Hdoe) as Hc. unfold eraCheck in Hc.
  set (yoe := time.yearOfEra doe) in *.
  set (doy := time.dayOfYear doe) in *.
  set (mp := (5 * doy + 2) `div` 153) in *.
  set (dd := doy - (153 * mp + 2) `div` 5 + 1) in *.
  set (m := if mp <? 10 then mp + 3 else mp - 9) in *.
  repeat (apply andb_true_iff in Hc as [Hc ?]).
  unfold time.daysFromCivil.
  assert ((if m <=? 2
           then (if m <=? 2 then yoe + era * 400 + 1 else yoe + era * 400) - 1
           else (if m <=? 2 then yoe + era * 400 + 1 else yoe + era * 400))
          = yoe + era * 400) as -> by (destruct (m <=? 2); lia).
  assert ((yoe + era * 400) `div` 400 = era) as ->.
  { rewrite Z.div_add by done. rewrite Z.div_small by lia. done. }
  replace (yoe + era * 400 - era * 400) with yoe by lia.
  lia.
Qed.

Lemma civil_month_day (d : Z) :
  1 <= (time.civil d).1.2 <= 12 ∧ 1 <= (time.civil d).2 <= 31.
Proof.
  unfold time.civil.
  set (z := d + 719468).
  pose proof (Z.mod_pos_bound z 146097 eq_refl) as Hdoe.
  set (doe := z `mod` 146097) in *.
  pose proof (eraCheck_all doe Hdoe) as Hc. unfold eraCheck in Hc.
  repeat (apply andb_true_iff in Hc as [Hc ?]). simpl. lia.
Qed.

(** ** The rounding of the site's offset *)

(** What [offsetHours] computes, on offsets that do not overflow: a whole
    number of hours is kept, anything else has 30 added and is then
    truncated toward zero. *)
Lemma offsetHours_quot (site : Site) :
  int.min <= Site.TimezoneOffset site <= int.max - 30 →
  offsetHours site =
    if Site.TimezoneOffset site `rem` 60 =? 0
    then Site.TimezoneOffset site `quot` 60
    else (Site.TimezoneOffset site + 30) `quot` 60.
Proof.
  unfold offsetHours, int.rem, int.add, int.div, int.min, int.max.
  intros Hm. destruct (_ =? 0) eqn:Hrem.
  - apply wrap_id. unfold int.InRange, int.min, int.max.
    Z.to_euclidean_division_equations; lia.
  - rewrite (wrap_id (_ + 30)) by (unfold int.InRange, int.min, int.max; lia).
    apply wrap_id. unfold int.InRange, int.min, int.max.
    Z.to_euclidean_division_equations; lia.
Qed.

(** C7, as amended: the shift is the offset rounded to the nearest hour with
    halves rounding up exactly when the offset is at least -30 minutes or a
    multiple of 30 minutes; on the other (negative) offsets the truncation
    toward zero makes it one hour more. *)
Theorem offsetHours_rounds (site : Site) :
  int.min <= Site.TimezoneOffset site <= int.max - 30 →
  offsetHours site =
    if decide (-30 <= Site.TimezoneOffset site
               ∨ Site.TimezoneOffset site `mod` 30 = 0)
    then roundHalfUp (Site.TimezoneOffset site)
    else roundHalfUp (Site.TimezoneOffset site) + 1.
Proof.
  intros Hm. rewrite offsetHours_quot by done. unfold roundHalfUp.
  set (m := Site.TimezoneOffset site) in *. clearbody m.
  destruct (m `rem` 60 =? 0) eqn:Hrem; case_decide as Hc.
  - apply Z.eqb_eq in Hrem. Z.to_euclidean_division_equations; lia.
  - apply Z.eqb_eq in Hrem. exfalso. apply Hc. right.
    Z.to_euclidean_division_equations; lia.
  - apply Z.eqb_neq in Hrem. Z.to_euclidean_division_equations; lia.
  - apply Z.eqb_neq in Hrem. Z.to_euclidean_division_equations; lia.
Qed.

Lemma offsetHours_rounds_witness :
  offsetHours (siteWithOffset 345) = roundHalfUp 345
  ∧ offsetHours (siteWithOffset (-210)) = roundHalfUp (-210)
  ∧ offsetHours (siteWithOffset (-40)) = roundHalfUp (-40) + 1.
Proof.
  split; [|split].
  - apply (offsetHours_rounds (siteWithOffset 345)). vm_compute. split; discriminate.
  - apply (offsetHours_rounds (siteWithOffset (-210))). vm_compute. split; discriminate.
  - apply (offsetHours_rounds (siteWithOffset (-40))). vm_compute. split; discriminate.
Defined.

(** C7 as stated fails: an offset of -45 minutes is nearest to -1 hour, and
    the computed shift is 0. *)
Lemma offsetHours_rounds_counterexample :
  offsetHours (siteWithOffset (-45)) = 0
  ∧ roundHalfUp (-45) = -1
  ∧ ¬ (∀ site : Site,
         offsetHours site = roundHalfUp (Site.TimezoneOffset site)).
Proof.
  split; [reflexivity|split; [reflexivity|]].
  intros H. specialize (H (siteWithOffset (-45))). vm_compute in H. discriminate.
Qed.

(** ** The reindex driver *)

Section ReindexFacts.
Context {Rest : Type}.
Variables updateHitCounts updateRefCounts updateHitStats updateBrowserStats
  updateSystemStats updateSizeStats : @aggregator Rest.
Variable Site_ByID : Z → @DB Rest → error + Site.
Variable Site_UpdateReceivedData : Site → @DB Rest → option error * @DB Rest.
Variable StateActive : string.

Let Reindex := ReindexStats updateHitCounts updateRefCounts updateHitStats
  updateBrowserStats updateSystemStats updateSizeStats Site_ByID
  Site_UpdateReceivedData StateActive.

(** C9: on a site that is not active, and on an empty hit set, [ReindexStats]
    returns nil, invokes no aggregator and leaves every table as it was,
    whatever tables are named. *)
Theorem ReindexStats_noop (site : Site) (hits : list Hit)
    (tables : list string) (w : World) :
  Site.State site ≠ StateActive ∨ hits = [] →
  Reindex site hits tables w = (None, w).
Proof.
  intros Hcase. unfold Reindex, ReindexStats.
  destruct (String.eqb (Site.State site) StateActive) eqn:Hstate; simpl.
  - apply String.eqb_eq in Hstate.
    destruct Hcase as [Hne | ->]; [by destruct Hne|].
    by rewrite decide_True.
  - done.
Qed.
End ReindexFacts.

Lemma ReindexStats_noop_witness :
  let w := mkWorld (mkDB [] ()) [] in
  ReindexStats idleAggregator idleAggregator idleAggregator idleAggregator
    idleAggregator idleAggregator (λ _ _, inl "no site") (λ _ d, (None, d)) "a"
    (Site.mk 1 "d" true 0) [] ["all"; "hit_counts"] w = (None, w).
Proof.
  intros w.
  apply (ReindexStats_noop idleAggregator idleAggregator idleAggregator
           idleAggregator idleAggregator idleAggregator (λ _ _, inl "no site")
           (λ _ d, (None, d)) "a" (Site.mk 1 "d" true 0) [] ["all"; "hit_counts"] w).
  left. discriminate.
Defined.

(** ** The timezone shift *)

Lemma mapM_fmap_Some {A B} (f : A → option B) (g : A → B) (l : list A) :
  Forall (λ x, f x = Some (g x)) l → mapM f l = Some (g <$> l).
Proof.
  induction 1 as [|x l Hx _ IH]; [done|].
  simpl. rewrite Hx. simpl. by rewrite IH.
Qed.

Lemma neighbours_cons {A B} (f : A → A → B) (a b : A) (l : list A) :
  neighbours f (a :: b :: l) = f a b :: neighbours f (b :: l).
Proof. done. Qed.

Lemma setHourly_id (s : Stat) :
  Stat.setHourly s (Stat.Hourly s) (Stat.HourlyUnique s) = s.
Proof. by destruct s. Qed.

Lemma shiftRight_length (n : nat) (prev cur : list Z) :
  (n ≤ 24)%nat → length prev = 24%nat → length cur = 24%nat →
  length (shiftRight n prev cur) = 24%nat.
Proof.
  intros. unfold shiftRight. rewrite length_app, length_drop, length_take. lia.
Qed.

Lemma shiftLeft_length (n : nat) (cur next : list Z) :
  (n ≤ 24)%nat → length cur = 24%nat → length next = 24%nat →
  length (shiftLeft n cur next) = 24%nat.
Proof.
  intros. unfold shiftLeft. rewrite length_app, length_drop, length_take. lia.
Qed.

(** Shifting right and then left, or left and then right, restores the
    middle one of three days. *)
Lemma shiftLeft_shiftRight (n : nat) (a b c : list Z) :
  (n ≤ 24)%nat → length a = 24%nat → length b = 24%nat →
  shiftLeft n (shiftRight n a b) (shiftRight n b c) = b.
Proof.
  intros Hn Ha Hb. unfold shiftLeft, shiftRight.
  rewrite drop_app_length' by (rewrite length_drop; lia).
  rewrite take_app_length' by (rewrite length_drop; lia).
  apply take_drop.
Qed.

Lemma shiftRight_shiftLeft (n : nat) (a b c : list Z) :
  (n ≤ 24)%nat → length a = 24%nat → length b = 24%nat →
  shiftRight n (shiftLeft n a b) (shiftLeft n b c) = b.
Proof.
  intros Hn Ha Hb. unfold shiftLeft, shiftRight.
  rewrite drop_app_length' by (rewrite length_drop; lia).
  rewrite take_app_length' by (rewrite length_drop; lia).
  apply take_drop.
Qed.

(** One iteration of the loop of the positive case, when [popped] holds
    [offset] entries: the slice index [o] is the length of the day's array. *)
Lemma applyOffsetPos_cons (n : nat) (popped poppedUnique : list Z) (s : Stat)
    (rest : list Stat) :
  length popped = n →
  (length (Stat.Hourly s) ≤ length poppedUnique + length (Stat.HourlyUnique s))%nat →
  applyOffsetPos (Z.of_nat n) popped poppedUnique (s :: rest)
  = rest' ← applyOffsetPos (Z.of_nat n)
              (drop (length (Stat.Hourly s)) (popped ++ Stat.Hourly s))
              (drop (length (Stat.Hourly s)) (poppedUnique ++ Stat.HourlyUnique s))
              rest;
    Some (Stat.setHourly s
            (take (length (Stat.Hourly s)) (popped ++ Stat.Hourly s))
            (take (length (Stat.Hourly s)) (poppedUnique ++ Stat.HourlyUnique s))
          :: rest').
Proof.
  intros Hp Hu. simpl. rewrite !length_app, Hp.
  replace (Z.of_nat (n + length (Stat.Hourly s)) - Z.of_nat n)
    with (Z.of_nat (length (Stat.Hourly s))) by lia.
  rewrite Nat2Z.id.
  rewrite (proj2 (Z.ltb_ge _ 0)) by lia.
  rewrite (proj2 (Z.ltb_ge (Z.of_nat (n + _)) _)) by lia.
  rewrite (proj2 (Z.ltb_ge (Z.of_nat (length poppedUnique + _)) _)) by lia.
  done.
Qed.

(** The loop of the positive case on well-formed days: every day receives
    what was popped off the day before. *)
Lemma applyOffsetPos_day24 (n : nat) (stats : list Stat) (prev : Stat) :
  (n ≤ 24)%nat → day24 prev → Forall day24 stats →
  applyOffsetPos (Z.of_nat n) (drop (24 - n) (Stat.Hourly prev))
    (drop (24 - n) (Stat.HourlyUnique prev)) stats
  = Some (neighbours (dayShiftedRight n) (prev :: stats)).
Proof.
  intros Hn Hprev Hstats. revert prev Hprev.
  induction Hstats as [|s rest [Hs Hsu] _ IH]; intros prev [Hp Hpu]; [done|].
  rewrite neighbours_cons.
  rewrite applyOffsetPos_cons by (rewrite ?length_drop; lia).
  rewrite Hs.
  assert (∀ p c : list Z, length p = 24%nat → length c = 24%nat →
            take 24 (drop (24 - n) p ++ c) = shiftRight n p c
            ∧ drop 24 (drop (24 - n) p ++ c) = drop (24 - n) c) as Hcut.
  { intros p c Hlp Hlc. unfold shiftRight. split.
    - rewrite take_app, length_drop, Hlp.
      rewrite take_ge by (rewrite length_drop; lia).
      do 2 f_equal. lia.
    - rewrite drop_app, length_drop, Hlp.
      rewrite drop_ge by (rewrite length_drop; lia).
      simpl. f_equal. lia. }
  destruct (Hcut _ _ Hp Hs) as [-> ->].
  destruct (Hcut _ _ Hpu Hsu) as [-> ->].
  rewrite (IH s) by done. done.
Qed.

(** The loop of the negative case on well-formed days: what is popped off a
    day is its first [n] hours, and every day receives the first hours of
    the day after, the last one those of an all-zero day. *)
Lemma applyOffsetNeg_day24 (n : nat) (stats : list Stat) :
  (n ≤ 24)%nat → Forall day24 stats →
  applyOffsetNeg n stats
  = (zip_with (dayShiftedLeft n) stats (tail stats ++ [blankStat ""]),
     (take n (Stat.Hourly (hd (blankStat "") stats)),
      take n (Stat.HourlyUnique (hd (blankStat "") stats)))).
Proof.
  intros Hn. induction 1 as [|s rest [Hs Hsu] Hrest IH].
  - simpl. unfold allDays. rewrite take_replicate. do 3 f_equal; lia.
  - cbn [applyOffsetNeg]. rewrite IH. cbn [hd tail].
    assert (∀ c p : list Z, length c = 24%nat →
              drop n (c ++ take n p) = shiftLeft n c p
              ∧ take n (c ++ take n p) = take n c) as Hcut.
    { intros c p Hc. unfold shiftLeft. split.
      - rewrite drop_app, Hc. f_equal.
        replace (n - 24)%nat with 0%nat by lia. done.
      - rewrite take_app, Hc.
        replace (n - 24)%nat with 0%nat by lia. simpl. by rewrite app_nil_r. }
    destruct rest as [|s' rest'].
    + simpl.
      destruct (Hcut (Stat.Hourly s) allDays Hs) as [-> ->].
      destruct (Hcut (Stat.HourlyUnique s) allDays Hsu) as [-> ->]. done.
    + cbn [hd tail app zip_with].
      destruct (Hcut (Stat.Hourly s) (Stat.Hourly s') Hs) as [-> ->].
      destruct (Hcut (Stat.HourlyUnique s) (Stat.HourlyUnique s') Hsu) as [-> ->].
      done.
Qed.

Lemma removelast_zip_with_snoc {A B} (f : A → A → B) (l : list A) (z : A) :
  l ≠ [] →
  removelast (zip_with f l (tail l ++ [z])) = neighbours f l.
Proof.
  destruct l as [|a l]; [done|]. intros _. revert a.
  induction l as [|b l IH]; intros a; [done|].
  rewrite neighbours_cons. cbn [tail app zip_with] in *.
  specialize (IH b). destruct l; [done|].
  cbn [zip_with app] in *. cbn [removelast]. f_equal. apply IH.
Qed.

(** The two examples in the comment above [applyOffset]: UTC+2 and UTC-2. *)
Example applyOffset_utc_plus_2 :
  applyOffset [samplePath sampleDays] (siteWithOffset 120)
  = Some [samplePath
      [sampleDay "2019-12-06"
         [1; 0; 0; 0; 0; 0; 0; 0; 0; 0; 0; 0; 0; 4; 7; 0; 0; 0; 0; 0; 0; 0; 0; 0]
         [1; 0; 0; 0; 0; 0; 0; 0; 0; 0; 0; 0; 0; 4; 7; 0; 0; 0; 0; 0; 0; 0; 0; 0];
       sampleDay "2019-12-07"
         [1; 0; 0; 0; 0; 0; 0; 0; 0; 0; 0; 0; 0; 0; 0; 0; 0; 0; 0; 0; 0; 0; 0; 0]
         [1; 0; 0; 0; 0; 0; 0; 0; 0; 0; 0; 0; 0; 0; 0; 0; 0; 0; 0; 0; 0; 0; 0; 0]]].
Proof. reflexivity. Qed.

Example applyOffset_utc_minus_2 :
  applyOffset [samplePath sampleDays] (siteWithOffset (-120))
  = Some [samplePath
      [sampleDay "2019-12-05"
         [0; 0; 0; 0; 0; 0; 0; 0; 0; 4; 7; 0; 0; 0; 0; 0; 0; 0; 0; 0; 1; 0; 0; 0]
         [0; 0; 0; 0; 0; 0; 0; 0; 0; 4; 7; 0; 0; 0; 0; 0; 0; 0; 0; 0; 1; 0; 0; 0];
       sampleDay "2019-12-06"
         [0; 0; 0; 0; 0; 0; 0; 0; 0; 4; 7; 0; 0; 0; 0; 0; 0; 0; 0; 0; 1; 0; 0; 0]
         [0; 0; 0; 0; 0; 0; 0; 0; 0; 4; 7; 0; 0; 0; 0; 0; 0; 0; 0; 0; 1; 0; 0; 0]]].
Proof. reflexivity. Qed.

(** "Offsets that are not whole hours (e.g. 6:30) are treated like 7:00." *)
Example offsetHours_half_hour : offsetHours (siteWithOffset 390) = 7.
Proof. reflexivity. Qed.

Lemma applyOffset_nil (site : Site) : applyOffset [] site = Some [].
Proof. done. Qed.

Lemma applyOffset_zero (hh : HitStats) (site : Site) :
  offsetHours site = 0 → applyOffset hh site = Some hh.
Proof.
  intros Hn. unfold applyOffset. rewrite Hn. simpl. by case_decide.
Qed.

Lemma applyOffset_pos (hh : HitStats) (site : Site) :
  0 < offsetHours site <= 24 → Forall wellFormedDays hh →
  applyOffset hh site
  = Some ((λ h, HitStat.setStats h
             (neighbours (dayShiftedRight (Z.to_nat (offsetHours site)))
                (HitStat.Stats h))) <$> hh).
Proof.
  intros Hn Hhh. unfold applyOffset.
  case_decide as Hlen; [by destruct hh|].
  rewrite (proj2 (Z.ltb_lt 0 _)) by lia.
  apply mapM_fmap_Some. eapply Forall_impl; [exact Hhh|].
  intros h [Hne Hdays]. simpl.
  destruct (HitStat.Stats h) as [|s0 rest] eqn:Hst; [done|].
  apply Forall_cons in Hdays as [[Hs0 Hs0u] Hrest].
  set (n := Z.to_nat (offsetHours site)).
  replace (offsetHours site) with (Z.of_nat n) by lia.
  rewrite applyOffsetPos_cons by (rewrite ?length_replicate; lia).
  rewrite Hs0.
  assert (∀ c : list Z, length c = 24%nat →
            drop 24 (replicate n 0 ++ c) = drop (24 - n) c) as Hcut.
  { intros c Hc. rewrite drop_app, length_replicate.
    rewrite drop_ge by (rewrite length_replicate; lia). done. }
  rewrite !Hcut by done.
  rewrite (applyOffsetPos_day24 n rest s0) by (done || lia).
  simpl. done.
Qed.

Lemma applyOffset_neg (hh : HitStats) (site : Site) :
  -24 <= offsetHours site < 0 → Forall wellFormedDays hh →
  applyOffset hh site
  = Some ((λ h, HitStat.setStats h
             (neighbours (dayShiftedLeft (Z.to_nat (- offsetHours site)))
                (HitStat.Stats h))) <$> hh).
Proof.
  intros Hn Hhh. unfold applyOffset.
  case_decide as Hlen; [by destruct hh|].
  rewrite (proj2 (Z.ltb_ge 0 _)) by lia.
  rewrite (proj2 (Z.ltb_lt _ 0)) by lia.
  unfold int.neg. rewrite wrap_id by (unfold int.InRange, int.min, int.max; lia).
  apply mapM_fmap_Some. eapply Forall_impl; [exact Hhh|].
  intros h [Hne Hdays]. simpl.
  rewrite applyOffsetNeg_day24 by (done || lia). simpl.
  unfold sliceToLast.
  destruct (zip_with _ _ _) eqn:Hz.
  { destruct (HitStat.Stats h) as [|s0 [|s1 rest]]; done. }
  rewrite <- Hz. rewrite removelast_zip_with_snoc by done. done.
Qed.



Lemma dayShiftedRight_day24 (n : nat) (a b : Stat) :
  (n ≤ 24)%nat → day24 a → day24 b → day24 (dayShiftedRight n a b).
Proof.
  intros Hn [??] [??]. split; simpl; by apply shiftRight_length.
Qed.

Lemma dayShiftedLeft_day24 (n : nat) (a b : Stat) :
  (n ≤ 24)%nat → day24 a → day24 b → day24 (dayShiftedLeft n a b).
Proof.
  intros Hn [??] [??]. split; simpl; by apply shiftLeft_length.
Qed.

Lemma neighbours_length {A B} (f : A → A → B) (l : list A) :
  length (neighbours f l) = pred (length l).
Proof.
  unfold neighbours. rewrite length_zip_with.
  destruct l; cbn [tail length Nat.pred]; lia.
Qed.

Lemma neighbours_Forall {A B} (P : A → Prop) (Q : B → Prop) (f : A → A → B)
    (l : list A) :
  (∀ a b, P a → P b → Q (f a b)) → Forall P l → Forall Q (neighbours f l).
Proof.
  intros Hf. destruct 1 as [|a l Ha Hl]; [constructor|].
  revert a Ha. induction Hl as [|b l Hb _ IH]; intros a Ha; [constructor|].
  rewrite neighbours_cons. constructor; auto.
Qed.

Lemma dayShiftedLeft_Right (n : nat) (a b c : Stat) :
  (n ≤ 24)%nat → day24 a → day24 b →
  dayShiftedLeft n (dayShiftedRight n a b) (dayShiftedRight n b c) = b.
Proof.
  intros Hn [Ha Hau] [Hb Hbu]. unfold dayShiftedLeft. simpl.
  rewrite !shiftLeft_shiftRight by done. by destruct b.
Qed.

Lemma dayShiftedRight_Left (n : nat) (a b c : Stat) :
  (n ≤ 24)%nat → day24 a → day24 b →
  dayShiftedRight n (dayShiftedLeft n a b) (dayShiftedLeft n b c) = b.
Proof.
  intros Hn [Ha Hau] [Hb Hbu]. unfold dayShiftedRight. simpl.
  rewrite !shiftRight_shiftLeft by done. by destruct b.
Qed.

(** Two passes over neighbouring days, the second undoing the first on
    every middle day, leave the list without its two ends. *)
Lemma neighbours_inverse {A} (P : A → Prop) (f g : A → A → A) (l : list A) :
  (∀ a b c, P a → P b → g (f a b) (f b c) = b) →
  Forall P l →
  neighbours g (neighbours f l) = removelast (tail l).
Proof.
  intros Hgf. destruct 1 as [|a l Ha Hl]; [done|].
  revert a Ha. induction Hl as [|b l Hb Hl IH]; intros a Ha; [done|].
  rewrite neighbours_cons. specialize (IH b Hb).
  destruct l as [|c l]; [done|].
  rewrite neighbours_cons in *. rewrite neighbours_cons.
  rewrite Hgf by done. rewrite IH. done.
Qed.

(** C6: shifting by [O] hours and then by [-O] hours, for [|O| <= 12],
    gives back every day that is left after the two shifts — all but the
    first and the last one — with exactly its original arrays. *)
Theorem applyOffset_round_trip (hh : HitStats) (site1 site2 : Site) (O : Z) :
  -12 <= O <= 12 →
  offsetHours site1 = O →
  offsetHours site2 = - O →
  Forall twoDays24 hh →
  applyOffset hh site1 ≫= (λ hh1, applyOffset hh1 site2)
  = Some (if decide (O = 0) then hh else middleDays <$> hh).
Proof.
  intros HO H1 H2 Hhh.
  assert (Forall wellFormedDays hh) as Hwf.
  { eapply Forall_impl; [exact Hhh|]. intros h [Hlen Hd]. split; [|done].
    intros Hnil. rewrite Hnil in Hlen. simpl in Hlen. lia. }
  case_decide as HO0.
  { subst O. rewrite applyOffset_zero by done. simpl.
    apply applyOffset_zero. lia. }
  destruct (decide (0 < O)) as [Hpos|Hnpos].
  - rewrite applyOffset_pos by (done || lia). simpl.
    rewrite applyOffset_neg; [|lia|].
    + rewrite <- list_fmap_compose. f_equal. apply Forall_fmap_ext.
      eapply Forall_impl; [exact Hhh|]. intros h [Hlen Hd].
      unfold middleDays. simpl. f_equal. rewrite H1, H2, Z.opp_involutive.
      apply (neighbours_inverse day24); [|done].
      intros a b c Ha Hb. apply dayShiftedLeft_Right; [lia|done..].
    + apply Forall_fmap. eapply Forall_impl; [exact Hhh|].
      intros h [Hlen Hd]. split; simpl.
      * intros Hnil. apply (f_equal length) in Hnil.
        rewrite neighbours_length in Hnil. simpl in Hnil. lia.
      * apply (neighbours_Forall day24); [|done].
        intros a b Ha Hb. apply dayShiftedRight_day24; [lia|done..].
  - rewrite applyOffset_neg by (done || lia). simpl.
    rewrite applyOffset_pos; [|lia|].
    + rewrite <- list_fmap_compose. f_equal. apply Forall_fmap_ext.
      eapply Forall_impl; [exact Hhh|]. intros h [Hlen Hd].
      unfold middleDays. simpl. f_equal. rewrite H1, H2.
      apply (neighbours_inverse day24); [|done].
      intros a b c Ha Hb. apply dayShiftedRight_Left; [lia|done..].
    + apply Forall_fmap. eapply Forall_impl; [exact Hhh|].
      intros h [Hlen Hd]. split; simpl.
      * intros Hnil. apply (f_equal length) in Hnil.
        rewrite neighbours_length in Hnil. simpl in Hnil. lia.
      * apply (neighbours_Forall day24); [|done].
        intros a b Ha Hb. apply dayShiftedLeft_day24; [lia|done..].
Qed.

Lemma applyOffset_round_trip_witness :
  applyOffset [samplePath sampleDays] (siteWithOffset 120)
    ≫= (λ hh1, applyOffset hh1 (siteWithOffset (-120)))
  = Some [samplePath [sampleDay "2019-12-06" sampleHours sampleHours]].
Proof.
  apply (applyOffset_round_trip [samplePath sampleDays] (siteWithOffset 120)
           (siteWithOffset (-120)) 2).
  - lia.
  - reflexivity.
  - reflexivity.
  - repeat constructor.
Defined.

Lemma string_app_assoc (a b c : string) : (a +:+ b) +:+ c = a +:+ b +:+ c.
Proof.
  induction a as [|x a IH]; [done|].
  change (String x ((a +:+ b) +:+ c) = String x (a +:+ b +:+ c)). by rewrite IH.
Qed.

(** Distinct days print differently. *)
Lemma formatDate_inj (d1 d2 : Z) :
  time.formatDate d1 = time.formatDate d2 → d1 = d2.
Proof.
  unfold time.formatDate. intros Heq.
  pose proof (civil_month_day d1) as [Hm1 Hd1].
  pose proof (civil_month_day d2) as [Hm2 Hd2].
  rewrite <- (civil_inverse d1), <- (civil_inverse d2).
  destruct (time.civil d1) as [[y1 m1] dd1], (time.civil d2) as [[y2 m2] dd2].
  simpl in *.
  rewrite <- !(string_app_assoc _ "-" (_ +:+ _)) in Heq.
  rewrite <- !(string_app_assoc _ (time.appendInt _ 2) (_ +:+ _)) in Heq.
  rewrite <- !(string_app_assoc _ "-" (time.appendInt _ 2)) in Heq.
  apply string_app_inj_length_r in Heq as [Heq Hdd].
  2:{ rewrite !appendInt_length_2 by lia. done. }
  apply string_app_inj_length_r in Heq as [Heq _]; [|done].
  apply string_app_inj_length_r in Heq as [Heq Hm].
  2:{ rewrite !appendInt_length_2 by lia. done. }
  apply string_app_inj_length_r in Heq as [Hy _]; [|done].
  apply appendInt_inj in Hy, Hm, Hdd. by subst.
Qed.

Lemma Format_eq (t u : time.Time) :
  time.Format t = time.Format u ↔ time.dayOf t = time.dayOf u.
Proof.
  unfold time.Format. split; [apply formatDate_inj|by intros ->].
Qed.

Lemma dayOf_next (t : time.Time) :
  time.dayOf (time.Add t (24 * time.Hour)) = time.dayOf t + 1.
Proof.
  unfold time.dayOf, time.Add.
  replace (t + 24 * time.Hour) with (t + 1 * (24 * time.Hour)) by lia.
  rewrite Z.div_add; done.
Qed.

Lemma dayOf_mono (t u : time.Time) : t <= u → time.dayOf t <= time.dayOf u.
Proof. intros. unfold time.dayOf. by apply Z.div_le_mono. Qed.

(** ** Blank days *)



Lemma dayEntry_nil (d : Z) : dayEntry [] d = blankStat (time.formatDate d).
Proof. done. Qed.

Lemma filter_none {A} (P : A → Prop) `{∀ x, Decision (P x)} (l : list A) :
  Forall (λ x, ¬ P x) l → filter P l = [].
Proof.
  induction 1 as [|x l Hx _ IH]; [done|]. by rewrite filter_cons_False.
Qed.








(** ** Empty and one-day ranges *)




Lemma applyOffsetPos_balanced (n : nat) (stats : list Stat) :
  ∀ popped poppedUnique : list Z,
  length popped = n → length poppedUnique = n → Forall balanced stats →
  ∃ out, applyOffsetPos (Z.of_nat n) popped poppedUnique stats = Some out
         ∧ length out = length stats.
Proof.
  induction stats as [|s rest IH]; intros popped poppedUnique Hp Hu Hb.
  { by exists []. }
  apply Forall_cons in Hb as [Hs Hrest]. unfold balanced in Hs.
  rewrite applyOffsetPos_cons by lia.
  destruct (IH (drop (length (Stat.Hourly s)) (popped ++ Stat.Hourly s))
               (drop (length (Stat.Hourly s))
                  (poppedUnique ++ Stat.HourlyUnique s)))
    as (out & -> & Hlen); [..|done|].
  - rewrite length_drop, length_app. lia.
  - rewrite length_drop, length_app. lia.
  - eexists. split; [done|]. simpl. by rewrite Hlen.
Qed.

Lemma applyOffsetNeg_length (n : nat) (stats : list Stat) :
  length (applyOffsetNeg n stats).1 = length stats.
Proof.
  induction stats as [|s rest IH]; [done|]. cbn [applyOffsetNeg].
  destruct (applyOffsetNeg n rest) as [rest' [popped poppedUnique]].
  simpl in *. by rewrite IH.
Qed.

Lemma mapM_is_Some_Forall {A B} (f : A → option B) (l : list A) :
  Forall (λ x, is_Some (f x)) l → is_Some (mapM f l).
Proof.
  induction 1 as [|x l [y Hy] _ [k Hk]]; [by eexists|].
  simpl. rewrite Hy. simpl. rewrite Hk. by eexists.
Qed.

Lemma applyOffset_returns (hh : HitStats) (site : Site) :
  hh = [] ∨ offsetHours site = 0 ∨ Forall daysToShift hh →
  is_Some (applyOffset hh site).
Proof.
  intros [->|[Hzero|Hhh]];
    [by eexists|rewrite applyOffset_zero by done; by eexists|].
  unfold applyOffset. case_decide; [by eexists|].
  destruct (0 <? offsetHours site) eqn:Hpos;
    [|destruct (offsetHours site <? 0) eqn:Hneg; [|by eexists]].
  - apply Z.ltb_lt in Hpos. apply mapM_is_Some_Forall.
    eapply Forall_impl; [exact Hhh|]. intros h [Hne Hb]. simpl.
    replace (offsetHours site) with (Z.of_nat (Z.to_nat (offsetHours site)))
      at 1 by lia.
    destruct (applyOffsetPos_balanced (Z.to_nat (offsetHours site))
                (HitStat.Stats h) (replicate (Z.to_nat (offsetHours site)) 0)
                (replicate (Z.to_nat (offsetHours site)) 0))
      as (out & -> & Hlen); [by rewrite length_replicate..|done|].
    simpl. destruct out as [|s out]; [|by eexists].
    destruct (HitStat.Stats h); done.
  - apply mapM_is_Some_Forall.
    eapply Forall_impl; [exact Hhh|]. intros h [Hne Hb]. simpl.
    pose proof (applyOffsetNeg_length (Z.to_nat (int.neg (offsetHours site)))
                  (HitStat.Stats h)) as Hlen.
    destruct (applyOffsetNeg _ _).1 as [|s out]; [|by eexists].
    destruct (HitStat.Stats h); done.
Qed.




(** ** Totals and the maximum *)

Lemma mapM_Some_Forall {A B} (P : A → Prop) (Q : B → Prop) (f : A → option B)
    (l : list A) (k : list B) :
  (∀ x y, f x = Some y → P x → Q y) →
  mapM f l = Some k → Forall P l → Forall Q k.
Proof.
  intros Hf Hmap%mapM_Some. induction Hmap as [|x y l k Hxy _ IH]; [done|].
  intros [Hx Hl]%Forall_cons. constructor; eauto.
Qed.

Lemma addHours_max (daily : bool) (hourly unique : list Z) :
  ∀ d du mx d' du' mx',
  addHours daily hourly unique (d, du, mx) = Some (d', du', mx') →
  mx' = if daily then mx else maxOf hourly mx.
Proof.
  revert unique. induction hourly as [|x hourly IH]; intros unique d du mx d' du' mx'.
  { simpl. intros [= _ _ <-]. by destruct daily. }
  destruct unique as [|u unique]; [done|]. simpl. intros Hadd.
  apply IH in Hadd. rewrite Hadd. by destruct daily.
Qed.

Lemma maxOf_app (l1 l2 : list Z) (mx : Z) :
  maxOf (l1 ++ l2) mx = maxOf l2 (maxOf l1 mx).
Proof. unfold maxOf. apply foldl_app. Qed.

Lemma addDays_max (daily : bool) (stats : list Stat) :
  ∀ c cu mx stats' c' cu' mx',
  addDays daily stats (c, cu, mx) = Some (stats', (c', cu', mx')) →
  Stat.Hourly <$> stats' = Stat.Hourly <$> stats
  ∧ mx' = if daily then maxOf (Stat.Daily <$> stats') mx
          else maxOf (concat (Stat.Hourly <$> stats)) mx.
Proof.
  induction stats as [|s rest IH]; intros c cu mx stats' c' cu' mx'.
  { simpl. intros [= <- _ _ <-]. by destruct daily. }
  simpl.
  destruct (addHours _ _ _ _) as [[[d du] mx1]|] eqn:Hhours; [|done]. simpl.
  apply addHours_max in Hhours.
  destruct (addDays _ _ _) as [[rest' [[c2 cu2] mx2]]|] eqn:Hrest; [|done].
  simpl. intros [= <- _ _ <-].
  apply IH in Hrest as [Hhourly ->]. split.
  { rewrite !fmap_cons. by f_equal. }
  rewrite !fmap_cons. destruct daily; cbn [concat andb negb Stat.Daily Stat.setDaily].
  - by rewrite Hhours.
  - rewrite maxOf_app. by rewrite Hhours.
Qed.

Lemma addPath_max (daily : bool) (h h' : HitStat) :
  addPath daily h = Some h' → HitStat.Max h = 0 →
  HitStat.Max h' = largestBucket daily h'.
Proof.
  unfold addPath. intros Hadd Hmax.
  destruct (addDays _ _ _) as [[stats' [[c' cu'] mx']]|] eqn:Hdays; [|done].
  simpl in Hadd. injection Hadd as <-.
  apply addDays_max in Hdays as [Hhourly ->].
  unfold largestBucket. simpl. rewrite Hmax, Hhourly. done.
Qed.

Lemma applyOffset_Max (hh hh' : HitStats) (site : Site) :
  applyOffset hh site = Some hh' →
  Forall (λ h, HitStat.Max h = 0) hh → Forall (λ h, HitStat.Max h = 0) hh'.
Proof.
  unfold applyOffset. case_decide; [by intros [= <-]|].
  destruct (0 <? _); [|destruct (_ <? 0); [|by intros [= <-]]].
  all: apply mapM_Some_Forall; intros h h' Hh Hmax.
  all: repeat (match type of Hh with
               | (?x ≫= _) = Some _ => destruct x; [|done]; simpl in Hh
               end).
  all: by injection Hh as <-.
Qed.

Lemma fillBlankDays_Max (fuel : nat) (hh hh' : HitStats)
    (start end_ : time.Time) :
  fillBlankDays fuel hh start end_ = Some hh' →
  Forall (λ h, HitStat.Max h = 0) hh → Forall (λ h, HitStat.Max h = 0) hh'.
Proof.
  unfold fillBlankDays. destruct (time.After _ _); [by intros [= <-]|].
  apply mapM_Some_Forall. intros h h' Hh Hmax.
  destruct (fillLoop _ _ _ _ _ _); [|done]. by injection Hh as <-.
Qed.

(** [TestHitStats]: what [HitStats.List] returns for the three stored hits,
    with the totals "3 1 false". *)
Example TestHitStats_List :
  HitStats_List 1 0 testPaths testRows (sampleNow - time.Hour)
    (sampleNow + time.Hour) (siteWithOffset 0) false
  = Some ([HitStat.mk 2 1 1 "/asd" false "aSd" None 2
             [Stat.mk "2019-08-31" (<[14%nat := 2]> allDays)
                (<[14%nat := 1]> allDays) 2 1];
           HitStat.mk 1 0 2 "/zxc" false "" None 1
             [Stat.mk "2019-08-31" (<[14%nat := 1]> allDays) allDays 1 0]],
          (3, 1, false)).
Proof. reflexivity. Qed.

(** C8, as amended: the floor of 10 is applied by [HitStat.Totals] to the
    maximum it returns; the [Max] that [HitStats.List] reports for a path is
    that path's largest bucket, without a floor. *)
Theorem max_floor (fuel : nat) (daily : bool) (start end_ : time.Time)
    (site : Site) :
  (∀ tc h mx,
     HitStat_Totals fuel tc start end_ site daily = Some (h, mx) → 10 <= mx)
  ∧ (∀ page paths st hh totals,
       Forall (λ h, HitStat.Max h = 0) paths →
       HitStats_List fuel page paths st start end_ site daily
       = Some (hh, totals) →
       Forall (λ h, HitStat.Max h = largestBucket daily h) hh).
Proof.
  split.
  - intros tc h mx. unfold HitStat_Totals.
    destruct (foldl totalsStep _ tc) as [stats [count countUnique]].
    destruct (fillBlankDays _ _ _ _) as [hh|]; [|done]. simpl.
    destruct (applyOffset _ _) as [[|h0 hh']|]; [done| |done]. simpl.
    destruct daily.
    + destruct (totalsDaily _ _) as [st mx']. intros [= _ <-].
      destruct (mx' <? 10) eqn:Hlt; [done|]. by apply Z.ltb_ge in Hlt.
    + intros [= _ <-].
      destruct (_ <? 10) eqn:Hlt; [done|]. by apply Z.ltb_ge in Hlt.
  - intros page paths st hh totals Hpaths. unfold HitStats_List.
    set (trimmed := if Z.of_nat (length paths) =? _ then _ else _).
    assert (Forall (λ h, HitStat.Max h = 0) trimmed.1) as Htrim.
    { unfold trimmed. destruct (_ =? _); simpl; [|done].
      rewrite Forall_forall in *. intros h Hh. apply Hpaths.
      destruct paths as [|p paths] using rev_ind; [done|].
      rewrite removelast_last in Hh. set_solver. }
    destruct trimmed as [hh0 more]. simpl in Htrim.
    destruct (fillBlankDays _ _ _ _) as [hh1|] eqn:Hfill; [|done]. simpl.
    destruct (applyOffset _ _) as [hh2|] eqn:Hoff; [|done]. simpl.
    destruct (addTotals _ _ _ _) as [[[hh3 t] tu]|] eqn:Htot; [|done]. simpl.
    intros [= <- _].
    apply fillBlankDays_Max in Hfill; [|by apply Forall_fmap].
    apply applyOffset_Max in Hoff; [|done].
    unfold addTotals in Htot.
    destruct (mapM _ _) as [hh'|] eqn:Hmap; [|done]. simpl in Htot.
    injection Htot as <- _ _.
    unfold sortByCountUnique. rewrite merge_sort_Permutation.
    eapply mapM_Some_Forall; [|exact Hmap|exact Hoff].
    intros h h'. apply addPath_max.
Qed.

Lemma max_floor_witness :
  10 <= 10
  ∧ Forall (λ h, HitStat.Max h = largestBucket false h)
      [HitStat.mk 2 1 1 "/asd" false "aSd" None 2
         [Stat.mk "2019-08-31" (<[14%nat := 2]> allDays)
            (<[14%nat := 1]> allDays) 2 1];
       HitStat.mk 1 0 2 "/zxc" false "" None 1
         [Stat.mk "2019-08-31" (<[14%nat := 1]> allDays) allDays 1 0]].
Proof.
  destruct (max_floor 1 false (sampleNow - time.Hour) (sampleNow + time.Hour)
              (siteWithOffset 0)) as [Htotals Hlist].
  split.
  - apply (Htotals [] (HitStat.mk 0 0 0 PathTotals false "" None 0
                         [blankStat "2019-08-31"]) 10). reflexivity.
  - apply (Hlist 0 testPaths testRows _ (3, 1, false)).
    + repeat constructor.
    + reflexivity.
Defined.

(** C8 as stated fails: on the data of [TestHitStats], [HitStats.List]
    succeeds and reports the maxima 2 and 1, as that test expects. *)
Lemma max_floor_counterexample :
  (λ r : HitStats * (Z * Z * bool), (HitStat.Max <$> r.1, r.2))
    <$> HitStats_List 1 0 testPaths testRows (sampleNow - time.Hour)
          (sampleNow + time.Hour) (siteWithOffset 0) false
  = Some ([2; 1], (3, 1, false)).
Proof. reflexivity. Qed.

(** ** Path normalisation *)


Lemma sliceFrom_None (s : string) (n : nat) :
  (String.length s < n)%nat → Strings.sliceFrom s n = None.
Proof.
  revert s. induction n as [|n IH]; intros s Hn; [lia|].
  destruct s as [|c s]; simpl in *; [done|]. apply IH. lia.
Qed.










(** ** The location rollup *)

Lemma existingLocationStats_none (tbl : list LocationStat) (siteID : Z)
    (day location : string) (pathID : Z) :
  (∀ r, r ∈ tbl → lsMatch siteID day location pathID r = false) →
  existingLocationStats tbl siteID day location pathID = (0, 0, tbl).
Proof.
  intros Hnone. unfold existingLocationStats.
  rewrite filter_none; [done|].
  apply Forall_forall. intros r Hr. rewrite (Hnone r Hr). done.
Qed.

Lemma locationStep_modes (n : Z) (grouped : gmap string gt.t)
    (tbl : list LocationStat) (h : Hit) :
  countsWithin n grouped → 0 <= n < int.max →
  (∀ r, r ∈ tbl →
     lsMatch (Hit.Site h) (time.Format (Hit.CreatedAt h)) (Hit.Location h)
       (Hit.PathID h) r = false) →
  locationStep false (grouped, tbl) h = locationStep true (grouped, tbl) h
  ∧ ∃ grouped', locationStep true (grouped, tbl) h = (grouped', tbl)
                ∧ countsWithin (n + 1) grouped'.
Proof.
  intros Hinv Hn Hnone. unfold locationStep.
  destruct (0 <? Hit.Bot h).
  { split; [done|]. exists grouped. split; [done|].
    intros k v Hv. specialize (Hinv k v Hv). lia. }
  destruct (grouped !! locationKey h) as [v|] eqn:Hlookup; simpl.
  - pose proof (Hinv _ _ Hlookup) as Hv.
    rewrite (proj2 (Z.eqb_neq _ 0)) by lia.
    split; [done|]. eexists. split; [done|].
    intros k' v'. rewrite lookup_insert. case_decide.
    + intros [= <-]. simpl. rewrite int_add_id; [lia|].
      unfold int.InRange, int.min, int.max in *. lia.
    + intros Hv'. specialize (Hinv _ _ Hv'). lia.
  - rewrite existingLocationStats_none by done.
    split; [done|]. eexists. split; [done|].
    intros k' v'. rewrite lookup_insert. case_decide.
    + intros [= <-]. simpl. unfold int.max in *. rewrite int_add_id; [lia|].
      unfold int.InRange, int.min, int.max. lia.
    + intros Hv'. specialize (Hinv _ _ Hv'). lia.
Qed.

Lemma locationLoop_modes (hits : list Hit) :
  ∀ (n : Z) (grouped : gmap string gt.t) (tbl : list LocationStat),
  countsWithin n grouped → 0 <= n →
  n + Z.of_nat (length hits) <= int.max →
  noStoredRows hits tbl →
  foldl (locationStep false) (grouped, tbl) hits
  = foldl (locationStep true) (grouped, tbl) hits.
Proof.
  induction hits as [|h hits IH]; intros n grouped tbl Hinv Hn Hmax Hnone;
    [done|].
  simpl in Hmax.
  destruct (locationStep_modes n grouped tbl h) as (Heq & grouped' & Hstep & Hinv');
    [done|lia|intros r Hr; apply Hnone; [left|done]|].
  cbn [foldl]. rewrite Heq, Hstep.
  apply (IH (n + 1)); [done|lia|lia|].
  intros h' r Hh' Hr. apply Hnone; [by right|done].
Qed.

(** C2: on a batch with no stored row for any of its keys, reindex mode and
    incremental mode leave the loop with the same map [grouped] and the
    same table, hence insert the same rows with the same counts. *)
Theorem updateLocationStats_reindex (site : Site) (hits : list Hit)
    (tbl : list LocationStat) :
  Z.of_nat (length hits) <= int.max →
  noStoredRows hits tbl →
  foldl (locationStep true) (∅, tbl) hits
  = foldl (locationStep false) (∅, tbl) hits
  ∧ updateLocationStats site hits true tbl
    = updateLocationStats site hits false tbl.
Proof.
  intros Hlen Hnone.
  assert (foldl (locationStep false) (∅, tbl) hits
          = foldl (locationStep true) (∅, tbl) hits) as Heq.
  { apply (locationLoop_modes hits 0); [|lia|lia|done].
    intros k v Hv. by rewrite lookup_empty in Hv. }
  split; [done|]. unfold updateLocationStats. by rewrite Heq.
Qed.

Lemma updateLocationStats_reindex_witness :
  updateLocationStats (siteWithOffset 0) sampleHits true []
  = updateLocationStats (siteWithOffset 0) sampleHits false [].
Proof.
  refine (proj2 (updateLocationStats_reindex (siteWithOffset 0) sampleHits [] _ _)).
  - vm_compute. discriminate.
  - intros h r _ Hr. by apply elem_of_nil in Hr.
Defined.

Lemma filter_all {A} (P : A → Prop) `{∀ x, Decision (P x)} (l : list A) :
  Forall P l → filter P l = l.
Proof.
  induction 1 as [|x l Hx _ IH]; [done|].
  rewrite filter_cons_True by done. by rewrite IH.
Qed.

Lemma filter_nil_Forall {A} (P : A → Prop) `{∀ x, Decision (P x)} (l : list A) :
  filter P l = [] → Forall (λ x, ¬ P x) l.
Proof.
  induction l as [|x l IH]; [constructor|].
  destruct (decide (P x)) as [Hx|Hx].
  - by rewrite filter_cons_True.
  - rewrite filter_cons_False by done. intros Hl. constructor; auto.
Qed.

Lemma lsMatch_spec (siteID : Z) (tr : string * string * Z) (r : LocationStat) :
  lsMatch siteID tr.1.1 tr.1.2 tr.2 r = true
  ↔ ls_site_id r = siteID ∧ rowTriple r = tr.
Proof.
  unfold lsMatch, rowTriple. destruct tr as [[d l] p]. simpl.
  rewrite !andb_true_iff, !Z.eqb_eq, !String.eqb_eq. split.
  - intros [[[-> ->] ->] ->]. done.
  - intros [-> [= -> -> ->]]. done.
Qed.

Lemma existingLocationStats_spec (tbl : list LocationStat) (siteID : Z)
    (tr : string * string * Z) :
  existingLocationStats tbl siteID tr.1.1 tr.1.2 tr.2
  = ((existingCounts siteID tbl tr).1, (existingCounts siteID tbl tr).2,
     filter (λ r, lsMatch siteID tr.1.1 tr.1.2 tr.2 r ≠ true) tbl).
Proof.
  unfold existingLocationStats, existingCounts.
  destruct (filter _ tbl) as [|r0 rest] eqn:Hmatch; [|done].
  simpl. f_equal. symmetry. apply filter_all.
  by apply filter_nil_Forall in Hmatch.
Qed.

Lemma locationKey_keyOf (h : Hit) : locationKey h = keyOf (hitTriple h).
Proof. done. Qed.

Lemma counted_snoc (p : list Hit) (h : Hit) :
  counted (p ++ [h]) = if 0 <? Hit.Bot h then counted p else counted p ++ [h].
Proof.
  unfold counted. rewrite filter_app.
  destruct (0 <? Hit.Bot h) eqn:Hbot.
  - apply Z.ltb_lt in Hbot. rewrite (filter_cons_False _ h) by lia.
    by rewrite app_nil_r.
  - apply Z.ltb_ge in Hbot. by rewrite (filter_cons_True _ h) by lia.
Qed.

Lemma elem_of_groups (hits : list Hit) (tr : string * string * Z) :
  tr ∈ groups hits ↔ ∃ h, h ∈ counted hits ∧ hitTriple h = tr.
Proof.
  unfold groups. rewrite elem_of_remove_dups, list_elem_of_fmap. split.
  - intros (h & -> & Hh). by exists h.
  - intros (h & Hh & <-). by exists h.
Qed.

Lemma existingCounts_bounds (siteID : Z) (tbl : list LocationStat) (n : Z)
    (tr : string * string * Z) :
  0 <= n <= int.max →
  (∀ r, r ∈ tbl → 0 <= ls_count r <= int.max - n
                  ∧ int.min <= ls_count_unique r <= int.max - n) →
  0 <= (existingCounts siteID tbl tr).1 <= int.max - n
  ∧ int.min <= (existingCounts siteID tbl tr).2 <= int.max - n.
Proof.
  intros Hn Htbl. unfold existingCounts.
  destruct (filter _ tbl) as [|r0 rest] eqn:Hmatch.
  - simpl. unfold int.min, int.max in *. lia.
  - simpl. apply Htbl.
    assert (r0 ∈ filter (λ r, lsMatch siteID tr.1.1 tr.1.2 tr.2 r = true) tbl)
      as Hin by (rewrite Hmatch; left).
    by apply list_elem_of_filter in Hin as [_ Hin].
Qed.

Lemma batchFor_prefix (siteID : Z) (tbl : list LocationStat) (p : list Hit)
    (h : Hit) :
  batchFor siteID tbl (p ++ [h]) → batchFor siteID tbl p.
Proof.
  intros (Hsite & Hkeys & Hlen & Htbl).
  assert (∀ x, x ∈ counted p → x ∈ counted (p ++ [h])) as Hsub.
  { intros x Hx. rewrite counted_snoc.
    destruct (0 <? _); [done|]. apply elem_of_app. by left. }
  rewrite length_app in *. simpl in *. split_and!.
  - intros x Hx. apply Hsite, Hsub, Hx.
  - intros h1 h2 H1 H2. apply Hkeys; by apply Hsub.
  - lia.
  - intros r Hr. specialize (Htbl r Hr). lia.
Qed.

Lemma hitsOf_snoc (p : list Hit) (h : Hit) (tr : string * string * Z) :
  hitsOf tr (p ++ [h])
  = hitsOf tr p
    ++ (if decide (Hit.Bot h <= 0 ∧ hitTriple h = tr) then [h] else []).
Proof.
  unfold hitsOf. rewrite counted_snoc.
  destruct (0 <? Hit.Bot h) eqn:Hbot.
  - apply Z.ltb_lt in Hbot. rewrite decide_False by lia. by rewrite app_nil_r.
  - apply Z.ltb_ge in Hbot. rewrite filter_app. f_equal.
    destruct (decide (hitTriple h = tr)) as [Htr|Htr].
    + rewrite decide_True by done. by rewrite filter_cons_True.
    + rewrite decide_False by tauto. by rewrite filter_cons_False.
Qed.

Lemma hitsOf_nil (p : list Hit) (tr : string * string * Z) :
  tr ∉ groups p → hitsOf tr p = [].
Proof.
  intros Hnot. unfold hitsOf. apply filter_none, Forall_forall.
  intros h Hh Htr. apply Hnot, elem_of_groups. by exists h.
Qed.

Lemma hitsOf_length (p : list Hit) (tr : string * string * Z) :
  (length (firstVisitsOf tr p) ≤ length (hitsOf tr p) ≤ length p)%nat
  ∧ (tr ∈ groups p → 1 ≤ length (hitsOf tr p))%nat.
Proof.
  split; [split|].
  - apply length_filter.
  - unfold hitsOf, counted. etrans; apply length_filter.
  - intros (h & Hh & Htr)%elem_of_groups.
    assert (h ∈ hitsOf tr p) as Hin by by apply list_elem_of_filter.
    destruct (hitsOf tr p); [by apply elem_of_nil in Hin|simpl; lia].
Qed.

Lemma groupEntry_snoc_other (siteID : Z) (tbl : list LocationStat)
    (p : list Hit) (h : Hit) (tr : string * string * Z) :
  tr ≠ hitTriple h →
  groupEntry siteID tbl (p ++ [h]) tr = groupEntry siteID tbl p tr.
Proof.
  intros Hne. unfold groupEntry, firstVisitsOf. rewrite hitsOf_snoc.
  rewrite decide_False by (intros [_ ?]; congruence). by rewrite app_nil_r.
Qed.

Lemma groupEntry_snoc_same (siteID : Z) (tbl : list LocationStat)
    (p : list Hit) (h : Hit) :
  (0 <? Hit.Bot h) = false → batchFor siteID tbl (p ++ [h]) →
  groupEntry siteID tbl (p ++ [h]) (hitTriple h)
  = gt.mk (int.add (gt.count (groupEntry siteID tbl p (hitTriple h))) 1)
      (if Hit.FirstVisit h
       then int.add (gt.countUnique (groupEntry siteID tbl p (hitTriple h))) 1
       else gt.countUnique (groupEntry siteID tbl p (hitTriple h)))
      (hitTriple h).1.1 (hitTriple h).1.2 (hitTriple h).2.
Proof.
  intros Hbot%Z.ltb_ge (_ & _ & Hlen & Htbl).
  rewrite length_app in *. simpl length in *.
  destruct (existingCounts_bounds siteID tbl (Z.of_nat (length p + 1))
              (hitTriple h)) as [Hc Hu]; [lia|done|].
  pose proof (hitsOf_length p (hitTriple h)) as [[Hfv Hhits] _].
  unfold groupEntry, firstVisitsOf. rewrite hitsOf_snoc.
  rewrite decide_True by done. rewrite filter_app, !length_app.
  cbn [gt.count gt.countUnique]. unfold firstVisitsOf in Hfv.
  f_equal.
  - rewrite int_add_id; [simpl; lia|].
    unfold int.InRange, int.min, int.max in *. lia.
  - destruct (Hit.FirstVisit h) eqn:Hfirst.
    + rewrite filter_cons_True by done.
      rewrite int_add_id; [simpl; lia|].
      unfold int.InRange, int.min, int.max in *. lia.
    + rewrite filter_cons_False by (rewrite Hfirst; done). simpl. lia.
Qed.

Lemma groups_snoc (p : list Hit) (h : Hit) (tr : string * string * Z) :
  (0 <? Hit.Bot h) = false →
  tr ∈ groups (p ++ [h]) ↔ tr ∈ groups p ∨ tr = hitTriple h.
Proof.
  intros Hbot. rewrite !elem_of_groups, counted_snoc, Hbot. split.
  - intros (x & [Hx|Hx%list_elem_of_singleton]%elem_of_app & Htr).
    + left. by exists x.
    + right. by subst.
  - intros [(x & Hx & Htr)| ->].
    + exists x. split; [|done]. apply elem_of_app. by left.
    + exists h. split; [|done]. apply elem_of_app. right. by left.
Qed.

Lemma groups_keys_distinct (hits : list Hit) (tr1 tr2 : string * string * Z) :
  keysDistinct hits → tr1 ∈ groups hits → tr2 ∈ groups hits →
  keyOf tr1 = keyOf tr2 → tr1 = tr2.
Proof.
  intros Hkeys (h1 & Hh1 & <-)%elem_of_groups (h2 & Hh2 & <-)%elem_of_groups.
  rewrite <- !locationKey_keyOf. by apply Hkeys.
Qed.

Lemma untouched_nil (siteID : Z) (tbl : list LocationStat) :
  untouched siteID [] tbl = tbl.
Proof.
  unfold untouched. apply filter_all, Forall_forall.
  intros r _ [_ Hr]. by apply elem_of_nil in Hr.
Qed.

(** One step of the loop in incremental mode, on a hit that is counted:
    for a group already in [grouped], and for a new one. *)
Lemma locationStep_known (grouped : gmap string gt.t)
    (tbl : list LocationStat) (h : Hit) (v : gt.t) :
  (0 <? Hit.Bot h) = false →
  grouped !! keyOf (hitTriple h) = Some v → gt.count v ≠ 0 →
  locationStep false (grouped, tbl) h
  = (<[keyOf (hitTriple h) :=
         gt.mk (int.add (gt.count v) 1)
           (if Hit.FirstVisit h then int.add (gt.countUnique v) 1
            else gt.countUnique v)
           (gt.day v) (gt.location v) (gt.pathID v)]> grouped, tbl).
Proof.
  intros Hbot Hv Hcount. unfold locationStep.
  rewrite Hbot, locationKey_keyOf, Hv. cbn [default].
  by rewrite (proj2 (Z.eqb_neq _ 0)).
Qed.

Lemma locationStep_new (grouped : gmap string gt.t) (tbl : list LocationStat)
    (h : Hit) :
  (0 <? Hit.Bot h) = false →
  grouped !! keyOf (hitTriple h) = None →
  locationStep false (grouped, tbl) h
  = (<[keyOf (hitTriple h) :=
         gt.mk (int.add (existingCounts (Hit.Site h) tbl (hitTriple h)).1 1)
           (if Hit.FirstVisit h
            then int.add (existingCounts (Hit.Site h) tbl (hitTriple h)).2 1
            else (existingCounts (Hit.Site h) tbl (hitTriple h)).2)
           (hitTriple h).1.1 (hitTriple h).1.2 (hitTriple h).2]> grouped,
     filter (λ r, lsMatch (Hit.Site h) (hitTriple h).1.1 (hitTriple h).1.2
                    (hitTriple h).2 r ≠ true) tbl).
Proof.
  intros Hbot Hnone. unfold locationStep.
  rewrite Hbot, locationKey_keyOf, Hnone.
  cbn [default gt.zero gt.count gt.countUnique gt.location gt.pathID gt.day].
  rewrite Z.eqb_refl.
  pose proof (existingLocationStats_spec tbl (Hit.Site h) (hitTriple h)) as Hex.
  cbn [hitTriple fst snd] in Hex. rewrite Hex. done.
Qed.

(** The state of the loop of [updateLocationStats] in incremental mode after
    the hits [p]: the rows of the groups seen so far are deleted, and
    [grouped] holds exactly one entry per group. *)
Lemma locationLoop_incremental (siteID : Z) (tbl : list LocationStat)
    (p : list Hit) :
  batchFor siteID tbl p →
  ∃ grouped,
    foldl (locationStep false) (∅, tbl) p = (grouped, untouched siteID p tbl)
    ∧ (∀ tr, tr ∈ groups p →
         grouped !! keyOf tr = Some (groupEntry siteID tbl p tr))
    ∧ (∀ k, (∀ tr, tr ∈ groups p → keyOf tr ≠ k) → grouped !! k = None).
Proof.
  induction p as [|h p IH] using rev_ind; intros Hbatch.
  { exists ∅. rewrite untouched_nil. split_and!; [done| |done].
    intros tr Htr. by apply elem_of_nil in Htr. }
  destruct (IH (batchFor_prefix _ _ _ _ Hbatch)) as (g & Hfold & Hsome & Hnone).
  rewrite foldl_app. cbn [foldl]. rewrite Hfold.
  destruct (0 <? Hit.Bot h) eqn:Hbot.
  { (* a bot: nothing changes *)
    assert (counted (p ++ [h]) = counted p) as Hc
      by (by rewrite counted_snoc, Hbot).
    exists g. unfold locationStep. rewrite Hbot.
    unfold untouched, groups, groupEntry, firstVisitsOf, hitsOf in *.
    rewrite Hc. done. }
  pose proof Hbatch as (Hsite & Hkeys & Hlen & Htbl).
  assert (Hit.Site h = siteID) as Hh.
  { apply Hsite. rewrite counted_snoc, Hbot. apply elem_of_app. right. by left. }
  assert (hitTriple h ∈ groups (p ++ [h])) as Hin_new
    by (apply groups_snoc; [done|by right]).
  (* the entry the loop stores is that of the group of [h] *)
  assert (locationStep false (g, untouched siteID p tbl) h
          = (<[keyOf (hitTriple h) :=
                 groupEntry siteID tbl (p ++ [h]) (hitTriple h)]> g,
             untouched siteID (p ++ [h]) tbl)) as ->.
  { rewrite (groupEntry_snoc_same siteID tbl p h Hbot Hbatch).
    destruct (decide (hitTriple h ∈ groups p)) as [Hin|Hnot].
    - (* the group is known: its entry is updated *)
      pose proof (hitsOf_length p (hitTriple h)) as [_ Hone].
      specialize (Hone Hin).
      destruct (existingCounts_bounds siteID tbl
                  (Z.of_nat (length (p ++ [h]))) (hitTriple h))
        as [Hc _]; [lia|done|].
      rewrite (locationStep_known _ _ _ _ Hbot (Hsome _ Hin))
        by (simpl; lia).
      f_equal.
      unfold untouched. apply list_filter_iff. intros r.
      rewrite (groups_snoc p h _ Hbot). split.
      + intros Hr [Hs [Hg|Htr]]; apply Hr; [done|].
        split; [done|]. by rewrite Htr.
      + intros Hr [Hs Hg]. apply Hr. split; [done|by left].
    - (* a new group: the stored row is read and deleted *)
      rewrite locationStep_new; [|done|].
      2:{ apply Hnone. intros tr Htr Hkey. apply Hnot.
          rewrite <- (groups_keys_distinct (p ++ [h]) tr (hitTriple h));
            [done..| |done|done].
          apply groups_snoc; [done|by left]. }
      rewrite Hh.
      assert (existingCounts siteID (untouched siteID p tbl) (hitTriple h)
              = existingCounts siteID tbl (hitTriple h)) as ->.
      { unfold existingCounts, untouched. rewrite list_filter_filter.
        rewrite (list_filter_iff _
                   (λ r, lsMatch siteID (hitTriple h).1.1 (hitTriple h).1.2
                           (hitTriple h).2 r = true)); [done|].
        intros r. rewrite lsMatch_spec. split; [tauto|].
        intros [Hs Htr]. split; [done|]. intros [_ Hg]. apply Hnot.
        by rewrite Htr in Hg. }
      f_equal.
      + unfold groupEntry. rewrite (hitsOf_nil p _ Hnot).
        unfold firstVisitsOf. rewrite (hitsOf_nil p _ Hnot).
        cbn [filter list_filter length gt.count gt.countUnique].
        by rewrite !Z.add_0_r.
      + unfold untouched. rewrite list_filter_filter.
        apply list_filter_iff. intros r.
        rewrite lsMatch_spec, (groups_snoc p h _ Hbot). split.
        * intros [Hm Hr] [Hs [Hg| Htr]]; [apply Hr|apply Hm]; done.
        * intros Hr. split.
          -- intros [Hs Htr]. apply Hr. split; [done|by right].
          -- intros [Hs Hg]. apply Hr. split; [done|by left]. }
  eexists. split_and!; [done| |].
  - intros tr Htr.
    destruct (decide (tr = hitTriple h)) as [->|Hne].
    + by rewrite lookup_insert_eq.
    + rewrite lookup_insert_ne.
      2:{ intros Hkey. apply Hne. symmetry.
          by apply (groups_keys_distinct (p ++ [h])). }
      rewrite groupEntry_snoc_other by done. apply Hsome.
      apply (groups_snoc p h _ Hbot) in Htr as [Htr|Htr]; done.
  - intros k Hk. rewrite lookup_insert_ne by (by apply Hk).
    apply Hnone. intros tr Htr. apply Hk.
    apply groups_snoc; [done|by left].
Qed.

(** C3, as amended: in incremental mode [updateLocationStats] groups the
    hits whose bot code is not positive by (day, location, path ID); for
    each group it takes count and count_unique of the stored row for that
    key as the starting point and deletes the stored rows for it, adds 1 to
    count per hit and 1 to count_unique per first visit, and inserts exactly
    one row per group.  The batch is one site's, and its groups have
    distinct keys. *)
Theorem updateLocationStats_incremental (site : Site) (hits : list Hit)
    (tbl : list LocationStat) :
  batchFor (Site.ID site) tbl hits →
  updateLocationStats site hits false tbl
  ≡ₚ untouched (Site.ID site) hits tbl
     ++ (groupRow site tbl hits <$> groups hits).
Proof.
  intros Hbatch. unfold updateLocationStats.
  destruct (locationLoop_incremental _ _ _ Hbatch) as (g & -> & Hsome & Hnone).
  apply Permutation_app_head. unfold locationRows, groupRow.
  set (entries := (λ tr, (keyOf tr, groupEntry (Site.ID site) tbl hits tr))
                    <$> groups hits).
  assert (entries.*1 = keyOf <$> groups hits) as Hkeys.
  { unfold entries. rewrite <- list_fmap_compose. done. }
  assert (NoDup entries.*1) as Hnodup.
  { rewrite Hkeys. apply NoDup_fmap_2_strong; [|apply NoDup_remove_dups].
    intros tr1 tr2. apply groups_keys_distinct. apply Hbatch. }
  assert (g = list_to_map entries) as ->.
  { apply map_eq. intros k.
    destruct (decide (k ∈ keyOf <$> groups hits)) as [Hin|Hnot].
    - apply list_elem_of_fmap in Hin as (tr & -> & Htr).
      rewrite (Hsome _ Htr). symmetry.
      apply elem_of_list_to_map_1; [done|].
      unfold entries. apply list_elem_of_fmap. by exists tr.
    - rewrite Hnone.
      + symmetry. apply not_elem_of_list_to_map_1. by rewrite Hkeys.
      + intros tr Htr <-. apply Hnot, list_elem_of_fmap. by exists tr. }
  rewrite (map_to_list_to_map entries Hnodup).
  unfold entries. rewrite <- !list_fmap_compose. done.
Qed.

Lemma keysDistinctb_correct (hits : list Hit) :
  keysDistinctb hits = true → keysDistinct hits.
Proof.
  unfold keysDistinctb. rewrite forallb_forall. intros Hall h1 h2 H1 H2 Hkey.
  apply list_elem_of_In in H1, H2.
  specialize (Hall h1 H1). rewrite forallb_forall in Hall.
  specialize (Hall h2 H2). rewrite Hkey, String.eqb_refl in Hall.
  by apply bool_decide_eq_true in Hall.
Qed.

Lemma updateLocationStats_incremental_witness :
  updateLocationStats (Site.mk 1 "a" true 0) sampleHits false sampleStored
  ≡ₚ untouched 1 sampleHits sampleStored
     ++ (groupRow (Site.mk 1 "a" true 0) sampleStored sampleHits
           <$> groups sampleHits).
Proof.
  apply (updateLocationStats_incremental (Site.mk 1 "a" true 0) sampleHits
           sampleStored).
  split_and!.
  - apply Forall_forall. unfold counted, sampleHits.
    rewrite !filter_cons, filter_nil. simpl. repeat constructor.
  - apply keysDistinctb_correct. vm_compute. reflexivity.
  - vm_compute. discriminate.
  - apply Forall_forall. repeat constructor; vm_compute; discriminate.
Defined.

(** The rows of that run: the stored row of another day is kept, and the
    groups ("2019-08-31", "ID", 1) and ("2019-08-31", "NL", 1) get one row
    each, the second on top of the stored counts 5 and 2. *)
Example sampleHits_rows :
  untouched 1 sampleHits sampleStored
  ++ (groupRow (Site.mk 1 "a" true 0) sampleStored sampleHits
        <$> groups sampleHits)
  = [{| ls_site_id := 1; ls_day := "2019-08-30"; ls_path_id := 1;
        ls_location := "NL"; ls_count := 7; ls_count_unique := 3 |};
     {| ls_site_id := 1; ls_day := "2019-08-31"; ls_path_id := 1;
        ls_location := "ID"; ls_count := 1; ls_count_unique := 0 |};
     {| ls_site_id := 1; ls_day := "2019-08-31"; ls_path_id := 1;
        ls_location := "NL"; ls_count := 7; ls_count_unique := 3 |}].
Proof. vm_compute. reflexivity. Qed.

(** C3 as stated fails: a hit with a non-zero (negative) bot code is not
    skipped but counted; and two hits whose locations and path IDs
    concatenate to the same key end up in one row. *)
Lemma updateLocationStats_incremental_counterexample :
  Hit.Bot negativeBotHit ≠ 0
  ∧ updateLocationStats (Site.mk 1 "a" true 0) [negativeBotHit] false []
    = [{| ls_site_id := 1; ls_day := "2019-08-31"; ls_path_id := 1;
          ls_location := "NL"; ls_count := 1; ls_count_unique := 0 |}]
  ∧ hitTriple <$> collidingHits
    = [("2019-08-31", "A1", 2); ("2019-08-31", "A", 12)]
  ∧ updateLocationStats (Site.mk 1 "a" true 0) collidingHits false []
    = [{| ls_site_id := 1; ls_day := "2019-08-31"; ls_path_id := 2;
          ls_location := "A1"; ls_count := 2; ls_count_unique := 0 |}].
Proof. split_and!; [discriminate|reflexivity..]. Qed.

(** ** More on the location rollup *)

Lemma locationLoop_counted (isReindex : bool) (hits : list Hit) :
  ∀ st, foldl (locationStep isReindex) st hits
        = foldl (locationStep isReindex) st (counted hits).
Proof.
  induction hits as [|h hits IH]; intros st; [done|].
  cbn [foldl].
  destruct (decide (Hit.Bot h <= 0)) as [Hbot|Hbot].
  - replace (counted (h :: hits)) with (h :: counted hits)
      by (unfold counted; by rewrite filter_cons_True).
    cbn [foldl]. apply IH.
  - replace (counted (h :: hits)) with (counted hits)
      by (unfold counted; by rewrite filter_cons_False).
    rewrite <- (IH st).
    f_equal. unfold locationStep. destruct st as [g tbl].
    by rewrite (proj2 (Z.ltb_lt 0 (Hit.Bot h))) by lia.
Qed.

(** X1: Hits flagged as bots play no part in the location rollup: dropping
    them from the batch beforehand changes nothing, in either mode. *)
Theorem updateLocationStats_ignores_bots (site : Site) (hits : list Hit)
    (isReindex : bool) (tbl : list LocationStat) :
  updateLocationStats site hits isReindex tbl
  = updateLocationStats site (counted hits) isReindex tbl.
Proof. unfold updateLocationStats. by rewrite locationLoop_counted. Qed.

Lemma locationStep_reindex_table (grouped : gmap string gt.t)
    (tbl : list LocationStat) (h : Hit) :
  locationStep true (grouped, tbl) h
  = ((locationStep true (grouped, []) h).1, tbl).
Proof.
  unfold locationStep. destruct (0 <? Hit.Bot h); [done|].
  destruct (gt.count _ =? 0); done.
Qed.

Lemma locationLoop_reindex_table (hits : list Hit) :
  ∀ (grouped : gmap string gt.t) (tbl : list LocationStat),
  foldl (locationStep true) (grouped, tbl) hits
  = ((foldl (locationStep true) (grouped, []) hits).1, tbl).
Proof.
  induction hits as [|h hits IH]; intros grouped tbl; [done|].
  cbn [foldl]. rewrite (locationStep_reindex_table grouped tbl).
  rewrite IH.
  destruct (locationStep true (grouped, []) h) as [g t] eqn:Hstep.
  rewrite (locationStep_reindex_table grouped []) in Hstep.
  injection Hstep as <- <-. done.
Qed.

Lemma locationRows_groups (site : Site) (tbl : list LocationStat)
    (hits : list Hit) (grouped : gmap string gt.t) :
  keysDistinct hits →
  (∀ tr, tr ∈ groups hits →
     grouped !! keyOf tr = Some (groupEntry (Site.ID site) tbl hits tr)) →
  (∀ k, (∀ tr, tr ∈ groups hits → keyOf tr ≠ k) → grouped !! k = None) →
  locationRows (Site.ID site) grouped ≡ₚ groupRow site tbl hits <$> groups hits.
Proof.
  intros Hdistinct Hsome Hnone. unfold locationRows, groupRow.
  set (entries := (λ tr, (keyOf tr, groupEntry (Site.ID site) tbl hits tr))
                    <$> groups hits).
  assert (entries.*1 = keyOf <$> groups hits) as Hkeys.
  { unfold entries. rewrite <- list_fmap_compose. done. }
  assert (NoDup entries.*1) as Hnodup.
  { rewrite Hkeys. apply NoDup_fmap_2_strong; [|apply NoDup_remove_dups].
    intros tr1 tr2. by apply groups_keys_distinct. }
  assert (grouped = list_to_map entries) as ->.
  { apply map_eq. intros k.
    destruct (decide (k ∈ keyOf <$> groups hits)) as [Hin|Hnot].
    - apply list_elem_of_fmap in Hin as (tr & -> & Htr).
      rewrite (Hsome _ Htr). symmetry.
      apply elem_of_list_to_map_1; [done|].
      unfold entries. apply list_elem_of_fmap. by exists tr.
    - rewrite Hnone.
      + symmetry. apply not_elem_of_list_to_map_1. by rewrite Hkeys.
      + intros tr Htr <-. apply Hnot, list_elem_of_fmap. by exists tr. }
  rewrite (map_to_list_to_map entries Hnodup).
  unfold entries. rewrite <- !list_fmap_compose. done.
Qed.

(** What reindex mode inserts, whatever the table holds. *)
Lemma updateLocationStats_reindex_rows (site : Site) (hits : list Hit)
    (tbl : list LocationStat) :
  batchFor (Site.ID site) [] hits →
  ∃ rows, updateLocationStats site hits true tbl = tbl ++ rows
          ∧ rows ≡ₚ groupRow site [] hits <$> groups hits.
Proof.
  intros Hbatch. unfold updateLocationStats.
  rewrite locationLoop_reindex_table.
  rewrite <- (locationLoop_modes hits 0 ∅ []).
  - destruct (locationLoop_incremental _ _ _ Hbatch) as (g & -> & Hsome & Hnone).
    eexists. split; [done|]. simpl.
    apply locationRows_groups; [apply Hbatch|done..].
  - intros k v Hv. by rewrite lookup_empty in Hv.
  - lia.
  - destruct Hbatch as (_ & _ & Hlen & _). lia.
  - intros h r _ Hr. by apply elem_of_nil in Hr.
Qed.

(** X2: In reindex mode [updateLocationStats] deletes nothing and reads
    nothing: every stored row is kept, and one row per group is appended
    whose counts are those of the batch alone. *)
Theorem updateLocationStats_reindex_appends (site : Site) (hits : list Hit)
    (tbl : list LocationStat) :
  batchFor (Site.ID site) [] hits →
  updateLocationStats site hits true tbl
  ≡ₚ tbl ++ (groupRow site [] hits <$> groups hits).
Proof.
  intros Hbatch.
  destruct (updateLocationStats_reindex_rows site hits tbl Hbatch)
    as (rows & -> & Hrows).
  by rewrite Hrows.
Qed.

Lemma updateLocationStats_reindex_appends_witness :
  updateLocationStats (Site.mk 1 "a" true 0) sampleHits true sampleStored
  ≡ₚ sampleStored
     ++ (groupRow (Site.mk 1 "a" true 0) [] sampleHits <$> groups sampleHits).
Proof.
  apply (updateLocationStats_reindex_appends (Site.mk 1 "a" true 0)
           sampleHits sampleStored).
  split_and!.
  - apply Forall_forall. unfold counted, sampleHits.
    rewrite !filter_cons, filter_nil. simpl. repeat constructor.
  - apply keysDistinctb_correct. vm_compute. reflexivity.
  - vm_compute. discriminate.
  - intros r Hr. by apply elem_of_nil in Hr.
Defined.

(** X3: Reindexing the same hits twice, without emptying the table in between,
    stores every group twice. *)
Theorem updateLocationStats_reindex_twice (site : Site) (hits : list Hit)
    (tbl : list LocationStat) :
  batchFor (Site.ID site) [] hits →
  updateLocationStats site hits true (updateLocationStats site hits true tbl)
  ≡ₚ tbl ++ (groupRow site [] hits <$> groups hits)
         ++ (groupRow site [] hits <$> groups hits).
Proof.
  intros Hbatch.
  destruct (updateLocationStats_reindex_rows site hits
              (updateLocationStats site hits true tbl) Hbatch)
    as (rows2 & -> & Hrows2).
  destruct (updateLocationStats_reindex_rows site hits tbl Hbatch)
    as (rows1 & -> & Hrows1).
  rewrite Hrows1, Hrows2. by rewrite <- app_assoc.
Qed.

Lemma updateLocationStats_reindex_twice_witness :
  updateLocationStats (Site.mk 1 "a" true 0) sampleHits true
    (updateLocationStats (Site.mk 1 "a" true 0) sampleHits true [])
  ≡ₚ [] ++ (groupRow (Site.mk 1 "a" true 0) [] sampleHits
              <$> groups sampleHits)
        ++ (groupRow (Site.mk 1 "a" true 0) [] sampleHits
              <$> groups sampleHits).
Proof.
  apply (updateLocationStats_reindex_twice (Site.mk 1 "a" true 0)
           sampleHits []).
  split_and!.
  - apply Forall_forall. unfold counted, sampleHits.
    rewrite !filter_cons, filter_nil. simpl. repeat constructor.
  - apply keysDistinctb_correct. vm_compute. reflexivity.
  - vm_compute. discriminate.
  - intros r Hr. by apply elem_of_nil in Hr.
Defined.

(** ** More on the drivers *)

Section DriverFacts.
Context {Rest : Type}.
Variables updateHitCounts updateRefCounts updateHitStats updateBrowserStats
  updateSystemStats updateSizeStats : @aggregator Rest.
Variable Site_ByID : Z → @DB Rest → error + Site.
Variable Site_UpdateReceivedData : Site → @DB Rest → option error * @DB Rest.
Variable StateActive : string.

Let Update := UpdateStats updateHitCounts updateRefCounts updateHitStats
  updateBrowserStats updateSystemStats updateSizeStats Site_ByID
  Site_UpdateReceivedData.
Let Reindex := ReindexStats updateHitCounts updateRefCounts updateHitStats
  updateBrowserStats updateSystemStats updateSizeStats Site_ByID
  Site_UpdateReceivedData StateActive.

Lemma runFuns_trace (fs : list (string * @aggregator Rest)) (site : Site)
    (siteID : Z) (hits : list Hit) (isReindex : bool) :
  ∀ w : @World Rest,
  ∃ k : nat,
    invoked (runFuns fs site siteID hits isReindex w).2
    = invoked w ++ take k fs.*1
    ∧ ((runFuns fs site siteID hits isReindex w).1 = None → k = length fs).
Proof.
  induction fs as [|[name f] fs IH]; intros w.
  { exists 0%nat. simpl. by rewrite app_nil_r. }
  cbn [runFuns]. unfold invoke.
  destruct (f site hits isReindex (db w)) as [[err|] d].
  - exists 1%nat. simpl. split; [by rewrite take_0|done].
  - destruct (IH (mkWorld d (invoked w ++ [name]))) as (k & Htrace & Hk).
    exists (S k). rewrite Htrace. simpl. rewrite <- app_assoc. split; [done|].
    intros Hnone. by rewrite Hk.
Qed.


Lemma reindexTable_unknown (site : Site) (hits : list Hit) (t : string)
    (w : @World Rest) :
  t ∉ reindexTableNames →
  reindexTable updateHitCounts updateRefCounts updateHitStats
    updateBrowserStats updateSystemStats updateSizeStats Site_ByID
    Site_UpdateReceivedData site hits t w = (None, w).
Proof.
  intros Hnot. unfold reindexTable.
  repeat (destruct (String.eqb t _) eqn:Heq;
          [apply String.eqb_eq in Heq; subst t; exfalso; apply Hnot;
           unfold reindexTableNames; set_solver|clear Heq]).
  done.
Qed.

(** X5: Table names that [ReindexStats] does not know are passed over in
    silence: with only such names it returns nil, invokes nothing and
    changes nothing. *)
Theorem ReindexStats_unknown_tables (site : Site) (hits : list Hit)
    (tables : list string) (w : @World Rest) :
  Forall (λ t, t ∉ reindexTableNames) tables →
  Reindex site hits tables w = (None, w).
Proof.
  intros Hunknown. unfold Reindex, ReindexStats.
  destruct (negb _); [done|]. case_decide; [done|].
  induction Hunknown as [|t tables Ht _ IH]; [done|].
  cbn [reindexTables]. by rewrite reindexTable_unknown.
Qed.

End DriverFacts.

Lemma ReindexStats_unknown_tables_witness :
  let w := mkWorld (mkDB [] ()) [] in
  ReindexStats idleAggregator idleAggregator idleAggregator idleAggregator
    idleAggregator idleAggregator (λ _ _, inl "no site") (λ _ d, (None, d)) "a"
    (Site.mk 1 "a" true 0) sampleHits ["hit_count"; "locations"] w = (None, w).
Proof.
  intros w.
  apply (ReindexStats_unknown_tables idleAggregator idleAggregator
           idleAggregator idleAggregator idleAggregator idleAggregator
           (λ _ _, inl "no site") (λ _ d, (None, d)) "a"
           (Site.mk 1 "a" true 0) sampleHits ["hit_count"; "locations"] w).
  repeat constructor; vm_compute; intros Hin;
    repeat (apply elem_of_cons in Hin as [Hin|Hin]; [discriminate|]);
    by apply elem_of_nil in Hin.
Defined.

(** ** More on the timezone shift *)

Lemma fmap_removelast {A B} (f : A → B) (l : list A) :
  f <$> removelast l = removelast (f <$> l).
Proof.
  induction l as [|x l IH]; [done|]. destruct l as [|y l]; [done|].
  cbn [removelast fmap list_fmap] in *. by rewrite IH.
Qed.

Lemma applyOffsetPos_days (offset : Z) (stats : list Stat) :
  ∀ popped poppedUnique out,
  applyOffsetPos offset popped poppedUnique stats = Some out →
  Forall2 (λ s s', Stat.Day s' = Stat.Day s ∧ Stat.Daily s' = Stat.Daily s
                   ∧ Stat.DailyUnique s' = Stat.DailyUnique s) stats out.
Proof.
  induction stats as [|s rest IH]; intros popped poppedUnique out.
  { intros [= <-]. constructor. }
  cbn [applyOffsetPos]. destruct (_ || _); [done|].
  destruct (_ <? _); [done|].
  destruct (applyOffsetPos _ _ _ rest) as [rest'|] eqn:Hrest; [|done].
  intros [= <-]. constructor; [done|]. by eapply IH.
Qed.

Lemma applyOffsetNeg_days (offset : nat) (stats : list Stat) :
  Forall2 (λ s s', Stat.Day s' = Stat.Day s ∧ Stat.Daily s' = Stat.Daily s
                   ∧ Stat.DailyUnique s' = Stat.DailyUnique s)
    stats (applyOffsetNeg offset stats).1.
Proof.
  induction stats as [|s rest IH]; [constructor|].
  cbn [applyOffsetNeg].
  destruct (applyOffsetNeg offset rest) as [rest' [popped poppedUnique]].
  simpl in *. by constructor.
Qed.

Lemma Forall2_days (stats out : list Stat) :
  Forall2 (λ s s', Stat.Day s' = Stat.Day s ∧ Stat.Daily s' = Stat.Daily s
                   ∧ Stat.DailyUnique s' = Stat.DailyUnique s) stats out →
  Stat.Day <$> out = Stat.Day <$> stats.
Proof.
  induction 1 as [|s s' stats out (Hday & _) _ IH]; [done|].
  rewrite !fmap_cons. by rewrite Hday, IH.
Qed.

(** X6: Whenever [applyOffset] shifts (a rounded offset other than zero) and
    returns, it returns the same paths in the same order, every field but
    [Stats] untouched, and every path with the days it had but one: the
    first day is gone after a shift to the right, the last after a shift to
    the left. *)
Theorem applyOffset_drops_one_day (hh hh' : HitStats) (site : Site) :
  offsetHours site ≠ 0 →
  applyOffset hh site = Some hh' →
  Forall2 (λ h h',
      h' = HitStat.setStats h (HitStat.Stats h')
      ∧ Stat.Day <$> HitStat.Stats h'
        = if 0 <? offsetHours site
          then tail (Stat.Day <$> HitStat.Stats h)
          else removelast (Stat.Day <$> HitStat.Stats h)) hh hh'.
Proof.
  intros Hn. unfold applyOffset. case_decide as Hlen.
  { intros [= <-]. destruct hh; [constructor|done]. }
  destruct (0 <? offsetHours site) eqn:Hpos.
  - intros Hmap%mapM_Some. eapply Forall2_impl; [exact Hmap|].
    intros h h' Hh. simpl in Hh.
    destruct (applyOffsetPos _ _ _ _) as [out|] eqn:Hout; [|done].
    simpl in Hh. destruct out as [|s out]; [done|]. simpl in Hh.
    injection Hh as <-. split; [by destruct h|]. simpl.
    apply applyOffsetPos_days, Forall2_days in Hout.
    rewrite <- Hout. done.
  - destruct (offsetHours site <? 0) eqn:Hneg.
    2:{ apply Z.ltb_ge in Hpos, Hneg. lia. }
    intros Hmap%mapM_Some. eapply Forall2_impl; [exact Hmap|].
    intros h h' Hh. simpl in Hh.
    pose proof (applyOffsetNeg_days (Z.to_nat (int.neg (offsetHours site)))
                  (HitStat.Stats h)) as Hout%Forall2_days.
    destruct (applyOffsetNeg _ _).1 as [|s out]; [done|].
    unfold sliceToLast in Hh. simpl in Hh. injection Hh as <-.
    split; [by destruct h|]. cbn [HitStat.Stats HitStat.setStats].
    rewrite <- Hout. apply (fmap_removelast Stat.Day (s :: out)).
Qed.

Lemma applyOffset_drops_one_day_witness :
  Forall2 (λ h h',
      h' = HitStat.setStats h (HitStat.Stats h')
      ∧ Stat.Day <$> HitStat.Stats h'
        = tail (Stat.Day <$> HitStat.Stats h))
    [samplePath sampleDays]
    [samplePath
      [sampleDay "2019-12-06"
         [1; 0; 0; 0; 0; 0; 0; 0; 0; 0; 0; 0; 0; 4; 7; 0; 0; 0; 0; 0; 0; 0; 0; 0]
         [1; 0; 0; 0; 0; 0; 0; 0; 0; 0; 0; 0; 0; 4; 7; 0; 0; 0; 0; 0; 0; 0; 0; 0];
       sampleDay "2019-12-07"
         [1; 0; 0; 0; 0; 0; 0; 0; 0; 0; 0; 0; 0; 0; 0; 0; 0; 0; 0; 0; 0; 0; 0; 0]
         [1; 0; 0; 0; 0; 0; 0; 0; 0; 0; 0; 0; 0; 0; 0; 0; 0; 0; 0; 0; 0; 0; 0; 0]]].
Proof.
  apply (applyOffset_drops_one_day [samplePath sampleDays] _
           (siteWithOffset 120)).
  - vm_compute. discriminate.
  - reflexivity.
Defined.

(** X7: On days whose two arrays have equal lengths, [applyOffset] panics in
    exactly one situation: the rounded offset is not zero and some path has
    no days. *)
Theorem applyOffset_panics_iff (hh : HitStats) (site : Site) :
  Forall (λ h, Forall balanced (HitStat.Stats h)) hh →
  applyOffset hh site = None
  ↔ offsetHours site ≠ 0 ∧ Exists (λ h, HitStat.Stats h = []) hh.
Proof.
  intros Hbal. split.
  - intros Hnone.
    destruct (decide (offsetHours site = 0)) as [Hzero|Hnz].
    { by rewrite applyOffset_zero in Hnone. }
    split; [done|].
    destruct (decide (Exists (λ h, HitStat.Stats h = []) hh)) as [|Hall];
      [done|].
    apply not_Exists_Forall in Hall; [|apply _].
    destruct (applyOffset_returns hh site) as [x Hx]; [|congruence].
    right. right. apply Forall_forall. intros h Hh.
    rewrite Forall_forall in Hall, Hbal. split; [apply Hall|apply Hbal]; done.
  - intros [Hnz Hex]. unfold applyOffset.
    case_decide as Hlen.
    { destruct hh; [by apply Exists_nil in Hex|done]. }
    destruct (0 <? offsetHours site) eqn:Hpos;
      [|destruct (offsetHours site <? 0) eqn:Hneg].
    + apply mapM_None. eapply Exists_impl; [exact Hex|].
      intros h ->. done.
    + apply mapM_None. eapply Exists_impl; [exact Hex|].
      intros h ->. done.
    + apply Z.ltb_ge in Hpos, Hneg. lia.
Qed.

Lemma applyOffset_panics_iff_witness :
  applyOffset [samplePath sampleDays; samplePath []] (siteWithOffset (-60))
  = None.
Proof.
  apply (applyOffset_panics_iff [samplePath sampleDays; samplePath []]
           (siteWithOffset (-60))).
  - repeat constructor.
  - split; [vm_compute; discriminate|]. right. by left.
Defined.

(** ** More on the totals *)

Lemma wrap_add_l (a b : Z) : int.wrap (int.wrap a + b) = int.wrap (a + b).
Proof.
  unfold int.wrap. f_equal.
  replace ((a + 2 ^ 63) `mod` 2 ^ 64 - 2 ^ 63 + b + 2 ^ 63)
    with ((a + 2 ^ 63) `mod` 2 ^ 64 + b) by lia.
  rewrite Zplus_mod_idemp_l. f_equal. lia.
Qed.

Lemma sumZ_cons (x : Z) (l : list Z) : sumZ (x :: l) = x + sumZ l.
Proof. done. Qed.

Lemma wrap_add_cons (a x : Z) (l : list Z) :
  int.wrap (int.add a x + sumZ l) = int.wrap (a + sumZ (x :: l)).
Proof.
  unfold int.add. rewrite wrap_add_l, sumZ_cons. f_equal. lia.
Qed.


Lemma addHours_None (daily : bool) (hourly : list Z) :
  ∀ (unique : list Z) (acc : Z * Z * Z),
  addHours daily hourly unique acc = None
  ↔ (length unique < length hourly)%nat.
Proof.
  induction hourly as [|x hourly IH]; intros unique [[d du] mx].
  { simpl. split; [done|lia]. }
  destruct unique as [|u unique]; simpl; [split; [lia|done]|].
  rewrite IH. lia.
Qed.


Lemma addDays_None (daily : bool) (stats : list Stat) :
  ∀ acc : Z * Z * Z,
  addDays daily stats acc = None ↔ Exists shortUnique stats.
Proof.
  induction stats as [|s rest IH]; intros [[c cu] mx].
  { simpl. split; [done|]. intros H. by apply Exists_nil in H. }
  cbn [addDays]. rewrite Exists_cons.
  destruct (addHours _ _ _ _) as [[[d du] mx1]|] eqn:Hhours.
  - cbn [mbind option_bind].
    assert (¬ shortUnique s) as Hs.
    { unfold shortUnique. intros Hlt.
      apply (addHours_None daily _ _ (Stat.Daily s, Stat.DailyUnique s, mx))
        in Hlt. congruence. }
    destruct (addDays _ rest _) as [[rest' acc]|] eqn:Hrest.
    + cbn [mbind option_bind]. split; [done|].
      intros [?|Hex]; [done|].
      apply (IH (int.add c d, int.add cu du,
                 if daily && (mx1 <? d) then d else mx1)) in Hex.
      congruence.
    + cbn [mbind option_bind]. split; [|done]. intros _. right.
      by apply IH in Hrest.
  - cbn [mbind option_bind]. split; [|done]. intros _. left.
    by apply addHours_None in Hhours.
Qed.





Lemma byCountUnique_total : Total byCountUnique.
Proof. intros a b. unfold byCountUnique. lia. Qed.

(** X9: Whatever [addTotals] returns is sorted by unique count, largest first,
    and holds as many paths as went in. *)
Theorem addTotals_sorted (hh hh' : HitStats) (daily : bool)
    (t tu t' tu' : Z) :
  addTotals hh daily t tu = Some (hh', t', tu') →
  Sorted byCountUnique hh' ∧ length hh' = length hh.
Proof.
  unfold addTotals. destruct (mapM _ hh) as [out|] eqn:Hmap; [|done].
  cbn [mbind option_bind]. intros [= <- _ _]. split.
  - apply Sorted_merge_sort, byCountUnique_total.
  - unfold sortByCountUnique. rewrite merge_sort_Permutation.
    apply mapM_Some, Forall2_length in Hmap. done.
Qed.

Lemma addTotals_sorted_witness :
  Sorted byCountUnique
    [HitStat.mk 2 1 1 "/asd" false "aSd" None 2
       [Stat.mk "2019-08-31" (<[14%nat := 2]> allDays)
          (<[14%nat := 1]> allDays) 2 1];
     HitStat.mk 1 0 2 "/zxc" false "" None 1
       [Stat.mk "2019-08-31" (<[14%nat := 1]> allDays) allDays 1 0]]
  ∧ length
      [HitStat.mk 2 1 1 "/asd" false "aSd" None 2
         [Stat.mk "2019-08-31" (<[14%nat := 2]> allDays)
            (<[14%nat := 1]> allDays) 2 1];
       HitStat.mk 1 0 2 "/zxc" false "" None 1
         [Stat.mk "2019-08-31" (<[14%nat := 1]> allDays) allDays 1 0]]
    = length untotalled.
Proof.
  apply (addTotals_sorted untotalled _ false 0 0 3 1).
  vm_compute. reflexivity.
Defined.

(** X10: [addTotals] panics exactly when some day of some path has fewer unique
    hours than hours. *)
Theorem addTotals_panics_iff (hh : HitStats) (daily : bool) (t tu : Z) :
  addTotals hh daily t tu = None
  ↔ Exists (λ h, Exists shortUnique (HitStat.Stats h)) hh.
Proof.
  unfold addTotals. split.
  - destruct (mapM _ hh) as [out|] eqn:Hmap; [done|]. intros _.
    apply mapM_None in Hmap. eapply Exists_impl; [exact Hmap|].
    intros h Hh. unfold addPath in Hh.
    destruct (addDays _ _ _) as [[stats [[c cu] mx]]|] eqn:Hdays; [done|].
    by apply addDays_None in Hdays.
  - intros Hex.
    assert (mapM (addPath daily) hh = None) as ->; [|done].
    apply mapM_None. eapply Exists_impl; [exact Hex|].
    intros h Hh. unfold addPath.
    apply (addDays_None daily _
             (HitStat.Count h, HitStat.CountUnique h, HitStat.Max h)) in Hh.
    by rewrite Hh.
Qed.

(** ** Persisting and aggregating *)

Lemma groupLoop_lookup (siteID : Z) (hits : list Hit) :
  ∀ grouped : gmap Z (list Hit),
  foldl groupStep grouped hits !! siteID
  = match grouped !! siteID,
          filter (λ h, Hit.Site h = siteID) (counted hits) with
    | None, [] => None
    | o, l => Some (default [] o ++ l)
    end.
Proof.
  induction hits as [|h hits IH]; intros grouped.
  { cbn [foldl]. unfold counted. rewrite !filter_nil.
    destruct (grouped !! siteID); [by rewrite app_nil_r|done]. }
  cbn [foldl]. rewrite IH. unfold groupStep, counted.
  destruct (0 <? Hit.Bot h) eqn:Hbot.
  { apply Z.ltb_lt in Hbot. by rewrite (filter_cons_False _ h) by lia. }
  apply Z.ltb_ge in Hbot. rewrite (filter_cons_True _ h) by lia.
  destruct (decide (Hit.Site h = siteID)) as [Hsite|Hsite].
  - rewrite (filter_cons_True _ h) by done. rewrite Hsite, lookup_insert_eq.
    cbn [default].
    destruct (grouped !! siteID) as [l|], (filter _ (filter _ hits));
      cbn [default]; unfold id; by rewrite <- ?app_assoc, ?app_nil_r.
  - rewrite (filter_cons_False _ h) by done.
    by rewrite lookup_insert_ne.
Qed.

(** X11: The first loop of [PersistAndStat] gives every site exactly its hits
    that are not bots, in the order they came in; a site with bots only
    gets no batch. *)
Theorem groupBySite_batches (hits : list Hit) (siteID : Z) :
  groupBySite hits !! siteID = siteBatch siteID hits.
Proof.
  unfold groupBySite, siteBatch. rewrite groupLoop_lookup, lookup_empty.
  by destruct (filter _ _).
Qed.

Section PersistFacts.
Context {Rest : Type}.
Variables updateHitCounts updateRefCounts updateHitStats updateBrowserStats
  updateSystemStats updateSizeStats : @aggregator Rest.
Variable Site_ByID : Z → @DB Rest → error + Site.
Variable Site_UpdateReceivedData : Site → @DB Rest → option error * @DB Rest.
Variable Memstore_Persist : @DB Rest → (error + list Hit) * @DB Rest.

Let Update := UpdateStats updateHitCounts updateRefCounts updateHitStats
  updateBrowserStats updateSystemStats updateSizeStats Site_ByID
  Site_UpdateReceivedData.
Let Persist := PersistAndStat updateHitCounts updateRefCounts updateHitStats
  updateBrowserStats updateSystemStats updateSizeStats Site_ByID
  Site_UpdateReceivedData Memstore_Persist.

Lemma UpdateStats_trace (site : option Site) (siteID : Z) (hits : list Hit)
    (isReindex : bool) (w : @World Rest) :
  ∃ k : nat,
    invoked (Update site siteID hits isReindex w).2
    = invoked w ++ take k aggregatorNames.
Proof.
  unfold Update, UpdateStats.
  destruct (match site with Some s => inr s | None => Site_ByID siteID (db w) end)
    as [err|s].
  { exists 0%nat. simpl. by rewrite app_nil_r. }
  destruct (runFuns_trace
              (funs updateHitCounts updateRefCounts updateHitStats
                 updateBrowserStats updateSystemStats updateSizeStats)
              s siteID hits isReindex w) as (k & Htrace & _).
  exists k.
  destruct (runFuns _ _ _ _ _ _) as [[err|] w']; simpl in *; [done|].
  destruct (negb (Site.ReceivedData s)); [|done].
  by destruct (Site_UpdateReceivedData s (db w')) as [[err|] d].
Qed.

Lemma batches_trace (batches : list (Z * list Hit)) :
  ∀ w : @World Rest,
  ∃ ks : list nat,
    length ks = length batches
    ∧ invoked (foldl (λ w '(siteID, hits),
                        (Update None siteID hits false w).2) w batches)
      = invoked w ++ concat ((λ k, take k aggregatorNames) <$> ks).
Proof.
  induction batches as [|[siteID hits] batches IH]; intros w.
  { exists []. simpl. by rewrite app_nil_r. }
  cbn [foldl].
  destruct (UpdateStats_trace None siteID hits false w) as (k & Hk).
  destruct (IH (Update None siteID hits false w).2) as (ks & Hlen & Hks).
  exists (k :: ks). split; [simpl; by rewrite Hlen|].
  rewrite Hks, Hk, fmap_cons. cbn [concat]. by rewrite <- app_assoc.
Qed.

(** X12: Once [Memstore.Persist] has handed over its hits, [PersistAndStat]
    returns nil whatever the aggregators return; it has then run
    [UpdateStats] once for every site that has a batch, each run invoking
    the aggregators in their order up to the first that fails. *)
Theorem PersistAndStat_returns_nil (w : @World Rest) (hits : list Hit)
    (d : @DB Rest) :
  Memstore_Persist (db w) = (inr hits, d) →
  (Persist w).1 = None
  ∧ ∃ ks : list nat,
      length ks = size (groupBySite hits)
      ∧ invoked (Persist w).2
        = invoked w ++ concat ((λ k, take k aggregatorNames) <$> ks).
Proof.
  intros Hpersist. unfold Persist, PersistAndStat. rewrite Hpersist.
  split; [done|]. cbn [snd].
  destruct (batches_trace (map_to_list (groupBySite hits))
              (mkWorld d (invoked w))) as (ks & Hlen & Hks).
  exists ks. split; [|exact Hks].
  by rewrite Hlen, length_map_to_list.
Qed.
End PersistFacts.

Lemma PersistAndStat_returns_nil_witness :
  let w := mkWorld (mkDB [] ()) [] in
  (PersistAndStat idleAggregator idleAggregator idleAggregator idleAggregator
     idleAggregator idleAggregator (λ _ _, inr (Site.mk 1 "a" true 0))
     (λ _ d, (None, d)) sampleMemstore w).1 = None
  ∧ ∃ ks : list nat,
      length ks = size (groupBySite sampleHits)
      ∧ invoked
          (PersistAndStat idleAggregator idleAggregator idleAggregator
             idleAggregator idleAggregator idleAggregator
             (λ _ _, inr (Site.mk 1 "a" true 0))
             (λ _ d, (None, d)) sampleMemstore w).2
        = invoked w ++ concat ((λ k, take k aggregatorNames) <$> ks).
Proof.
  intros w.
  apply (PersistAndStat_returns_nil idleAggregator idleAggregator
           idleAggregator idleAggregator idleAggregator idleAggregator
           (λ _ _, inr (Site.mk 1 "a" true 0)) (λ _ d, (None, d))
           sampleMemstore w sampleHits (mkDB [] ())).
  reflexivity.
Defined.

(** ** Changed titles *)

Lemma seen_app (t : string) (l1 l2 : list string) :
  seen t (l1 ++ l2) = (seen t l1 + seen t l2)%nat.
Proof. unfold seen. by rewrite filter_app, length_app. Qed.

Lemma seen_cons (t x : string) (l : list string) :
  seen t (x :: l) = ((if decide (x = t) then 1 else 0) + seen t l)%nat.
Proof.
  unfold seen. rewrite filter_cons. by destruct (decide (x = t)).
Qed.

Lemma seen_nil (t : string) : seen t [] = 0%nat.
Proof. done. Qed.

Lemma seen_0 (t : string) (l : list string) : t ∉ l → seen t l = 0%nat.
Proof.
  induction l as [|x l IH]; [done|]. intros Hnot.
  apply not_elem_of_cons in Hnot as [Hne Hnot].
  rewrite seen_cons, IH by done. by rewrite decide_False.
Qed.

Lemma countLoop_lookup (titles : list string) :
  ∀ (grouped : gmap string Z) (t : string),
  (∀ t, 0 <= default 0 (grouped !! t)) →
  (∀ t, default 0 (grouped !! t) + Z.of_nat (seen t titles) <= int.max) →
  foldl (λ grouped t, <[t := int.add (default 0 (grouped !! t)) 1]> grouped)
        grouped titles !! t
  = if decide (t ∈ titles)
    then Some (default 0 (grouped !! t) + Z.of_nat (seen t titles))
    else grouped !! t.
Proof.
  induction titles as [|x titles IH]; intros grouped t Hpos Hmax.
  { cbn [foldl]. rewrite decide_False; [done|]. apply not_elem_of_nil. }
  cbn [foldl].
  assert (int.add (default 0 (grouped !! x)) 1 = default 0 (grouped !! x) + 1)
    as Hadd.
  { unfold int.add. apply wrap_id. specialize (Hpos x). specialize (Hmax x).
    rewrite seen_cons, decide_True in Hmax by done.
    unfold int.InRange, int.min, int.max in *. lia. }
  rewrite Hadd.
  assert (∀ t', default 0 (<[x := default 0 (grouped !! x) + 1]> grouped !! t')
                = default 0 (grouped !! t')
                  + (if decide (x = t') then 1 else 0)) as Hdef.
  { intros t'. destruct (decide (x = t')) as [->|Hne].
    - by rewrite lookup_insert_eq.
    - rewrite lookup_insert_ne by done. lia. }
  rewrite IH.
  - rewrite Hdef, seen_cons.
    destruct (decide (x = t)) as [->|Hne].
    + rewrite (decide_True (P := t ∈ t :: titles)) by left.
      destruct (decide (t ∈ titles)) as [Hin|Hnot].
      * f_equal; lia.
      * rewrite lookup_insert_eq, (seen_0 _ _ Hnot). f_equal; lia.
    + destruct (decide (t ∈ titles)) as [Hin|Hnot].
      * rewrite (decide_True (P := t ∈ x :: titles)) by by right.
        f_equal; lia.
      * rewrite (decide_False (P := t ∈ x :: titles)).
        -- by rewrite lookup_insert_ne.
        -- intros Hin. apply elem_of_cons in Hin as [?|?]; congruence.
  - intros t'. rewrite Hdef. specialize (Hpos t').
    destruct (decide (x = t')); lia.
  - intros t'. rewrite Hdef. specialize (Hmax t'). rewrite seen_cons in Hmax.
    destruct (decide (x = t')); lia.
Qed.

Lemma countTitles_lookup (titles : list string) (t : string) :
  (∀ t, Z.of_nat (seen t titles) <= int.max) →
  countTitles titles !! t
  = if decide (t ∈ titles) then Some (Z.of_nat (seen t titles)) else None.
Proof.
  intros Hmax. unfold countTitles. rewrite countLoop_lookup.
  - by rewrite lookup_empty.
  - intros t'. by rewrite lookup_empty.
  - intros t'. rewrite lookup_empty. cbn [default]. apply Hmax.
Qed.

Lemma head_all_equal {A} (l : list A) (a : A) :
  l ≠ [] → (∀ x, x ∈ l → x = a) → head l = Some a.
Proof.
  destruct l as [|x l]; [done|]. intros _ Hall. simpl. f_equal.
  apply Hall. left.
Qed.

Lemma frequentTitle_new (vv : list string) (newTitle : string) :
  (∀ t, (seen t vv ≤ 10)%nat) →
  frequentTitle (countTitles (vv ++ [newTitle]))
  = if decide (seen newTitle vv = 10%nat) then Some newTitle else None.
Proof.
  intros Hbound.
  assert (∀ t, (seen t (vv ++ [newTitle]) ≤ 11)%nat) as Hbound'.
  { intros t. rewrite seen_app, seen_cons. specialize (Hbound t).
    rewrite seen_nil. destruct (decide (newTitle = t)); lia. }
  assert (∀ t, Z.of_nat (seen t (vv ++ [newTitle])) <= int.max) as Hmax.
  { intros t. specialize (Hbound' t). unfold int.max.
    assert (2 ^ 63 - 1 = 9223372036854775807) by reflexivity. lia. }
  assert (seen newTitle (vv ++ [newTitle]) = S (seen newTitle vv)) as Hnew.
  { rewrite seen_app, seen_cons, seen_nil, decide_True by done. lia. }
  unfold frequentTitle.
  destruct (decide (seen newTitle vv = 10%nat)) as [Hten|Hless].
  - rewrite (head_all_equal _ (newTitle, 11)); [done| |].
    + intros Hnil.
      assert ((newTitle, 11) ∈ filter (λ tn : string * Z, 10 < tn.2)
                (map_to_list (countTitles (vv ++ [newTitle])))) as Hin.
      { apply list_elem_of_filter. split; [simpl; lia|].
        apply elem_of_map_to_list. rewrite countTitles_lookup by done.
        rewrite decide_True by set_solver. rewrite Hnew, Hten. done. }
      rewrite Hnil in Hin. by apply elem_of_nil in Hin.
    + intros [t n] Hin. apply list_elem_of_filter in Hin as [Hn Hin].
      apply elem_of_map_to_list in Hin. simpl in Hn.
      rewrite countTitles_lookup in Hin by done.
      destruct (decide (t ∈ vv ++ [newTitle])); [|done].
      injection Hin as <-.
      destruct (decide (t = newTitle)) as [->|Hne].
      * rewrite Hnew, Hten. done.
      * rewrite seen_app, seen_cons, seen_nil, decide_False in Hn by done.
        specialize (Hbound t). lia.
  - rewrite filter_none; [done|].
    apply Forall_forall. intros [t n] Hin.
    apply elem_of_map_to_list in Hin.
    rewrite countTitles_lookup in Hin by done.
    destruct (decide (t ∈ vv ++ [newTitle])); [|done].
    injection Hin as <-. simpl.
    rewrite seen_app, seen_cons, seen_nil.
    pose proof (Hbound t) as Ht. pose proof (Hbound newTitle) as Hn.
    destruct (decide (newTitle = t)) as [<-|Hne]; lia.
Qed.

(** X13: [updateTitle] writes a title exactly when it sees, for the eleventh time
    since the entry of the path was made, a title that differs from the
    stored one, and it is that title it writes; the entry is then dropped.
    No title is ever held more than ten times. *)
Theorem updateTitle_eleventh (pathID : Z) (currentTitle newTitle : string)
    (cache : TitleCache) :
  titlesBounded cache →
  titlesBounded (updateTitle pathID currentTitle newTitle cache).1
  ∧ (updateTitle pathID currentTitle newTitle cache).2
    = match cache !! pretty pathID with
      | Some vv =>
        if decide (newTitle ≠ currentTitle ∧ seen newTitle vv = 10%nat)
        then Some newTitle else None
      | None => None
      end
  ∧ ((updateTitle pathID currentTitle newTitle cache).2 ≠ None →
     (updateTitle pathID currentTitle newTitle cache).1 !! pretty pathID
     = None).
Proof.
  intros Hbound. unfold updateTitle.
  destruct (String.eqb newTitle currentTitle) eqn:Heq.
  { apply String.eqb_eq in Heq. cbn [fst snd]. split_and!; [done| |done].
    destruct (cache !! pretty pathID); [|done].
    rewrite decide_False; [done|]. intros [? _]. done. }
  apply String.eqb_neq in Heq.
  destruct (cache !! pretty pathID) as [vv|] eqn:Hvv.
  - rewrite frequentTitle_new by (intros t; by eapply Hbound).
    destruct (decide (seen newTitle vv = 10%nat)) as [Hten|Hless];
      cbn [fst snd].
    + split_and!.
      * intros k titles t Hk.
        apply lookup_delete_Some in Hk as [Hne Hk].
        rewrite lookup_insert_ne in Hk by done. by eapply Hbound.
      * by rewrite decide_True.
      * intros _. by rewrite lookup_delete_eq.
    + split_and!; [| |done].
      * intros k titles t Hk.
        destruct (decide (pretty pathID = k)) as [<-|Hne].
        -- rewrite lookup_insert_eq in Hk. injection Hk as <-.
           rewrite seen_app, seen_cons, seen_nil.
           pose proof (Hbound _ _ t Hvv). pose proof (Hbound _ _ newTitle Hvv).
           destruct (decide (newTitle = t)) as [<-|?]; lia.
        -- rewrite lookup_insert_ne in Hk by done. by eapply Hbound.
      * rewrite decide_False; [done|]. intros [_ ?]. done.
  - cbn [fst snd]. split_and!; [|done|done].
    intros k titles t Hk.
    destruct (decide (pretty pathID = k)) as [<-|Hne].
    + rewrite lookup_insert_eq in Hk. injection Hk as <-.
      rewrite seen_cons, seen_nil.
      destruct (decide (newTitle = t)); lia.
    + rewrite lookup_insert_ne in Hk by done. by eapply Hbound.
Qed.

Lemma updateTitle_eleventh_witness :
  titlesBounded (updateTitle 7 "Old title" "New title" tenSightings).1
  ∧ (updateTitle 7 "Old title" "New title" tenSightings).2
    = match tenSightings !! pretty 7 with
      | Some vv =>
        if decide ("New title" ≠ "Old title" ∧ seen "New title" vv = 10%nat)
        then Some "New title" else None
      | None => None
      end
  ∧ ((updateTitle 7 "Old title" "New title" tenSightings).2 ≠ None →
     (updateTitle 7 "Old title" "New title" tenSightings).1 !! pretty 7
     = None).
Proof.
  apply (updateTitle_eleventh 7 "Old title" "New title" tenSightings).
  intros k titles t Hk. unfold tenSightings in Hk.
  apply lookup_singleton_Some in Hk as [_ <-].
  unfold seen. rewrite length_filter. simpl. lia.
Defined.

(** The run of that witness: the title is written. *)
Example updateTitle_tenSightings :
  (updateTitle 7 "Old title" "New title" tenSightings).2 = Some "New title".
Proof. vm_compute. reflexivity. Qed.

(** ** Reading back what was exported *)

Section ExportFacts.
Context {Uint128 : Type}.
Variable ParseUint128 : string → Z → Uint128.
Variable Uint128_String : Uint128 → string.
Variable unref : option string → string.

(** X14: [Read] takes the fields in the order [Export.Run] writes them: the
    record written for a row is read back with every string field as it
    was, the IDs of the receiver untouched, the session printed and parsed,
    and a reference scheme that is no longer nil. *)
Theorem Read_exportLine (row hit : @ExportRow.t Uint128) :
  Read ParseUint128 row (exportLine Uint128_String unref hit)
  = Some (inr (readBack ParseUint128 Uint128_String unref row hit)).
Proof. destruct row, hit. reflexivity. Qed.

(** X15: [Read] never panics: it returns an error for a record that does not
    have 14 fields, and a row for every record that has. *)
Theorem Read_fields (row : @ExportRow.t Uint128) (line : list string) :
  match Read ParseUint128 row line with
  | Some (inl _) => length line ≠ 14%nat
  | Some (inr _) => length line = 14%nat
  | None => False
  end.
Proof.
  unfold Read. change (NumField ParseUint128 - offset)%nat with 14%nat.
  destruct (decide (length line ≠ 14%nat)) as [Hne|Heq]; [done|].
  apply dec_stable in Heq.
  do 15 (destruct line as [|? line]; try done).
Qed.
End ExportFacts.

(** X16: The header check of [Import] panics exactly on a header whose first
    field is empty (or that has no field); otherwise it accepts the header
    exactly when its first field starts with the export version. *)
Theorem importHeader_cases (header : list string) :
  (importHeader header = None ↔ default "" (head header) = "")
  ∧ (importHeader header = Some None
     ↔ Strings.HasPrefix (default "" (head header)) ExportVersion = true).
Proof.
  unfold importHeader. destruct header as [|h0 header].
  { simpl. split; split; done. }
  change (default "" (head (h0 :: header))) with h0.
  change ((h0 :: header) !! 0%nat) with (Some h0).
  cbn [mbind option_bind].
  destruct h0 as [|c h0].
  { simpl. split; split; done. }
  assert (sliceTo (String c h0) 1 = Some (String c "")) as ->.
  { unfold sliceTo. rewrite decide_True by (simpl; lia).
    simpl. by destruct h0. }
  cbn [mbind option_bind].
  destruct (Strings.HasPrefix (String c h0) ExportVersion);
    cbn [negb]; split; split; done.
Qed.

(** What [Export.Run] writes first is a header [Import] accepts. *)
Example importHeader_exportHeader : importHeader exportHeader = Some None.
Proof. reflexivity. Qed.

(** ** Paging through the hits *)

Section PageFacts.
Context {Row : Type}.
Variables rowID rowSite : Row → Z.

Lemma byID_trans : Transitive (byID rowID).
Proof. intros a b c. unfold byID. lia. Qed.

Lemma byID_total : Total (byID rowID).
Proof. intros a b. unfold byID. lia. Qed.

Lemma elem_of_selectAfter (tbl : list Row) (site paginate : Z) (r : Row) :
  r ∈ selectAfter rowID rowSite tbl site paginate
  ↔ r ∈ tbl ∧ rowSite r = site ∧ paginate < rowID r.
Proof.
  unfold selectAfter. rewrite merge_sort_Permutation, list_elem_of_filter.
  unfold afterID. tauto.
Qed.

Lemma NoDup_fmap_filter (P : Row → Prop) `{∀ r, Decision (P r)}
    (tbl : list Row) :
  NoDup (rowID <$> tbl) → NoDup (rowID <$> filter P tbl).
Proof.
  induction tbl as [|x tbl IH]; [done|].
  rewrite fmap_cons. intros [Hx Hnd]%NoDup_cons.
  rewrite filter_cons. destruct (decide (P x)); [|by apply IH].
  rewrite fmap_cons. apply NoDup_cons. split; [|by apply IH].
  intros (y & Hy & Hin)%list_elem_of_fmap.
  apply list_elem_of_filter in Hin as [_ Hin].
  apply Hx. apply list_elem_of_fmap. by exists y.
Qed.

Lemma sorted_ascending (l : list Row) :
  StronglySorted (byID rowID) l → NoDup (rowID <$> l) → ascending rowID l.
Proof.
  induction 1 as [|x l Hsorted IH Hall]; [constructor|].
  rewrite fmap_cons. intros [Hx Hnd]%NoDup_cons.
  constructor; [by apply IH|].
  apply Forall_forall. intros y Hy.
  rewrite Forall_forall in Hall. specialize (Hall y Hy). unfold byID in Hall.
  assert (rowID x ≠ rowID y); [|lia].
  intros Heq. apply Hx. rewrite Heq. apply list_elem_of_fmap. by exists y.
Qed.

Lemma selectAfter_ascending (tbl : list Row) (site paginate : Z) :
  NoDup (rowID <$> tbl) →
  ascending rowID (selectAfter rowID rowSite tbl site paginate).
Proof.
  intros Hnd. apply sorted_ascending.
  - apply StronglySorted_merge_sort; [apply byID_trans|apply byID_total].
  - unfold selectAfter. rewrite merge_sort_Permutation.
    by apply NoDup_fmap_filter.
Qed.



Lemma ascending_app (l1 l2 : list Row) :
  ascending rowID (l1 ++ l2) →
  ascending rowID l1 ∧ ascending rowID l2
  ∧ ∀ a b, a ∈ l1 → b ∈ l2 → rowID a < rowID b.
Proof.
  induction l1 as [|x l1 IH]; intros Hasc.
  { split_and!; [constructor|done|]. intros a b Ha. by apply elem_of_nil in Ha. }
  apply StronglySorted_inv in Hasc as [Hasc Hx].
  destruct (IH Hasc) as (H1 & H2 & H12).
  rewrite Forall_forall in Hx.
  split_and!; [|done|].
  - constructor; [done|]. apply Forall_forall. intros y Hy. apply Hx.
    apply elem_of_app. by left.
  - intros a b [->|Ha]%elem_of_cons Hb.
    + apply Hx. apply elem_of_app. by right.
    + by apply H12.
Qed.

Lemma ascending_last (l : list Row) (r a : Row) :
  ascending rowID l → last l = Some r → a ∈ l → rowID a <= rowID r.
Proof.
  intros Hasc Hlast Ha. apply last_Some in Hlast as [l' ->].
  apply ascending_app in Hasc as (_ & _ & Hlt).
  apply elem_of_app in Ha as [Ha|Ha].
  - specialize (Hlt a r Ha). assert (r ∈ [r]) by left. specialize (Hlt H). lia.
  - apply list_elem_of_singleton in Ha as ->. lia.
Qed.



Lemma lastID_range (l : list Row) (p : Z) :
  (∀ r, r ∈ l → p < rowID r) → p <= lastID rowID l p.
Proof.
  intros Hall. unfold lastID. destruct (last l) as [r|] eqn:Hlast; [|lia].
  apply last_Some in Hlast as [l' ->].
  assert (r ∈ l' ++ [r]) as Hr by (apply elem_of_app; right; left).
  specialize (Hall r Hr). lia.
Qed.

(** A page holds the first rows after [paginate]: nothing between
    [paginate] and [last] is left out, and a page that is not full leaves
    nothing behind. *)
Lemma selectPage_complete (tbl : list Row) (site paginate : Z) (n : nat) :
  NoDup (rowID <$> tbl) →
  let hh := take n (selectAfter rowID rowSite tbl site paginate) in
  let last := lastID rowID hh paginate in
  ascending rowID hh ∧ (length hh ≤ n)%nat ∧ paginate <= last
  ∧ (∀ r, r ∈ hh
          ↔ r ∈ tbl ∧ rowSite r = site ∧ paginate < rowID r <= last)
  ∧ ((length hh < n)%nat →
     ∀ r, r ∈ tbl → rowSite r = site → rowID r <= last).
Proof.
  intros Hnd hh last0.
  pose proof (selectAfter_ascending tbl site paginate Hnd) as Hasc.
  rewrite <- (take_drop n (selectAfter _ _ _ _ _)) in Hasc.
  fold hh in Hasc.
  destruct (ascending_app _ _ Hasc) as (Hpage & Hrest & Hlt).
  assert (∀ r, r ∈ hh → r ∈ tbl ∧ rowSite r = site ∧ paginate < rowID r)
    as Hin.
  { intros r Hr. apply elem_of_selectAfter.
    rewrite <- (take_drop n (selectAfter _ _ _ _ _)). apply elem_of_app.
    by left. }
  assert (paginate <= last0) as Hle.
  { apply lastID_range. intros r Hr. by apply Hin. }
  assert (∀ r, r ∈ hh → rowID r <= last0) as Hlast.
  { intros r Hr. unfold last0, lastID.
    destruct (last hh) as [r'|] eqn:Hr'.
    - by apply (ascending_last hh r' r).
    - apply last_None in Hr'. rewrite Hr' in Hr. by apply elem_of_nil in Hr. }
  assert (∀ r, r ∈ drop n (selectAfter rowID rowSite tbl site paginate) →
               last0 < rowID r) as Hbeyond.
  { intros r Hr. unfold last0, lastID.
    destruct (last hh) as [r'|] eqn:Hr'.
    - apply (Hlt r' r); [|done]. apply last_Some in Hr' as [l' ->].
      apply elem_of_app. right. left.
    - assert (r ∈ selectAfter rowID rowSite tbl site paginate) as Hsel.
      { rewrite <- (take_drop n (selectAfter _ _ _ _ _)). apply elem_of_app.
        by right. }
      by apply elem_of_selectAfter in Hsel as (_ & _ & ?). }
  split_and!.
  - done.
  - unfold hh. rewrite length_take. lia.
  - done.
  - intros r. split.
    + intros Hr. destruct (Hin r Hr) as (? & ? & ?).
      specialize (Hlast r Hr). split_and!; (done || lia).
    + intros (Htbl & Hsite & Hp & Hl).
      assert (r ∈ selectAfter rowID rowSite tbl site paginate) as Hsel
        by by apply elem_of_selectAfter.
      rewrite <- (take_drop n (selectAfter _ _ _ _ _)) in Hsel.
      apply elem_of_app in Hsel as [?|Hdrop]; [done|].
      specialize (Hbeyond r Hdrop). lia.
  - intros Hshort r Htbl Hsite.
    destruct (decide (paginate < rowID r)) as [Hp|Hp]; [|lia].
    apply Hlast. unfold hh. rewrite take_ge.
    + by apply elem_of_selectAfter.
    + unfold hh in Hshort. rewrite length_take in Hshort. lia.
Qed.


End PageFacts.

Lemma pageLimit_range (limit : Z) :
  0 <= limit → 0 < pageLimit limit <= 5000.
Proof.
  intros Hlimit. unfold pageLimit.
  destruct (limit =? 0) eqn:H0; [simpl; lia|].
  destruct (5000 <? limit) eqn:H5; simpl; [lia|].
  apply Z.eqb_neq in H0. apply Z.ltb_ge in H5. lia.
Qed.

(** X17: [Hits.List] returns the hits of the site that come first after
    [paginate], at most 5000 and in the order of their IDs: no hit between
    [paginate] and the [last] it returns is left out, and when the page is
    not full no hit of the site comes after [last]. *)
Theorem Hits_List_page (tbl : list Hit) (site limit paginate : Z) :
  NoDup (Hit.ID <$> tbl) → 0 <= limit →
  let '(hh, last, err) := Hits_List tbl site limit paginate in
  err = None
  ∧ ascending Hit.ID hh ∧ (length hh ≤ 5000)%nat ∧ paginate <= last
  ∧ (∀ h, h ∈ hh
          ↔ h ∈ tbl ∧ Hit.Site h = site ∧ paginate < Hit.ID h <= last)
  ∧ ((length hh < Z.to_nat (pageLimit limit))%nat →
     ∀ h, h ∈ tbl → Hit.Site h = site → Hit.ID h <= last).
Proof.
  intros Hnd Hlimit. unfold Hits_List, selectHits, selectPage.
  pose proof (pageLimit_range limit Hlimit) as Hrange.
  destruct (pageLimit limit <? 0) eqn:Hneg; [apply Z.ltb_lt in Hneg; lia|].
  destruct (selectPage_complete Hit.ID Hit.Site tbl site paginate
              (Z.to_nat (pageLimit limit)) Hnd)
    as (Hasc & Hlen & Hle & Hiff & Hshort).
  split_and!; try done. lia.
Qed.

Lemma Hits_List_page_witness :
  let '(hh, last, err) := Hits_List sampleTable 1 2 2 in
  err = None
  ∧ ascending Hit.ID hh ∧ (length hh ≤ 5000)%nat ∧ 2 <= last
  ∧ (∀ h, h ∈ hh
          ↔ h ∈ sampleTable ∧ Hit.Site h = 1 ∧ 2 < Hit.ID h <= last)
  ∧ ((length hh < Z.to_nat (pageLimit 2))%nat →
     ∀ h, h ∈ sampleTable → Hit.Site h = 1 → Hit.ID h <= last).
Proof.
  apply (Hits_List_page sampleTable 1 2 2).
  - apply (bool_decide_unpack _). vm_compute. exact I.
  - lia.
Defined.

(** The page of that witness: the second and third hits of site 1. *)
Example Hits_List_sampleTable :
  Hits_List sampleTable 1 2 2 = ([hitOf 5 1; hitOf 7 1], 7, None).
Proof. vm_compute. reflexivity. Qed.

Section ExportRunFacts.
Context {Uint128 : Type}.
Variable Uint128_String : Uint128 → string.
Variable unref : option string → string.
Variable Unshorten : string → string.

Let Row := (@ExportRow.t Uint128).
Let unshorten : Row → Row :=
  λ r, ExportRow.setUserAgent r (Unshorten (ExportRow.UserAgent r)).
Let line : Row → list string :=
  λ r, exportLine Uint128_String unref (unshorten r).


End ExportRunFacts.


(** The run of that witness. *)
Example Export_Run_sampleExportTable :
  Export_Run pretty (default "") id 4 sampleExportTable 1 0
  = Some (5, 2,
          [exportHeader;
           ["/a"; ""; ""; ""; ""; ""; "0"; "0"; ""; ""; ""; ""; "1";
            "2019-08-31T14:42:00Z"];
           ["/c"; ""; ""; ""; ""; ""; "0"; "0"; ""; ""; ""; ""; "1";
            "2019-08-31T14:42:00Z"]],
          None).
Proof. vm_compute. reflexivity. Qed.

(** ** More on path normalisation *)

Lemma Values_Get_delete (q : Values) (k key : string) :
  k ≠ key → Values_Get (Values_Del q k) key = Values_Get q key.
Proof.
  intros Hne. unfold Values_Get, Values_Del. by rewrite lookup_delete_ne.
Qed.

Lemma Values_Get_filter (P : string * list string → Prop)
    `{∀ kv, Decision (P kv)} (q : Values) (key : string) :
  (∀ v, P (key, v)) → Values_Get (filter P q) key = Values_Get q key.
Proof.
  intros HP. unfold Values_Get.
  destruct (q !! key) as [v|] eqn:Hq.
  - by rewrite (map_lookup_filter_Some_2 P q key v).
  - by rewrite map_lookup_filter_None_2 by by left.
Qed.

(** X19: The query [cleanPath] prints for a path that parses is the query of the
    path without its tracking parameters: these are gone, with all their
    values, and every other parameter is kept as it was. *)
Theorem cleanTracking_query `{NetURL} (path : string) :
  cleanTracking path
  = match url_Parse path with
    | None => path
    | Some u =>
      URL_String
        (URL_setRawQuery u (Values_Encode (withoutTracking (URL_Query u))))
    end.
Proof.
  unfold cleanTracking. destruct (url_Parse path) as [u|]; [|done].
  do 3 f_equal. set (q := URL_Query u).
  set (q6 := Values_Del (Values_Del (filter _ _) "nsukey") "isappinstalled").
  assert (Values_Get q6 "from" = Values_Get q "from") as Hfrom.
  { unfold q6. rewrite !Values_Get_delete by done.
    rewrite Values_Get_filter by (intros v; simpl; by vm_compute).
    by rewrite !Values_Get_delete. }
  rewrite Hfrom.
  apply map_eq. intros k. apply option_eq. intros v.
  unfold withoutTracking. rewrite map_lookup_filter_Some. cbn [fst].
  unfold trackingKey.
  assert ((if String.eqb (Values_Get q "from") "singlemessage"
              || String.eqb (Values_Get q "from") "groupmessage"
           then Values_Del q6 "from" else q6) !! k = Some v
          ↔ q6 !! k = Some v
            ∧ ¬ (k = "from" ∧ Values_Get q "from"
                              ∈ ["singlemessage"; "groupmessage"])) as ->.
  { destruct (String.eqb _ "singlemessage" || String.eqb _ "groupmessage")
      eqn:Hmsg.
    - unfold Values_Del. rewrite lookup_delete_Some.
      apply orb_true_iff in Hmsg. rewrite !String.eqb_eq in Hmsg.
      split; [intros [Hne ?]|intros [? Hnot]]; split; try done.
      + intros [? _]. done.
      + intros <-. apply Hnot. split; [done|].
        rewrite !elem_of_cons. tauto.
    - apply orb_false_iff in Hmsg. rewrite !String.eqb_neq in Hmsg.
      split; [intros ?|intros [? _]; done]. split; [done|].
      intros [_ Hin]. rewrite !elem_of_cons, elem_of_nil in Hin. tauto. }
  unfold q6, Values_Del.
  rewrite !lookup_delete_Some, map_lookup_filter_Some, !lookup_delete_Some.
  cbn [fst]. rewrite !elem_of_cons, !elem_of_nil.
  intuition congruence.
Qed.

(** One URL of that kind: of the three parameters only [page] is left. *)
Example cleanTracking_fixedQuery :
  @cleanTracking
    (fixedQuery {[ "utm_source" := ["x"]; "page" := ["2"];
                   "from" := ["groupmessage"; "y"] ]}) "/a?"
  = "page;".
Proof. vm_compute. reflexivity. Qed.

(** ** Vacuuming deleted sites *)

Section VacuumFacts.
Context {Row : Type}.
Variable row_site_id : Row → Z.

Lemma filter_twice (P : Row → Prop) `{∀ r, Decision (P r)} (l : list Row) :
  filter P (filter P l) = filter P l.
Proof. rewrite list_filter_filter. apply list_filter_iff. tauto. Qed.

Lemma deleteSites_table (ts : list string) (siteID : Z) (t : string) :
  ∀ tables : string → list Row,
  foldl (λ tables t, deleteSite row_site_id t siteID tables) tables ts t
  = if decide (t ∈ ts)
    then filter (λ r, row_site_id r ≠ siteID) (tables t)
    else tables t.
Proof.
  induction ts as [|t0 ts IH]; intros tables.
  { cbn [foldl]. rewrite decide_False; [done|]. apply not_elem_of_nil. }
  cbn [foldl]. rewrite IH. unfold deleteSite.
  destruct (decide (t = t0)) as [->|Hne].
  - rewrite (decide_True (P := t0 ∈ t0 :: ts)) by left.
    destruct (decide (t0 ∈ ts)); [apply filter_twice|done].
  - destruct (decide (t ∈ ts)) as [Hin|Hnot].
    + by rewrite (decide_True (P := t ∈ t0 :: ts)) by by right.
    + rewrite (decide_False (P := t ∈ t0 :: ts)); [done|].
      rewrite elem_of_cons. tauto.
Qed.

Lemma vacuumSite_table (tables : string → list Row) (s : Site) (t : string) :
  vacuumSite row_site_id tables s t
  = if decide (t ∈ vacuumedTables)
    then filter (λ r, row_site_id r ≠ Site.ID s) (tables t)
    else tables t.
Proof.
  unfold vacuumSite. unfold deleteSite at 1. rewrite deleteSites_table.
  change vacuumedTables
    with (["browser_stats"; "system_stats"; "hit_stats"; "hits";
           "location_stats"; "size_stats"; "users"] ++ ["sites"]).
  set (ts := ["browser_stats"; "system_stats"; "hit_stats"; "hits";
              "location_stats"; "size_stats"; "users"]).
  destruct (decide (t = "sites")) as [->|Hne].
  - rewrite (decide_True (P := "sites" ∈ ts ++ ["sites"]))
      by (apply elem_of_app; right; left).
    destruct (decide ("sites" ∈ ts)); [apply filter_twice|done].
  - destruct (decide (t ∈ ts)) as [Hin|Hnot].
    + by rewrite (decide_True (P := t ∈ ts ++ ["sites"]))
        by (apply elem_of_app; by left).
    + rewrite (decide_False (P := t ∈ ts ++ ["sites"])); [done|].
      rewrite elem_of_app, list_elem_of_singleton. tauto.
Qed.

(** X20: [vacuumDeleted] removes from the eight tables it names every row of the
    sites it is given and nothing else; the rows of these sites in any other
    table, such as [hit_counts], [ref_counts] or [paths], stay. *)
Theorem vacuumDeleted_tables (sites : list Site)
    (tables : string → list Row) (t : string) :
  vacuumDeleted row_site_id sites tables t
  = if decide (t ∈ vacuumedTables)
    then filter (λ r, row_site_id r ∉ Site.ID <$> sites) (tables t)
    else tables t.
Proof.
  unfold vacuumDeleted. revert tables.
  induction sites as [|s sites IH]; intros tables.
  { cbn [foldl]. destruct (decide _); [|done].
    rewrite filter_all; [done|]. apply Forall_forall. intros r _.
    apply not_elem_of_nil. }
  cbn [foldl]. rewrite IH, vacuumSite_table.
  destruct (decide (t ∈ vacuumedTables)); [|done].
  rewrite list_filter_filter. apply list_filter_iff. intros r.
  rewrite fmap_cons, not_elem_of_cons. tauto.
Qed.
End VacuumFacts.

(** ** Blank days, whatever was fetched *)

Lemma fillLoop_any (n : nat) : ∀ (fuel : nat) (day : time.Time) (de : Z)
    (stats : list Stat) (j : nat) (acc : list Stat),
  (n < fuel)%nat →
  time.dayOf day + 1 + Z.of_nat n = de →
  ∃ out : list Stat,
    fillLoop fuel day (time.formatDate de) stats j acc = Some (acc ++ out)
    ∧ Stat.Day <$> out
      = time.formatDate <$> seqZ (time.dayOf day + 1) (Z.of_nat n + 1)
    ∧ Forall (λ s, s ∈ stats ∨ s = blankStat (Stat.Day s)) out.
Proof.
  induction n as [|n IH]; intros fuel day de stats j acc Hfuel Hde.
  all: destruct fuel as [|fuel]; [lia|].
  all: cbn [fillLoop]; unfold time.Format; rewrite dayOf_next.
  all: set (d := time.dayOf day + 1) in *.
  all: rewrite (seqZ_cons d) by lia; rewrite fmap_cons.
  all: assert (∃ s j', match stats !! j with
         | Some s =>
           if String.eqb (time.formatDate d) (Stat.Day s)
           then (acc ++ [s], S j)
           else (acc ++ [blankStat (time.formatDate d)], j)
         | None => (acc ++ [blankStat (time.formatDate d)], j)
         end = (acc ++ [s], j')
         ∧ Stat.Day s = time.formatDate d
         ∧ (s ∈ stats ∨ s = blankStat (Stat.Day s)))
       as (s & j' & -> & Hday & Hs).
  1,3: destruct (stats !! j) as [s|] eqn:Hj;
       [destruct (String.eqb (time.formatDate d) (Stat.Day s)) eqn:Heqb;
        [apply String.eqb_eq in Heqb; exists s, (S j);
         split_and!; [done|done|left; by eapply list_elem_of_lookup_2]
        |exists (blankStat (time.formatDate d)), j; split_and!; [done|done|by right]]
       |exists (blankStat (time.formatDate d)), j; split_and!; [done|done|by right]].
  - assert (d = de) as <- by lia. rewrite String.eqb_refl.
    exists [s]. split_and!; [done|by rewrite fmap_cons, Hday|].
    by constructor.
  - destruct (String.eqb (time.formatDate d) (time.formatDate de)) eqn:Hstop.
    { apply String.eqb_eq, formatDate_inj in Hstop. lia. }
    destruct (IH fuel (time.Add day (24 * time.Hour)) de stats j' (acc ++ [s]))
      as (out & -> & Hdays & Hout); [lia|rewrite dayOf_next; lia|].
    exists (s :: out). split_and!.
    + by rewrite <- app_assoc.
    + rewrite fmap_cons, Hday, Hdays, dayOf_next. do 2 f_equal. fold d.
      f_equal; lia.
    + by constructor.
Qed.

Lemma mapM_Forall2_build {A B} (f : A → option B) (R : A → B → Prop)
    (l : list A) :
  (∀ x, x ∈ l → ∃ y, f x = Some y ∧ R x y) →
  ∃ k, mapM f l = Some k ∧ Forall2 R l k.
Proof.
  induction l as [|x l IH]; intros Hall.
  { exists []. split; [done|constructor]. }
  destruct (Hall x) as (y & Hy & HR); [left|].
  destruct IH as (k & Hk & HF); [intros z Hz; apply Hall; by right|].
  exists (y :: k). split; [|by constructor].
  cbn [mapM]. rewrite Hy. cbn [mbind option_bind]. by rewrite Hk.
Qed.

Lemma eve_dayOf (start : time.Time) :
  time.dayOf (time.Add start (- 24 * time.Hour)) + 1 = time.dayOf start.
Proof.
  rewrite <- dayOf_next. f_equal. unfold time.Add, time.Hour, time.Time. ring.
Qed.

(** X21: Whatever entries a path comes with, [fillBlankDays] on a range with
    start <= end terminates and leaves it with exactly one entry per
    calendar day of the range, in order, each of them one of the entries
    it came with or an all-zero day; the other fields of the path stay. *)
Theorem fillBlankDays_one_per_day (fuel : nat) (hh : HitStats)
    (start end_ : time.Time) :
  time.After start end_ = false →
  (Z.to_nat (time.dayOf end_ - time.dayOf start) < fuel)%nat →
  ∃ hh' : HitStats,
    fillBlankDays fuel hh start end_ = Some hh'
    ∧ Forall2 (λ h h',
        h' = HitStat.setStats h (HitStat.Stats h')
        ∧ Stat.Day <$> HitStat.Stats h' = rangeDays start end_
        ∧ Forall (λ s, s ∈ HitStat.Stats h ∨ s = blankStat (Stat.Day s))
            (HitStat.Stats h')) hh hh'.
Proof.
  intros Hafter Hfuel. unfold fillBlankDays. rewrite Hafter.
  apply Z.ltb_ge in Hafter. apply dayOf_mono in Hafter.
  apply mapM_Forall2_build. intros h _.
  destruct (fillLoop_any (Z.to_nat (time.dayOf end_ - time.dayOf start)) fuel
              (time.Add start (- 24 * time.Hour)) (time.dayOf end_)
              (HitStat.Stats h) 0 [])
    as (out & Hout & Hdays & Hfrom); [done|rewrite eve_dayOf; lia|].
  unfold time.Format at 1. rewrite Hout. cbn [mbind option_bind app].
  exists (HitStat.setStats h out). split; [done|].
  split_and!; [done| |done].
  cbn. rewrite Hdays, eve_dayOf. unfold rangeDays.
  by replace (Z.of_nat (Z.to_nat (time.dayOf end_ - time.dayOf start)) + 1)
    with (time.dayOf end_ - time.dayOf start + 1) by lia.
Qed.

Lemma fillBlankDays_one_per_day_witness :
  ∃ hh' : HitStats,
    fillBlankDays 3
      [samplePath [sampleDay "2019-08-31" sampleHours sampleHours;
                   sampleDay "2019-08-30" sampleHours sampleHours]]
      (sampleNow - 24 * time.Hour) sampleNow = Some hh'
    ∧ Forall2 (λ h h',
        h' = HitStat.setStats h (HitStat.Stats h')
        ∧ Stat.Day <$> HitStat.Stats h'
          = rangeDays (sampleNow - 24 * time.Hour) sampleNow
        ∧ Forall (λ s, s ∈ HitStat.Stats h ∨ s = blankStat (Stat.Day s))
            (HitStat.Stats h'))
        [samplePath [sampleDay "2019-08-31" sampleHours sampleHours;
                     sampleDay "2019-08-30" sampleHours sampleHours]] hh'.
Proof.
  apply (fillBlankDays_one_per_day 3
    [samplePath [sampleDay "2019-08-31" sampleHours sampleHours;
                 sampleDay "2019-08-30" sampleHours sampleHours]]
    (sampleNow - 24 * time.Hour) sampleNow).
  - reflexivity.
  - vm_compute. lia.
Defined.

Lemma fillLoop_stuck (s0 : Stat) (rest : list Stat) (n : nat) :
  ∀ (fuel : nat) (day : time.Time) (de : Z) (acc : list Stat),
  (n < fuel)%nat →
  time.dayOf day + 1 + Z.of_nat n = de →
  (∀ d, time.dayOf day + 1 <= d <= de → Stat.Day s0 ≠ time.formatDate d) →
  fillLoop fuel day (time.formatDate de) (s0 :: rest) 0 acc
  = Some (acc ++ ((λ d, blankStat (time.formatDate d))
                    <$> seqZ (time.dayOf day + 1) (Z.of_nat n + 1))).
Proof.
  induction n as [|n IH]; intros fuel day de acc Hfuel Hde Hout.
  all: destruct fuel as [|fuel]; [lia|].
  all: cbn [fillLoop]; unfold time.Format; rewrite dayOf_next.
  all: set (d := time.dayOf day + 1) in *.
  all: rewrite (seqZ_cons d) by lia; rewrite fmap_cons.
  all: assert (String.eqb (time.formatDate d) (Stat.Day s0) = false) as Hne
         by (apply String.eqb_neq; intros Heq; apply (Hout d); [lia|done]).
  all: change ((s0 :: rest) !! 0%nat) with (Some s0); cbv iota; rewrite Hne.
  - assert (d = de) as <- by lia. by rewrite String.eqb_refl.
  - destruct (String.eqb (time.formatDate d) (time.formatDate de)) eqn:Hstop.
    { apply String.eqb_eq, formatDate_inj in Hstop. lia. }
    rewrite (IH fuel _ de); [|lia|rewrite dayOf_next; lia|].
    + rewrite <- app_assoc, dayOf_next. fold d. cbn [app].
      replace (Z.succ d) with (d + 1) by lia.
      by replace (Z.pred (Z.of_nat (S n) + 1)) with (Z.of_nat n + 1) by lia.
    + intros d' Hd'. apply Hout. rewrite dayOf_next in Hd'. lia.
Qed.

(** X22: The loop of [fillBlankDays] takes the fetched entries in their order
    only: when the first entry of a path is dated outside the range, the
    loop never gets past it, and every day of the path comes back all-zero,
    whatever the entries after it hold. *)
Theorem fillBlankDays_first_out_of_range (fuel : nat) (hh : HitStats)
    (start end_ : time.Time) :
  time.After start end_ = false →
  (Z.to_nat (time.dayOf end_ - time.dayOf start) < fuel)%nat →
  Forall (λ h, ∃ s0, head (HitStat.Stats h) = Some s0
                     ∧ outOfRange start end_ s0) hh →
  fillBlankDays fuel hh start end_
  = Some ((λ h, HitStat.setStats h (blankStat <$> rangeDays start end_))
            <$> hh).
Proof.
  intros Hafter Hfuel Hfirst. unfold fillBlankDays. rewrite Hafter.
  apply Z.ltb_ge in Hafter. apply dayOf_mono in Hafter.
  apply mapM_fmap_Some. eapply Forall_impl; [exact Hfirst|].
  intros h (s0 & Hhead & Hout). cbn beta.
  destruct (HitStat.Stats h) as [|s rest]; [done|]. injection Hhead as ->.
  unfold time.Format at 1.
  rewrite (fillLoop_stuck s0 rest
             (Z.to_nat (time.dayOf end_ - time.dayOf start)) fuel _
             (time.dayOf end_)); [|done|rewrite eve_dayOf; lia|].
  - cbn [mbind option_bind app]. rewrite eve_dayOf. unfold rangeDays.
    rewrite <- list_fmap_compose.
    by replace (Z.of_nat (Z.to_nat (time.dayOf end_ - time.dayOf start)) + 1)
      with (time.dayOf end_ - time.dayOf start + 1) by lia.
  - intros d Hd Heq. apply Hout. unfold rangeDays. rewrite Heq.
    apply list_elem_of_fmap. exists d. split; [done|].
    apply elem_of_seqZ. rewrite eve_dayOf in Hd. lia.
Qed.

Lemma fillBlankDays_first_out_of_range_witness :
  fillBlankDays 3
    [samplePath [sampleDay "2019-08-29" sampleHours sampleHours;
                 sampleDay "2019-08-31" sampleHours sampleHours]]
    (sampleNow - 24 * time.Hour) sampleNow
  = Some ((λ h, HitStat.setStats h
                  (blankStat
                     <$> rangeDays (sampleNow - 24 * time.Hour) sampleNow))
            <$> [samplePath
                   [sampleDay "2019-08-29" sampleHours sampleHours;
                    sampleDay "2019-08-31" sampleHours sampleHours]]).
Proof.
  apply (fillBlankDays_first_out_of_range 3
    [samplePath [sampleDay "2019-08-29" sampleHours sampleHours;
                 sampleDay "2019-08-31" sampleHours sampleHours]]
    (sampleNow - 24 * time.Hour) sampleNow).
  - reflexivity.
  - vm_compute. lia.
  - constructor; [|constructor].
    exists (sampleDay "2019-08-29" sampleHours sampleHours).
    split; [reflexivity|]. unfold outOfRange. vm_compute.
    intros Hin. repeat (apply elem_of_cons in Hin as [Hin|Hin];
                        [discriminate Hin|]).
    by apply elem_of_nil in Hin.
Defined.

(** ** The location rollup, batch after batch *)

Lemma updateLocationStats_incremental_rows (site : Site) (hits : list Hit)
    (tbl : list LocationStat) :
  batchFor (Site.ID site) tbl hits →
  updateLocationStats site hits false tbl
  ≡ₚ untouched (Site.ID site) hits tbl
     ++ (groupRow site tbl hits <$> groups hits).
Proof.
  intros Hbatch. unfold updateLocationStats.
  destruct (locationLoop_incremental _ _ _ Hbatch) as (g & -> & Hsome & Hnone).
  apply Permutation_app_head. unfold locationRows, groupRow.
  set (entries := (λ tr, (keyOf tr, groupEntry (Site.ID site) tbl hits tr))
                    <$> groups hits).
  assert (entries.*1 = keyOf <$> groups hits) as Hkeys.
  { unfold entries. rewrite <- list_fmap_compose. done. }
  assert (NoDup entries.*1) as Hnodup.
  { rewrite Hkeys. apply NoDup_fmap_2_strong; [|apply NoDup_remove_dups].
    intros tr1 tr2. apply groups_keys_distinct. apply Hbatch. }
  assert (g = list_to_map entries) as ->.
  { apply map_eq. intros k.
    destruct (decide (k ∈ keyOf <$> groups hits)) as [Hin|Hnot].
    - apply list_elem_of_fmap in Hin as (tr & -> & Htr).
      rewrite (Hsome _ Htr). symmetry.
      apply elem_of_list_to_map_1; [done|].
      unfold entries. apply list_elem_of_fmap. by exists tr.
    - rewrite Hnone.
      + symmetry. apply not_elem_of_list_to_map_1. by rewrite Hkeys.
      + intros tr Htr <-. apply Hnot, list_elem_of_fmap. by exists tr. }
  rewrite (map_to_list_to_map entries Hnodup).
  unfold entries. rewrite <- !list_fmap_compose. done.
Qed.

Lemma counted_app (h1 h2 : list Hit) :
  counted (h1 ++ h2) = counted h1 ++ counted h2.
Proof. unfold counted. apply filter_app. Qed.

Lemma hitsOf_app (tr : string * string * Z) (h1 h2 : list Hit) :
  hitsOf tr (h1 ++ h2) = hitsOf tr h1 ++ hitsOf tr h2.
Proof. unfold hitsOf. by rewrite counted_app, filter_app. Qed.

Lemma firstVisitsOf_app (tr : string * string * Z) (h1 h2 : list Hit) :
  firstVisitsOf tr (h1 ++ h2) = firstVisitsOf tr h1 ++ firstVisitsOf tr h2.
Proof. unfold firstVisitsOf. by rewrite hitsOf_app, filter_app. Qed.

Lemma groups_app (h1 h2 : list Hit) (tr : string * string * Z) :
  tr ∈ groups (h1 ++ h2) ↔ tr ∈ groups h1 ∨ tr ∈ groups h2.
Proof.
  rewrite !elem_of_groups, counted_app. split.
  - intros (h & [?|?]%elem_of_app & ?); [left|right]; by exists h.
  - intros [(h & ? & ?)|(h & ? & ?)]; exists h; split; try done;
      apply elem_of_app; auto.
Qed.

Lemma batchFor_app (siteID : Z) (tbl : list LocationStat) (h1 h2 : list Hit) :
  batchFor siteID tbl (h1 ++ h2) →
  batchFor siteID tbl h1
  ∧ (∀ h, h ∈ counted h2 → Hit.Site h = siteID)
  ∧ keysDistinct h2.
Proof.
  intros (Hsite & Hkeys & Hlen & Htbl). rewrite length_app in *.
  rewrite counted_app in Hsite. unfold keysDistinct in *.
  rewrite counted_app in Hkeys.
  split_and!.
  - split_and!.
    + intros h Hh. apply Hsite, elem_of_app. by left.
    + intros x y Hx Hy. apply Hkeys; apply elem_of_app; by left.
    + lia.
    + intros r Hr. specialize (Htbl r Hr). lia.
  - intros h Hh. apply Hsite, elem_of_app. by right.
  - intros x y Hx Hy. apply Hkeys; apply elem_of_app; by right.
Qed.

Lemma groupRow_fields (site : Site) (tbl : list LocationStat)
    (hits : list Hit) (tr : string * string * Z) :
  ls_site_id (groupRow site tbl hits tr) = Site.ID site
  ∧ rowTriple (groupRow site tbl hits tr) = tr.
Proof. by destruct tr as [[d l] p]. Qed.

Lemma filter_fmap_groupRow (site : Site) (tbl : list LocationStat)
    (hits : list Hit) (P : string * string * Z → Prop)
    `{∀ tr, Decision (P tr)} (l : list (string * string * Z)) :
  filter (λ r, P (rowTriple r)) (groupRow site tbl hits <$> l)
  = groupRow site tbl hits <$> filter P l.
Proof.
  induction l as [|tr l IH]; [done|].
  rewrite fmap_cons, !filter_cons.
  rewrite (proj2 (groupRow_fields site tbl hits tr)).
  destruct (decide (P tr)); by rewrite IH.
Qed.

(** The rows of a table that match a group, when the group has at most one
    row. *)
Lemma uniqueRows_match (siteID : Z) (tbl : list LocationStat)
    (tr : string * string * Z) :
  uniqueRows siteID tbl →
  (length (filter (λ r, lsMatch siteID tr.1.1 tr.1.2 tr.2 r = true) tbl)
   ≤ 1)%nat.
Proof.
  unfold uniqueRows. induction tbl as [|r tbl IH]; [simpl; lia|].
  rewrite !filter_cons.
  destruct (decide (ls_site_id r = siteID)) as [Hsite|Hsite].
  - rewrite fmap_cons. intros [Hr Hnd]%NoDup_cons. specialize (IH Hnd).
    destruct (decide (lsMatch siteID tr.1.1 tr.1.2 tr.2 r = true))
      as [Hm|Hm]; [|done].
    apply lsMatch_spec in Hm as [_ Hm].
    rewrite filter_none; [simpl; lia|].
    apply Forall_forall. intros r' Hr' [Hs' Hm']%lsMatch_spec.
    apply Hr. rewrite Hm, <- Hm'. apply list_elem_of_fmap. exists r'.
    split; [done|]. by apply list_elem_of_filter.
  - intros Hnd. specialize (IH Hnd).
    rewrite decide_False; [done|]. intros [? _]%lsMatch_spec. done.
Qed.

Lemma Permutation_short {A} (l1 l2 : list A) :
  l1 ≡ₚ l2 → (length l2 ≤ 1)%nat → l1 = l2.
Proof.
  intros Hperm Hlen. destruct l2 as [|x [|y l2]]; [| |simpl in Hlen; lia].
  - by apply Permutation_nil_r.
  - by apply Permutation_singleton_r.
Qed.

Lemma filter_ext_in {A} (P Q : A → Prop) `{∀ x, Decision (P x)}
    `{∀ x, Decision (Q x)} (l : list A) :
  (∀ x, x ∈ l → (P x ↔ Q x)) → filter P l = filter Q l.
Proof.
  induction l as [|x l IH]; intros Hext; [done|].
  rewrite !filter_cons.
  assert (P x ↔ Q x) as Hx by (apply Hext; left).
  rewrite IH by (intros y Hy; apply Hext; by right).
  destruct (decide (P x)), (decide (Q x)); tauto.
Qed.

Lemma filter_eq_NoDup {A} `{EqDecision A} (l : list A) (x : A) :
  NoDup l → x ∈ l → filter (λ y, y = x) l = [x].
Proof.
  induction 1 as [|y l Hy Hnd IH]; intros Hx; [by apply elem_of_nil in Hx|].
  rewrite filter_cons. destruct (decide (y = x)) as [->|Hne].
  - f_equal. apply filter_none, Forall_forall. intros z Hz ->. done.
  - apply elem_of_cons in Hx as [?|Hx]; [congruence|]. by apply IH.
Qed.

(** The stored counts of a group after a first batch are its counts in
    that batch. *)
Lemma existingCounts_after (site : Site) (tbl tbl1 : list LocationStat)
    (h1 : list Hit) (tr : string * string * Z) :
  uniqueRows (Site.ID site) tbl →
  tbl1 ≡ₚ untouched (Site.ID site) h1 tbl
          ++ (groupRow site tbl h1 <$> groups h1) →
  existingCounts (Site.ID site) tbl1 tr
  = (gt.count (groupEntry (Site.ID site) tbl h1 tr),
     gt.countUnique (groupEntry (Site.ID site) tbl h1 tr)).
Proof.
  intros Huniq Htbl1. unfold existingCounts.
  set (M := λ r, lsMatch (Site.ID site) tr.1.1 tr.1.2 tr.2 r = true).
  assert (filter M tbl1
          ≡ₚ filter M (untouched (Site.ID site) h1 tbl)
             ++ filter M (groupRow site tbl h1 <$> groups h1)) as Hperm
    by (by rewrite Htbl1, filter_app).
  assert (filter M (groupRow site tbl h1 <$> groups h1)
          = groupRow site tbl h1 <$> filter (λ tr', tr' = tr) (groups h1))
    as Hnew.
  { rewrite <- (filter_fmap_groupRow site tbl h1 (λ tr', tr' = tr)).
    apply filter_ext_in. intros r (tr' & -> & _)%list_elem_of_fmap.
    unfold M. rewrite lsMatch_spec.
    destruct (groupRow_fields site tbl h1 tr') as [-> ->]. tauto. }
  rewrite Hnew in Hperm. clear Hnew.
  destruct (decide (tr ∈ groups h1)) as [Hin|Hnot].
  - rewrite (filter_eq_NoDup (groups h1) tr) in Hperm
      by (done || apply NoDup_remove_dups).
    rewrite (filter_none M (untouched (Site.ID site) h1 tbl)) in Hperm.
    + apply Permutation_singleton_r in Hperm. fold M. rewrite Hperm.
      by destruct tr as [[d l] p].
    + apply Forall_forall. intros r [Hkeep _]%list_elem_of_filter.
      unfold M. rewrite lsMatch_spec. intros [Hs Htr]. apply Hkeep.
      by rewrite Htr.
  - rewrite (filter_none (λ tr', tr' = tr)) in Hperm
      by (apply Forall_forall; intros tr' Htr' ->; done).
    rewrite fmap_nil, app_nil_r in Hperm.
    assert (filter M (untouched (Site.ID site) h1 tbl) = filter M tbl) as Hold.
    { unfold untouched. rewrite list_filter_filter. apply list_filter_iff.
      intros r. unfold M. rewrite lsMatch_spec. split; [tauto|].
      intros [Hs Htr]. split; [done|]. rewrite Htr. tauto. }
    rewrite Hold in Hperm.
    apply Permutation_short in Hperm; [|by apply uniqueRows_match].
    fold M. rewrite Hperm.
    unfold groupEntry, firstVisitsOf. rewrite (hitsOf_nil h1 tr Hnot).
    cbn [gt.count gt.countUnique filter list_filter length].
    unfold existingCounts. fold M.
    destruct (filter M tbl); cbn [fst snd]; f_equal; lia.
Qed.

Lemma batchFor_after (site : Site) (tbl tbl1 : list LocationStat)
    (h1 h2 : list Hit) :
  batchFor (Site.ID site) tbl (h1 ++ h2) →
  tbl1 ≡ₚ untouched (Site.ID site) h1 tbl
          ++ (groupRow site tbl h1 <$> groups h1) →
  batchFor (Site.ID site) tbl1 h2.
Proof.
  intros Hbatch Htbl1.
  destruct (batchFor_app _ _ _ _ Hbatch) as (_ & Hsite2 & Hkeys2).
  destruct Hbatch as (_ & _ & Hlen & Hbound). rewrite length_app in *.
  split_and!; [done|done|lia|].
  intros r Hr. rewrite Htbl1 in Hr.
  apply elem_of_app in Hr as [Hr|Hr].
  - apply list_elem_of_filter in Hr as [_ Hr]. specialize (Hbound r Hr). lia.
  - apply list_elem_of_fmap in Hr as (tr & -> & Htr).
    destruct (existingCounts_bounds (Site.ID site) tbl
                (Z.of_nat (length h1 + length h2)) tr) as [Hc Hu];
      [lia|done|].
    pose proof (hitsOf_length h1 tr) as [[Hfv Hhits] _].
    unfold groupRow, locationRow, groupEntry. cbn.
    unfold int.min, int.max in *. lia.
Qed.

(** X23: Two batches, one after the other, leave the table [location_stats] as
    one run on all their hits does, up to the order of the rows, when the
    table holds at most one row per group. *)
Theorem updateLocationStats_batches (site : Site) (h1 h2 : list Hit)
    (tbl : list LocationStat) :
  batchFor (Site.ID site) tbl (h1 ++ h2) →
  uniqueRows (Site.ID site) tbl →
  updateLocationStats site h2 false (updateLocationStats site h1 false tbl)
  ≡ₚ updateLocationStats site (h1 ++ h2) false tbl.
Proof.
  intros Hbatch Huniq.
  destruct (batchFor_app _ _ _ _ Hbatch) as (Hbatch1 & _ & _).
  pose proof (updateLocationStats_incremental_rows site h1 tbl Hbatch1)
    as Hrows1.
  set (tbl1 := updateLocationStats site h1 false tbl) in *.
  pose proof (batchFor_after site tbl tbl1 h1 h2 Hbatch Hrows1) as Hbatch2.
  rewrite (updateLocationStats_incremental_rows site h2 tbl1 Hbatch2).
  rewrite (updateLocationStats_incremental_rows site (h1 ++ h2) tbl Hbatch).
  (* the rows both batches leave alone *)
  assert (untouched (Site.ID site) h2 tbl1
          ≡ₚ untouched (Site.ID site) (h1 ++ h2) tbl
             ++ (groupRow site tbl h1
                   <$> filter (λ tr, tr ∉ groups h2) (groups h1))) as ->.
  { unfold untouched at 1. rewrite Hrows1, filter_app.
    apply Permutation_app.
    - unfold untouched. rewrite list_filter_filter.
      apply reflexive_eq, list_filter_iff. intros r. rewrite groups_app. tauto.
    - rewrite <- (filter_fmap_groupRow site tbl h1 (λ tr, tr ∉ groups h2)).
      apply reflexive_eq, filter_ext_in.
      intros r (tr & -> & _)%list_elem_of_fmap.
      destruct (groupRow_fields site tbl h1 tr) as [-> ->]. tauto. }
  rewrite <- app_assoc. apply Permutation_app_head.
  (* the rows of the groups *)
  assert (groupRow site tbl h1 <$> filter (λ tr, tr ∉ groups h2) (groups h1)
          = groupRow site tbl (h1 ++ h2)
              <$> filter (λ tr, tr ∉ groups h2) (groups h1)) as ->.
  { apply Forall_fmap_ext, Forall_forall.
    intros tr [Hnot _]%list_elem_of_filter.
    unfold groupRow, groupEntry.
    rewrite firstVisitsOf_app, hitsOf_app. unfold firstVisitsOf.
    rewrite (hitsOf_nil h2 tr Hnot). cbn [filter list_filter].
    by rewrite !app_nil_r. }
  assert (groupRow site tbl1 h2 <$> groups h2
          = groupRow site tbl (h1 ++ h2) <$> groups h2) as ->.
  { apply Forall_fmap_ext, Forall_forall. intros tr _.
    unfold groupRow, groupEntry.
    rewrite (existingCounts_after site tbl tbl1 h1 tr Huniq Hrows1).
    rewrite firstVisitsOf_app, hitsOf_app, !length_app.
    unfold groupEntry. cbn [gt.count gt.countUnique fst snd].
    do 2 f_equal; lia. }
  rewrite <- fmap_app. apply fmap_Permutation.
  apply NoDup_Permutation.
  - apply NoDup_app. split_and!.
    + apply NoDup_filter, NoDup_remove_dups.
    + by intros tr [? _]%list_elem_of_filter.
    + apply NoDup_remove_dups.
  - apply NoDup_remove_dups.
  - intros tr. rewrite elem_of_app, list_elem_of_filter, groups_app.
    destruct (decide (tr ∈ groups h2)); tauto.
Qed.

Lemma updateLocationStats_batches_witness :
  updateLocationStats (Site.mk 1 "a" true 0) laterHits false
    (updateLocationStats (Site.mk 1 "a" true 0) sampleHits false sampleStored)
  ≡ₚ updateLocationStats (Site.mk 1 "a" true 0) (sampleHits ++ laterHits)
       false sampleStored.
Proof.
  apply (updateLocationStats_batches (Site.mk 1 "a" true 0) sampleHits
           laterHits sampleStored).
  - split_and!.
    + apply Forall_forall. unfold counted, sampleHits, laterHits.
      cbn [app]. rewrite !filter_cons, filter_nil. simpl.
      repeat constructor.
    + apply keysDistinctb_correct. vm_compute. reflexivity.
    + vm_compute. discriminate.
    + apply Forall_forall. repeat constructor; vm_compute; discriminate.
  - apply (bool_decide_unpack _). vm_compute. exact I.
Defined.

Lemma NoDup_fmap_filter_sub {A B} (f : A → B) (P : A → Prop)
    `{∀ x, Decision (P x)} (l : list A) :
  NoDup (f <$> l) → NoDup (f <$> filter P l).
Proof.
  induction l as [|x l IH]; [done|].
  rewrite fmap_cons. intros [Hx Hnd]%NoDup_cons.
  rewrite filter_cons. destruct (decide (P x)); [|by apply IH].
  rewrite fmap_cons. apply NoDup_cons. split; [|by apply IH].
  intros (y & Hy & Hin)%list_elem_of_fmap.
  apply list_elem_of_filter in Hin as [_ Hin].
  apply Hx. apply list_elem_of_fmap. by exists y.
Qed.

(** X24: A batch leaves at most one row per group in [location_stats] when
    there was at most one before: the stored row of a group is replaced,
    never doubled. *)
Theorem updateLocationStats_keeps_unique (site : Site) (hits : list Hit)
    (tbl : list LocationStat) :
  batchFor (Site.ID site) tbl hits →
  uniqueRows (Site.ID site) tbl →
  uniqueRows (Site.ID site) (updateLocationStats site hits false tbl).
Proof.
  intros Hbatch Huniq. unfold uniqueRows in *.
  rewrite (updateLocationStats_incremental_rows site hits tbl Hbatch).
  rewrite filter_app, fmap_app.
  assert (filter (λ r, ls_site_id r = Site.ID site)
            (groupRow site tbl hits <$> groups hits)
          = groupRow site tbl hits <$> groups hits) as ->.
  { apply filter_all, Forall_forall.
    intros r (tr & -> & _)%list_elem_of_fmap.
    apply groupRow_fields. }
  assert (rowTriple <$> (groupRow site tbl hits <$> groups hits)
          = groups hits) as ->.
  { rewrite <- list_fmap_compose. rewrite <- (list_fmap_id (groups hits)) at 2.
    apply Forall_fmap_ext, Forall_forall. intros tr _.
    apply groupRow_fields. }
  apply NoDup_app. split_and!.
  - assert (filter (λ r, ls_site_id r = Site.ID site)
              (untouched (Site.ID site) hits tbl)
            = untouched (Site.ID site) hits
                (filter (λ r, ls_site_id r = Site.ID site) tbl)) as ->.
    { unfold untouched. rewrite !list_filter_filter.
      apply list_filter_iff. tauto. }
    by apply NoDup_fmap_filter_sub.
  - intros tr (r & -> & Hr)%list_elem_of_fmap Hin.
    apply list_elem_of_filter in Hr as [Hs Hr].
    apply list_elem_of_filter in Hr as [Hkeep _]. by apply Hkeep.
  - apply NoDup_remove_dups.
Qed.

Lemma updateLocationStats_keeps_unique_witness :
  uniqueRows 1
    (updateLocationStats (Site.mk 1 "a" true 0) sampleHits false sampleStored).
Proof.
  apply (updateLocationStats_keeps_unique (Site.mk 1 "a" true 0) sampleHits
           sampleStored).
  - split_and!.
    + apply Forall_forall. unfold counted, sampleHits.
      rewrite !filter_cons, filter_nil. simpl. repeat constructor.
    + apply keysDistinctb_correct. vm_compute. reflexivity.
    + vm_compute. discriminate.
    + apply Forall_forall. repeat constructor; vm_compute; discriminate.
  - apply (bool_decide_unpack _). vm_compute. exact I.
Defined.

(** ** The totals of a site *)

Lemma totalsLoop_counts (tc : list HitCountsRow) :
  ∀ (stats : gmap string Stat) (c cu : Z),
  int.InRange c → int.InRange cu →
  (foldl totalsStep (stats, (c, cu)) tc).2
  = (int.wrap (c + sumZ (row_Total <$> tc)),
     int.wrap (cu + sumZ (row_TotalUnique <$> tc))).
Proof.
  induction tc as [|t tc IH]; intros stats c cu Hc Hcu.
  { simpl. by rewrite !Z.add_0_r, !wrap_id. }
  cbn [foldl]. unfold totalsStep at 2.
  rewrite IH by apply wrap_range.
  by rewrite !wrap_add_cons, !fmap_cons.
Qed.

Lemma fillBlankDays_fields (P : HitStat → Prop) (fuel : nat)
    (hh hh' : HitStats) (start end_ : time.Time) :
  (∀ h st, P h → P (HitStat.setStats h st)) →
  fillBlankDays fuel hh start end_ = Some hh' → Forall P hh → Forall P hh'.
Proof.
  intros Hset. unfold fillBlankDays.
  destruct (time.After _ _); [by intros [= <-]|].
  apply mapM_Some_Forall. intros h h' Hh HP.
  destruct (fillLoop _ _ _ _ _ _); [|done]. injection Hh as <-. by apply Hset.
Qed.

Lemma applyOffset_fields (P : HitStat → Prop) (hh hh' : HitStats)
    (site : Site) :
  (∀ h st, P h → P (HitStat.setStats h st)) →
  applyOffset hh site = Some hh' → Forall P hh → Forall P hh'.
Proof.
  intros Hset. unfold applyOffset. case_decide; [by intros [= <-]|].
  destruct (0 <? _); [|destruct (_ <? 0); [|by intros [= <-]]].
  all: apply mapM_Some_Forall; intros h h' Hh HP.
  all: repeat (match type of Hh with
               | (?x ≫= _) = Some _ => destruct x; [|done]; simpl in Hh
               end).
  all: injection Hh as <-; by apply Hset.
Qed.

(** X25: The row of totals [HitStat.Totals] returns is named [PathTotals] and
    counts every row fetched: [Count] and [CountUnique] are the sums of the
    totals of all rows, within [int], also of the hours that the shift to
    the site's timezone moves off the chart. *)
Theorem Totals_counts (fuel : nat) (tc : list HitCountsRow)
    (start end_ : time.Time) (site : Site) (daily : bool) (h : HitStat)
    (mx : Z) :
  HitStat_Totals fuel tc start end_ site daily = Some (h, mx) →
  HitStat.Path h = PathTotals
  ∧ HitStat.Count h = int.wrap (sumZ (row_Total <$> tc))
  ∧ HitStat.CountUnique h = int.wrap (sumZ (row_TotalUnique <$> tc)).
Proof.
  unfold HitStat_Totals.
  pose proof (totalsLoop_counts tc ∅ 0 0) as Hcounts.
  destruct (foldl totalsStep _ tc) as [stats [count countUnique]].
  cbn [snd] in Hcounts.
  assert (int.InRange 0) as H0 by (unfold int.InRange, int.min, int.max; lia).
  specialize (Hcounts H0 H0). injection Hcounts as -> ->.
  set (P := λ h : HitStat,
         HitStat.Path h = PathTotals
         ∧ HitStat.Count h = int.wrap (0 + sumZ (row_Total <$> tc))
         ∧ HitStat.CountUnique h
           = int.wrap (0 + sumZ (row_TotalUnique <$> tc))).
  assert (∀ h st, P h → P (HitStat.setStats h st)) as Hset by done.
  destruct (fillBlankDays _ _ _ _) as [hh|] eqn:Hfill; [|done].
  cbn [mbind option_bind].
  destruct (applyOffset _ _) as [hh'|] eqn:Hoff; [|done].
  cbn [mbind option_bind].
  apply (fillBlankDays_fields P) in Hfill; [|done|by repeat constructor].
  apply (applyOffset_fields P) in Hoff; [|done|done].
  destruct hh' as [|h0 hh']; [done|].
  apply Forall_cons in Hoff as [Hh0 _].
  destruct daily.
  - destruct (totalsDaily _ _) as [st mx']. intros [= <- _]. by apply Hset.
  - by intros [= <- _].
Qed.

Lemma Totals_counts_witness :
  ∃ (h : HitStat) (mx : Z),
    HitStat_Totals 2 sampleCounts (sampleNow - time.Hour)
      (sampleNow + 10 * time.Hour) (siteWithOffset 120) false = Some (h, mx)
    ∧ HitStat.Path h = PathTotals
    ∧ HitStat.Count h = int.wrap (sumZ (row_Total <$> sampleCounts))
    ∧ HitStat.CountUnique h
      = int.wrap (sumZ (row_TotalUnique <$> sampleCounts)).
Proof.
  destruct (HitStat_Totals 2 sampleCounts (sampleNow - time.Hour)
              (sampleNow + 10 * time.Hour) (siteWithOffset 120) false)
    as [[h mx]|] eqn:Hrun; [|by vm_compute in Hrun].
  exists h, mx. split; [done|].
  by apply (Totals_counts 2 sampleCounts (sampleNow - time.Hour)
              (sampleNow + 10 * time.Hour) (siteWithOffset 120) false h mx).
Defined.
